(** * icmp-scan: the target expander, the bounded scheduler and the result
      aggregator of [icmp.go], embedded in Rocq.

    The program reads a list of addresses and CIDR blocks, expands the
    blocks, probes every target under a semaphore of [-max] slots, sorts the
    successful probes by round-trip time and writes them to a CSV file.

    The program, first:
    - [GoStrings]: [strings.TrimSpace], [strings.Contains], [strings.Cut]
      and number formatting;
    - [GoNet]: the pieces of Go's [net] and [net/netip] packages that
      [expandCIDR] calls ([IP], [IPMask], [IPNet], [To4], [Mask], [Contains],
      [CIDRMask], [ParseAddr], [ParseCIDR], [IP.String]), with bytes as
      integers of [0, 256);
    - [Expander]: [incrementIP], [expandCIDR] and [readIPs]; a loop that
      may run for ever takes a fuel, and a call answers [NoFuel] when the
      fuel does not suffice;
    - [Aggregator]: the result of a probe and the code of [main] after the
      barrier (sort and report);
    - [Prober]: [ping] as a function of what the operating system and the
      network answer to its calls, with the calls it makes;
    - [Scheduler]: the semaphore loop of [main] and its goroutines as an
      interleaving step relation, and whole runs of [main];
    - [Schedule]: the same steps as a function of a schedule, to run the
      scheduler on concrete inputs.

    Then the vocabulary of the statements, the model on concrete inputs,
    and the lemmas and theorems: byte strings as numbers, [incrementIP],
    masks and [Contains], the addresses a block expands to, [readIPs], the
    aggregator, the scheduler and the terminal conditions of [main]; then
    [ping], the books of a run (every target is probed once, every run
    ends), the reader line by line, the texts of the targets and the family
    they are probed over.

    Left out: the numbers of the progress line, which come from a counter
    the goroutines update without synchronisation, and the bytes of the echo
    request ([ping] does not compare the identifier or the sequence number
    of a reply with those it sent). *)

From Stdlib Require Import Ascii String.
From Stdlib Require Import ZArith List Bool Lia.
From Stdlib Require Import Permutation Sorted.
Import ListNotations.

Local Open Scope Z_scope.

(* ================================================================= *)
(** * Bytes and big-endian byte strings *)

(** A Go [byte] is an integer of [0, 256); arithmetic on it wraps. *)
Definition byte := Z.

Definition is_byte (b : Z) : Prop := 0 <= b < 256.

Definition bytes_ok (l : list byte) : Prop := Forall is_byte l.

(** Value of a byte string read least significant byte first. *)
Fixpoint le_val (l : list byte) : Z :=
  match l with
  | [] => 0
  | b :: r => b + 256 * le_val r
  end.

(** Value of a byte string read most significant byte first (network order). *)
Definition be_val (l : list byte) : Z := le_val (rev l).

(** The [n] low bytes of [v], least significant first. *)
Fixpoint le_bytes (n : nat) (v : Z) : list byte :=
  match n with
  | O => []
  | S n' => v mod 256 :: le_bytes n' (v / 256)
  end.

(** [binary.BigEndian.Put]: the [n] low bytes of [v] in network order. *)
Definition be_bytes (n : nat) (v : Z) : list byte := rev (le_bytes n v).

(* ================================================================= *)
(** * The part of packages [strings] and [strconv] used by the program *)

Module GoStrings.

Local Open Scope nat_scope.
Local Open Scope string_scope.

Definition nl : string := String "010"%char EmptyString.

(** [strings.Contains s substr]. *)
Fixpoint Contains (s substr : string) : bool :=
  String.prefix substr s ||
  match s with
  | EmptyString => false
  | String _ r => Contains r substr
  end.

(** [strings.Cut s sep] for a one-byte separator: the text before the first
    [sep], the text after it, and whether [sep] occurs. *)
Fixpoint Cut (s : string) (sep : ascii) : string * string * bool :=
  match s with
  | EmptyString => (EmptyString, EmptyString, false)
  | String c r =>
      if Ascii.eqb c sep then (EmptyString, r, true)
      else let '(b, a, found) := Cut r sep in (String c b, a, found)
  end.

(** The six one-byte white space characters of [unicode.IsSpace]. *)
Definition asciiSpace (c : ascii) : bool :=
  let n := nat_of_ascii c in
  (Nat.leb 9 n && Nat.leb n 13) || Nat.eqb n 32.

Definition str_of_bytes (l : list nat) : string :=
  string_of_list_ascii (map ascii_of_nat l).

(** The UTF-8 encodings of the white space runes above U+007F: U+0085,
    U+00A0, U+1680, U+2000 to U+200A, U+2028, U+2029, U+202F, U+205F and
    U+3000 ([unicode.White_Space]). *)
Definition wideSpaces : list string :=
  map str_of_bytes
    ([ [194; 133]; [194; 160]; [225; 154; 128] ]
     ++ map (fun k => [226; 128; k]) [128; 129; 130; 131; 132; 133; 134; 135; 136; 137; 138]
     ++ [ [226; 128; 168]; [226; 128; 169]; [226; 128; 175]; [226; 129; 159];
          [227; 128; 128] ])%list.

(** The text after a leading white space rune, when there is one. *)
Definition dropSpace (s : string) : option string :=
  match s with
  | EmptyString => None
  | String c r =>
      if asciiSpace c then Some r
      else
        match find (fun w => String.prefix w s) wideSpaces with
        | Some w => Some (String.substring (String.length w)
                            (String.length s - String.length w) s)
        | None => None
        end
  end.

(** [strings.TrimLeftFunc s unicode.IsSpace]; the fuel is the length. *)
Fixpoint trimLeft (fuel : nat) (s : string) : string :=
  match fuel with
  | O => s
  | S fuel' =>
      match dropSpace s with
      | Some r => trimLeft fuel' r
      | None => s
      end
  end.

Definition rev_string (s : string) : string :=
  string_of_list_ascii (rev (list_ascii_of_string s)).

(** The text before a trailing white space rune, when there is one. *)
Definition dropSpaceRight (s : string) : option string :=
  match rev_string s with
  | EmptyString => None
  | String c _ =>
      if asciiSpace c then Some (String.substring 0 (String.length s - 1) s)
      else
        match find (fun w => String.prefix (rev_string w) (rev_string s)) wideSpaces with
        | Some w => Some (String.substring 0 (String.length s - String.length w) s)
        | None => None
        end
  end.

Fixpoint trimRight (fuel : nat) (s : string) : string :=
  match fuel with
  | O => s
  | S fuel' =>
      match dropSpaceRight s with
      | Some r => trimRight fuel' r
      | None => s
      end
  end.

(** [strings.TrimSpace]: the white space runes at both ends are removed. *)
Definition TrimSpace (s : string) : string :=
  let s := trimLeft (String.length s) s in
  trimRight (String.length s) s.

Definition digit (n : Z) : ascii := ascii_of_nat (48 + Z.to_nat n).

(** Decimal digits of [n], most significant first; the fuel bounds the
    number of digits. *)
Fixpoint uitoa_aux (fuel : nat) (n : Z) (acc : string) : string :=
  match fuel with
  | O => acc
  | S fuel' =>
      let acc := String (digit (n mod 10)%Z) acc in
      if (n <=? 9)%Z then acc else uitoa_aux fuel' (n / 10)%Z acc
  end.

(** [strconv.FormatInt n 10] on a number that is not negative. *)
Definition uitoa (n : Z) : string :=
  uitoa_aux (S (Z.to_nat (Z.log2 n))) n EmptyString.

Definition hexdigit (n : Z) : ascii :=
  if (n <? 10)%Z then ascii_of_nat (48 + Z.to_nat n)
  else ascii_of_nat (87 + Z.to_nat n).

(** Lower-case hexadecimal digits of [n] without leading zeros. *)
Fixpoint hex_aux (fuel : nat) (n : Z) (acc : string) : string :=
  match fuel with
  | O => acc
  | S fuel' =>
      let acc := String (hexdigit (n mod 16)%Z) acc in
      if (n <=? 15)%Z then acc else hex_aux fuel' (n / 16)%Z acc
  end.

Definition appendHex (n : Z) : string :=
  hex_aux (S (Z.to_nat (Z.log2 n))) n EmptyString.

Definition isDigit (c : ascii) : bool :=
  let n := nat_of_ascii c in Nat.leb 48 n && Nat.leb n 57.

(** The loop of [net.dtoi]: decimal digits are accumulated from the start of
    the text; the result is the number, the count of characters used and
    whether it stayed below [0xFFFFFF]. *)
Fixpoint dtoi_loop (s : string) (n : Z) (i : nat) : Z * nat * bool :=
  match s with
  | EmptyString => (n, i, true)
  | String c r =>
      if isDigit c then
        let n := (n * 10 + (Z.of_nat (nat_of_ascii c) - 48))%Z in
        if (16777215 <=? n)%Z then (16777215%Z, i, false)
        else dtoi_loop r n (S i)
      else (n, i, true)
  end.

Definition dtoi (s : string) : Z * nat * bool :=
  let '(n, i, ok) := dtoi_loop s 0%Z O in
  if ok then
    if Nat.eqb i 0 then (0%Z, O, false) else (n, i, true)
  else (n, i, false).

End GoStrings.

(* ================================================================= *)
(** * The part of package [net] used by the expander *)

Module GoNet.

Definition IP := list byte.
Definition IPMask := list byte.

Record IPNet := mkIPNet { net_IP : IP; net_Mask : IPMask }.

Definition IPv4len : nat := 4.
Definition IPv6len : nat := 16.

Definition v4InV6Prefix : list byte := [0; 0; 0; 0; 0; 0; 0; 0; 0; 0; 255; 255].

Definition bytes_eqb (a b : list byte) : bool :=
  if list_eq_dec Z.eq_dec a b then true else false.

Definition allFF (l : list byte) : bool := forallb (Z.eqb 255) l.

(** [IP.To4]: a 4-byte address is returned as it is, a 16-byte address that
    carries the IPv4-in-IPv6 prefix gives its last four bytes, everything
    else gives [nil] (here [None]). *)
Definition To4 (ip : IP) : option IP :=
  if Nat.eqb (length ip) IPv4len then Some ip
  else if Nat.eqb (length ip) IPv6len && bytes_eqb (firstn 12 ip) v4InV6Prefix
       then Some (skipn 12 ip)
       else None.

(** The loop [out[i] = ip[i] & mask[i]] over two slices of one length. *)
Fixpoint and_bytes (ip mask : list byte) : list byte :=
  match ip, mask with
  | b :: ip', m :: mask' => Z.land b m :: and_bytes ip' mask'
  | _, _ => []
  end.

(** [IP.Mask]. A [nil] result is the empty slice. *)
Definition Mask (ip : IP) (mask : IPMask) : IP :=
  let mask :=
    if Nat.eqb (length mask) IPv6len && Nat.eqb (length ip) IPv4len
       && allFF (firstn 12 mask)
    then skipn 12 mask else mask in
  let ip :=
    if Nat.eqb (length mask) IPv4len && Nat.eqb (length ip) IPv6len
       && bytes_eqb (firstn 12 ip) v4InV6Prefix
    then skipn 12 ip else ip in
  if Nat.eqb (length ip) (length mask) then and_bytes ip mask else [].

(** [networkNumberAndMask]; [None] stands for the pair [(nil, nil)]. *)
Definition networkNumberAndMask (n : IPNet) : option (IP * IPMask) :=
  let ipo :=
    match To4 (net_IP n) with
    | Some ip => Some ip
    | None => if Nat.eqb (length (net_IP n)) IPv6len then Some (net_IP n) else None
    end in
  match ipo with
  | None => None
  | Some ip =>
      let m := net_Mask n in
      if Nat.eqb (length m) IPv4len then
        if Nat.eqb (length ip) IPv4len then Some (ip, m) else None
      else if Nat.eqb (length m) IPv6len then
        if Nat.eqb (length ip) IPv4len then Some (ip, skipn 12 m) else Some (ip, m)
      else None
  end.

(** The comparison loop of [Contains]: [nn[i]&m[i] != ip[i]&m[i]] for
    [i < len(ip)], indexing three slices in step. *)
Fixpoint same_under_mask (nn m ip : list byte) : bool :=
  match ip with
  | [] => true
  | b :: ip' =>
      match nn, m with
      | x :: nn', k :: m' =>
          Z.eqb (Z.land x k) (Z.land b k) && same_under_mask nn' m' ip'
      | _, _ => false
      end
  end.

(** [IPNet.Contains]. *)
Definition Contains (n : IPNet) (ip : IP) : bool :=
  let '(nn, m) :=
    match networkNumberAndMask n with
    | Some p => p
    | None => ([], [])
    end in
  let ip := match To4 ip with Some x => x | None => ip end in
  if Nat.eqb (length ip) (length nn) then same_under_mask nn m ip else false.

(** The loop of [CIDRMask] that writes [l] mask bytes with [n] leading ones:
    [0xff] while [n >= 8], then [^byte(0xff >> n)], then zeros. *)
Fixpoint mask_bytes (n : Z) (l : nat) : list byte :=
  match l with
  | O => []
  | S l' =>
      if 8 <=? n then 255 :: mask_bytes (n - 8) l'
      else (255 - Z.shiftr 255 n) :: mask_bytes 0 l'
  end.

(** [CIDRMask ones bits]; [nil] is the empty mask. *)
Definition CIDRMask (ones bits : Z) : IPMask :=
  if negb (Z.eqb bits 32) && negb (Z.eqb bits 128) then []
  else if (ones <? 0) || (bits <? ones) then []
  else mask_bytes ones (Z.to_nat (bits / 8)).

(** ** Addresses of package [net/netip] *)

(** A [netip.Addr]: an IPv4 address, or an IPv6 address with its zone. The
    integer is read modulo [2^32], respectively [2^128]. *)
Inductive Addr :=
| AddrFrom4 (v : Z)
| AddrFrom16 (v : Z) (zone : string).

Definition BitLen (a : Addr) : Z :=
  match a with AddrFrom4 _ => 32 | AddrFrom16 _ _ => 128 end.

Definition Zone (a : Addr) : string :=
  match a with AddrFrom4 _ => EmptyString | AddrFrom16 _ z => z end.

(** [Addr.As16]: the 16-byte form; an IPv4 address is IPv4-mapped. *)
Definition As16 (a : Addr) : IP :=
  match a with
  | AddrFrom4 v => v4InV6Prefix ++ be_bytes 4 v
  | AddrFrom16 v _ => be_bytes 16 v
  end.

Definition str_empty (s : string) : bool :=
  match s with EmptyString => true | _ => false end.

Definition is_dot (c : ascii) : bool := Ascii.eqb c "."%char.
Definition is_colon (c : ascii) : bool := Ascii.eqb c ":"%char.

Definition digit_val (c : ascii) : Z := Z.of_nat (nat_of_ascii c) - 48.

(** The loop of [parseIPv4Fields]: [first] tells that the character is the
    first one, [prevDot] that the one before it was a dot; [fields] are the
    octets already closed by a dot. *)
Fixpoint parseIPv4Fields_loop (s : string) (first prevDot : bool)
  (fields : list byte) (val : Z) (digLen : nat) : option (list byte) :=
  match s with
  | EmptyString =>
      if Nat.ltb (length fields) 3 then None else Some (fields ++ [val])
  | String c r =>
      if GoStrings.isDigit c then
        if Nat.eqb digLen 1 && Z.eqb val 0 then None
        else
          let val := val * 10 + digit_val c in
          if 255 <? val then None
          else parseIPv4Fields_loop r false false fields val (S digLen)
      else if is_dot c then
        if first || str_empty r || prevDot then None
        else if Nat.eqb (length fields) 3 then None
        else parseIPv4Fields_loop r false true (fields ++ [val]) 0 O
      else None
  end.

Definition parseIPv4Fields (s : string) : option (list byte) :=
  parseIPv4Fields_loop s true false [] 0 O.

Definition parseIPv4 (s : string) : option Addr :=
  match parseIPv4Fields s with
  | Some fields => Some (AddrFrom4 (be_val fields))
  | None => None
  end.

Definition hex_val (c : ascii) : option Z :=
  let n := nat_of_ascii c in
  if Nat.leb 48 n && Nat.leb n 57 then Some (Z.of_nat n - 48)
  else if Nat.leb 97 n && Nat.leb n 102 then Some (Z.of_nat n - 87)
  else if Nat.leb 65 n && Nat.leb n 70 then Some (Z.of_nat n - 55)
  else None.

(** The inner loop of [parseIPv6] that reads one group of hexadecimal
    digits: the value, the number of digits and the rest of the text;
    [None] when a fifth digit is met. *)
Fixpoint hex_group (s : string) (acc : Z) (off : nat) : option (Z * nat * string) :=
  match s with
  | EmptyString => Some (acc, off, s)
  | String c r =>
      match hex_val c with
      | Some d =>
          let acc := acc * 16 + d in
          if Nat.ltb 3 off then None
          else if 65535 <? acc then None
          else hex_group r acc (S off)
      | None => Some (acc, off, s)
      end
  end.

(** The main loop of [parseIPv6], one group per turn: [ip] holds the bytes
    written so far ([i] is its length) and [ellipsis] the position of the
    double colon. The result is the bytes, the ellipsis and the text left. *)
Fixpoint parseIPv6_loop (fuel : nat) (s : string) (ip : list byte)
  (ellipsis : option nat) : option (list byte * option nat * string) :=
  match fuel with
  | O => Some (ip, ellipsis, s)
  | S fuel' =>
      if Nat.leb 16 (length ip) then Some (ip, ellipsis, s)
      else
        match hex_group s 0 O with
        | None => None
        | Some (acc, off, rest) =>
            if Nat.eqb off 0 then None
            else
              match rest with
              | String c _ =>
                  if is_dot c then
                    (* trailing dotted-decimal IPv4 *)
                    if (match ellipsis with None => true | Some _ => false end)
                       && negb (Nat.eqb (length ip) 12) then None
                    else if Nat.ltb 16 (length ip + 4) then None
                    else
                      match parseIPv4Fields s with
                      | Some f => Some (ip ++ f, ellipsis, EmptyString)
                      | None => None
                      end
                  else
                    let ip := ip ++ [acc / 256; acc mod 256] in
                    if negb (is_colon c) then None
                    else
                      match rest with
                      | String _ EmptyString => None
                      | String _ (String c2 r2) =>
                          if is_colon c2 then
                            match ellipsis with
                            | Some _ => None
                            | None =>
                                if str_empty r2 then Some (ip, Some (length ip), r2)
                                else parseIPv6_loop fuel' r2 ip (Some (length ip))
                            end
                          else parseIPv6_loop fuel' (String c2 r2) ip ellipsis
                      | EmptyString => None
                      end
              | EmptyString =>
                  Some (ip ++ [acc / 256; acc mod 256], ellipsis, EmptyString)
              end
        end
  end.

(** [parseIPv6]. *)
Definition parseIPv6 (input : string) : option Addr :=
  let '(s, zone, pct) := GoStrings.Cut input "%"%char in
  if pct && str_empty zone then None
  else
    let '(s, ellipsis, only) :=
      match s with
      | String c1 (String c2 r) =>
          if is_colon c1 && is_colon c2 then (r, Some O, str_empty r)
          else (s, None, false)
      | _ => (s, None, false)
      end in
    if only then Some (AddrFrom16 0 zone)
    else
      match parseIPv6_loop 8 s [] ellipsis with
      | None => None
      | Some (ip, ellipsis, rest) =>
          if negb (str_empty rest) then None
          else if Nat.ltb (length ip) 16 then
            match ellipsis with
            | None => None
            | Some e =>
                Some (AddrFrom16
                        (be_val (firstn e ip ++ repeat 0 (16 - length ip) ++ skipn e ip))
                        zone)
            end
          else
            match ellipsis with
            | Some _ => None
            | None => Some (AddrFrom16 (be_val ip) zone)
            end
      end.

(** [netip.ParseAddr]: the first of [.], [:] and [%] in the text selects
    the syntax. *)
Fixpoint ParseAddr_scan (s whole : string) : option Addr :=
  match s with
  | EmptyString => None
  | String c r =>
      if is_dot c then parseIPv4 whole
      else if is_colon c then parseIPv6 whole
      else if Ascii.eqb c "%"%char then None
      else ParseAddr_scan r whole
  end.

Definition ParseAddr (s : string) : option Addr := ParseAddr_scan s s.

(** [net.ParseCIDR]: the address as a 16-byte [IP] and the network it is
    in, or [None] for the error [ParseError{Type: "CIDR address", Text: s}]. *)
Definition ParseCIDR (s : string) : option (IP * IPNet) :=
  let '(addr, mask, found) := GoStrings.Cut s "/"%char in
  if negb found then None
  else
    match ParseAddr addr with
    | None => None
    | Some ipAddr =>
        if negb (str_empty (Zone ipAddr)) then None
        else
          let '(n, i, ok) := GoStrings.dtoi mask in
          if negb ok || negb (Nat.eqb i (String.length mask))
             || (n <? 0) || (BitLen ipAddr <? n) then None
          else
            let m := CIDRMask n (BitLen ipAddr) in
            let addr16 := As16 ipAddr in
            Some (addr16, mkIPNet (Mask addr16 m) m)
    end.

(** [ParseError.Error] of the error above. *)
Definition ParseCIDR_error (s : string) : string :=
  ("invalid CIDR address: " ++ s)%string.

(** ** [IP.String] *)

Definition dotted (p4 : list byte) : string :=
  match p4 with
  | [a; b; c; d] =>
      (GoStrings.uitoa a ++ "." ++ GoStrings.uitoa b ++ "."
       ++ GoStrings.uitoa c ++ "." ++ GoStrings.uitoa d)%string
  | _ => EmptyString
  end.

(** The eight 16-bit fields of a 16-byte address ([v6u16]). *)
Fixpoint fields16 (ip : list byte) : list Z :=
  match ip with
  | a :: b :: r => (a * 256 + b) :: fields16 r
  | _ => []
  end.

Fixpoint zeroRun (l : list Z) : nat :=
  match l with
  | 0 :: r => S (zeroRun r)
  | _ => O
  end.

(** The search for the longest run of at least two zero fields; the first
    one wins a tie. [zs] and [ze] start at 255. *)
Fixpoint longestZeros (l : list Z) (i zs ze : nat) : nat * nat :=
  match l with
  | [] => (zs, ze)
  | _ :: r =>
      let len := zeroRun l in
      if Nat.leb 2 len && Nat.ltb (ze - zs) len
      then longestZeros r (S i) i (i + len)
      else longestZeros r (S i) zs ze
  end.

(** The printing loop of [Addr.string6] from field [i] on. *)
Fixpoint print6 (fuel : nat) (g : list Z) (i zs ze : nat) : string :=
  match fuel with
  | O => EmptyString
  | S fuel' =>
      if Nat.leb 8 i then EmptyString
      else if Nat.eqb i zs then
        ("::" ++ (if Nat.leb 8 ze then EmptyString
                  else GoStrings.appendHex (nth ze g 0)
                       ++ print6 fuel' g (S ze) zs ze))%string
      else
        ((if Nat.ltb 0 i then ":" else "")
         ++ GoStrings.appendHex (nth i g 0) ++ print6 fuel' g (S i) zs ze)%string
  end.

Definition string6 (ip : list byte) : string :=
  let g := fields16 ip in
  let '(zs, ze) := longestZeros g 0 255 255 in
  print6 8 g 0 zs ze.

Definition hexString (ip : list byte) : string :=
  String.concat EmptyString
    (map (fun b => String (GoStrings.hexdigit (b / 16))
                     (String (GoStrings.hexdigit (b mod 16)) EmptyString)) ip).

(** [IP.String]. *)
Definition IP_String (ip : IP) : string :=
  if Nat.eqb (length ip) 0 then "<nil>"%string
  else if negb (Nat.eqb (length ip) IPv4len) && negb (Nat.eqb (length ip) IPv6len)
  then ("?" ++ hexString ip)%string
  else
    match To4 ip with
    | Some p4 => dotted p4
    | None => string6 ip
    end.
End GoNet.

(* ================================================================= *)
(** * The target expander: [incrementIP], [expandCIDR], [readIPs] *)

Module Expander.

Import GoNet.

(** The loop of [incrementIP] seen from the last byte: [ip[j]++] wraps at
    256, and the walk towards the first byte goes on while the byte written
    is zero. *)
Fixpoint carry (l : list byte) : list byte :=
  match l with
  | [] => []
  | b :: r =>
      let b' := (b + 1) mod 256 in
      if 0 <? b' then b' :: r else b' :: carry r
  end.

(** [incrementIP]: [j] runs from [len(ip) - 1] down to 0. *)
Definition incrementIP (ip : IP) : IP := rev (carry (rev ip)).

(** What a call gives: a value, a Go [error] (its text), or no answer
    within the fuel granted to the loops. *)
Inductive outcome (A : Type) :=
| Ok (a : A)
| Error (err : string)
| NoFuel.
Arguments Ok {A} a.
Arguments Error {A} err.
Arguments NoFuel {A}.

(** The [for] loop of [expandCIDR]:
    [for ip := ip.Mask(ipnet.Mask); ipnet.Contains(ip); incrementIP(ip)]
    with body [ips = append(ips, ip.String())]. [None] when the condition is
    still true after [fuel] tests. *)
Fixpoint expand_loop (fuel : nat) (ipnet : IPNet) (ip : IP) (ips : list string)
  : option (list string) :=
  match fuel with
  | O => None
  | S fuel' =>
      if Contains ipnet ip
      then expand_loop fuel' ipnet (incrementIP ip) (ips ++ [IP_String ip])
      else Some ips
  end.

(** [ips[1 : len(ips)-1]]. *)
Definition strip_ends (ips : list string) : list string :=
  firstn (length ips - 2) (skipn 1 ips).

(** [expandCIDR]. *)
Definition expandCIDR (fuel : nat) (cidr : string) : outcome (list string) :=
  match ParseCIDR cidr with
  | None => Error (ParseCIDR_error cidr)
  | Some (ip, ipnet) =>
      match expand_loop fuel ipnet (Mask ip (net_Mask ipnet)) [] with
      | None => NoFuel
      | Some ips =>
          if Nat.ltb 2 (length ips) then Ok (strip_ends ips) else Ok ips
      end
  end.

(** What [os.Open] and the [bufio.Scanner] deliver: the file cannot be
    opened, or it yields lines (the scanner's tokens) and possibly a final
    scanner error. *)
Inductive source :=
| Unreadable (err : string)
| Lines (lines : list string) (scanErr : option string).

(** The message of [fmt.Printf] at the parse error of a CIDR line. *)
Definition parse_msg (line err : string) : string :=
  ("无法解析CIDR " ++ line ++ ": " ++ err ++ GoStrings.nl)%string.

(** The scanning loop of [readIPs]; [out] is what was printed so far. *)
Fixpoint readIPs_loop (fuel : nat) (lines : list string)
  (ips : list string) (out : list string) : option (list string * list string) :=
  match lines with
  | [] => Some (ips, out)
  | text :: rest =>
      let line := GoStrings.TrimSpace text in
      if GoStrings.Contains line "/" then
        match expandCIDR fuel line with
        | NoFuel => None
        | Error err => readIPs_loop fuel rest ips (out ++ [parse_msg line err])
        | Ok expandedIPs => readIPs_loop fuel rest (ips ++ expandedIPs) out
        end
      else readIPs_loop fuel rest (ips ++ [line]) out
  end.

(** [readIPs]: the targets or the error, and the text printed. *)
Definition readIPs (fuel : nat) (file : source)
  : outcome (list string) * list string :=
  match file with
  | Unreadable err => (Error err, [])
  | Lines lines scanErr =>
      match readIPs_loop fuel lines [] [] with
      | None => (NoFuel, [])
      | Some (ips, out) =>
          match scanErr with
          | Some err => (Error err, out)
          | None => (Ok ips, out)
          end
      end
  end.

End Expander.

(* ================================================================= *)
(** * The probe outcome and the result aggregator of [main] *)

Module Aggregator.

Local Open Scope string_scope.

(** [type result struct { ip, latency string; duration time.Duration }];
    a [time.Duration] is a number of nanoseconds. *)
Record result := mkResult { ip : string; latency : string; duration : Z }.

(** What the network gives one call of [ping]: an echo reply from the
    target after [d] nanoseconds, or one of the errors of [ping]. *)
Inductive pong :=
| Echo (d : Z)
| Lost (err : string).

(** The value [ping] returns on an echo reply:
    [strconv.FormatInt(duration.Milliseconds(), 10) + " ms", duration]. *)
Definition ping_latency (d : Z) : string :=
  GoStrings.uitoa (d / 1000000)%Z ++ " ms".

(** What the program does to the outside: lines on standard output, the
    progress line (its numbers come from a counter that is not synchronised
    and are left out), and the calls on the output file. *)
Inductive event :=
| Print (s : string)
| Progress
| Create (name : string) (ok : bool)
| WriteRow (fields : list string)
| Flush
| CloseFile.

Definition esc : string := String (ascii_of_nat 27) EmptyString.

(** The two lines printed when [resultChan] is empty. *)
Definition no_result : list event :=
  [Print (esc ++ "[2J"); Print ("没有发现有效的IP" ++ GoStrings.nl)].

(** The comparison handed to [sort.Slice]. *)
Definition less (a b : result) : bool := (duration a <? duration b)%Z.

(** The inner loop of the library's insertion sort,
    [for j := i; j > a && less(j, j-1); j-- { swap(j, j-1) }]: the element
    [x] at [i] moves left past the elements it is less than. [rp] is the
    sorted prefix, last element first. *)
Fixpoint sink (x : result) (rp : list result) : list result :=
  match rp with
  | [] => [x]
  | y :: rp' => if less x y then y :: sink x rp' else x :: rp
  end.

(** [sort.Slice(results, less)], modelled by the insertion sort that package
    [sort] runs on a slice of at most 12 elements. On a longer slice the
    library sorts with a quicksort variant: the result is a permutation in
    the same order of durations, where elements of equal duration may be
    placed differently. *)
Definition sort_Slice (results : list result) : list result :=
  rev (fold_left (fun rp x => sink x rp) results []).

(** What the operating system answers to [main] after the barrier. *)
Record system := mkSystem {
  create_err : option string;   (* the error of [os.Create] *)
  flush_err : option string;    (* [writer.Error()] after [Flush] *)
  elapsed : Z                   (* [time.Since(startTime)], nanoseconds *)
}.

Definition header : list string := ["IP地址"; "网络延迟"].

(** The code of [main] after [close(resultChan)], on the results received
    from the channel in the order they were sent. *)
Definition report (outFile : string) (sys : system) (collected : list result)
  : list event :=
  if Nat.eqb (length collected) 0 then no_result
  else
    let results := sort_Slice collected in
    match create_err sys with
    | Some err =>
        [Create outFile false; Print ("无法创建文件: " ++ err ++ GoStrings.nl)]
    | None =>
        [Create outFile true; WriteRow header]
        ++ map (fun res => WriteRow [ip res; latency res]) results
        ++ [Flush]
        ++ match flush_err sys with
           | Some err => [Print ("写入CSV文件时出现错误: " ++ err ++ GoStrings.nl)]
           | None =>
               [Print ("成功将结果写入文件 " ++ outFile ++ "，耗时 "
                       ++ GoStrings.uitoa (elapsed sys / 1000000000)%Z ++ "秒"
                       ++ GoStrings.nl)]
           end
        ++ [CloseFile]
  end%list.

End Aggregator.

(* ================================================================= *)
(** * The probe: [ping] *)

Module Prober.

Import Aggregator.
Local Open Scope string_scope.

(** The two address families [ping] chooses between. *)
Inductive family := V4 | V6.

(** The target is probed over IPv6 when its text holds a colon. *)
Definition family_of (ip : string) : family :=
  if GoStrings.Contains ip ":" then V6 else V4.

(** The variable [network] and the address [ping] listens on. *)
Definition icmp_network (f : family) : string :=
  match f with V4 => "ip4:icmp" | V6 => "ip6:ipv6-icmp" end.

Definition wildcard (f : family) : string :=
  match f with V4 => "0.0.0.0" | V6 => "::" end.

(** An [icmp.Type]: an [ipv4.ICMPType] or an [ipv6.ICMPType]. Two types are
    equal when they are of the same package and of the same number. *)
Inductive icmp_type :=
| ICMPv4 (n : Z)
| ICMPv6 (n : Z).

(** [msgType]: [ipv4.ICMPTypeEcho] is 8, [ipv6.ICMPTypeEchoRequest] is 128. *)
Definition msgType (f : family) : icmp_type :=
  match f with V4 => ICMPv4 8 | V6 => ICMPv6 128 end.

(** The type [icmp.ParseMessage(msgType.Protocol(), b)] gives a message
    whose first byte is [n]. *)
Definition parsed_type (f : family) (n : Z) : icmp_type :=
  match f with V4 => ICMPv4 n | V6 => ICMPv6 n end.

(** [case ipv4.ICMPTypeEchoReply, ipv6.ICMPTypeEchoReply]: the numbers 0 of
    package [ipv4] and 129 of package [ipv6]. *)
Definition is_echo_reply (t : icmp_type) : bool :=
  match t with
  | ICMPv4 n => (n =? 0)%Z
  | ICMPv6 n => (n =? 129)%Z
  end.

(** What one successful [conn.ReadFrom] delivers, as far as [ping] looks at
    it: the sender, the time since [start] at which [ping] has it, and what
    [icmp.ParseMessage] makes of the bytes (the type byte of the message, or
    an error). *)
Record datagram := mkDatagram {
  peer : string;
  since : Z;
  parsed : Z + string
}.

(** What the operating system and the network answer to one call of
    [ping]: the errors of [icmp.ListenPacket], [Marshal] and [WriteTo], the
    text of the address [net.ResolveIPAddr] returns or its error, the
    datagrams [ReadFrom] delivers in order, and the error [ReadFrom] returns
    after them (at the read deadline at the latest). *)
Record exchange := mkExchange {
  listen_err : option string;
  marshal_err : option string;
  resolved : string + string;
  write_err : option string;
  arrivals : list datagram;
  read_err : string
}.

(** The calls [ping] makes on the outside; [WriteTo] with the type of the
    message written. *)
Inductive call :=
| ListenPacket (network address : string) (ok : bool)
| ResolveIPAddr (network address : string) (ok : bool)
| WriteTo (type : icmp_type) (dst : string) (ok : bool)
| SetReadDeadline
| ReadFrom (ok : bool)
| Close.

(** The three values [ping] returns. *)
Definition reply := (string * Z * option string)%type.

(** [return "", 0, fmt.Errorf(what + "%v", err)]. *)
Definition failure (what err : string) : reply := ("", 0%Z, Some (what ++ err)).

Section Ping.

(** [String()] of a message type, from the tables of packages [ipv4] and
    [ipv6]. *)
Variable type_name : icmp_type -> string.

(** What [ping] returns on a datagram of the destination. *)
Definition verdict (f : family) (d : datagram) : reply :=
  match parsed d with
  | inr err => failure "解析ICMP回复失败: " err
  | inl n =>
      if is_echo_reply (parsed_type f n)
      then (ping_latency (since d), since d, None)
      else failure "接收到未知的ICMP消息类型: " (type_name (parsed_type f n))
  end.

(** The receive loop: datagrams of other senders are passed over. *)
Fixpoint receive (f : family) (dst : string) (arrivals : list datagram)
  (read_err : string) : reply * list call :=
  match arrivals with
  | [] => (failure "接收ICMP回复失败: " read_err, [ReadFrom false])
  | d :: rest =>
      if String.eqb (peer d) dst then (verdict f d, [ReadFrom true])
      else
        let (r, calls) := receive f dst rest read_err in
        (r, ReadFrom true :: calls)
  end.

(** [ping]: what it returns and the calls it has made. *)
Definition ping (ip : string) (x : exchange) : reply * list call :=
  let f := family_of ip in
  match listen_err x with
  | Some err =>
      (failure "创建ICMP连接失败: " err,
       [ListenPacket (icmp_network f) (wildcard f) false])
  | None =>
      let (r, calls) :=
        match marshal_err x with
        | Some err => (failure "序列化ICMP消息失败: " err, [])
        | None =>
            let ip_network := String.substring 0 3 (icmp_network f) in
            match resolved x with
            | inr err =>
                (failure "解析IP地址失败: " err, [ResolveIPAddr ip_network ip false])
            | inl dst =>
                match write_err x with
                | Some err =>
                    (failure "发送ICMP请求失败: " err,
                     [ResolveIPAddr ip_network ip true; WriteTo (msgType f) dst false])
                | None =>
                    let (r, reads) := receive f dst (arrivals x) (read_err x) in
                    (r, [ResolveIPAddr ip_network ip true;
                         WriteTo (msgType f) dst true; SetReadDeadline] ++ reads)
                end
            end
        end in
      (* [defer conn.Close()] *)
      (r, [ListenPacket (icmp_network f) (wildcard f) true] ++ calls ++ [Close])
  end%list.

(** What the goroutine of [main] makes of the values [ping] returns. *)
Definition outcome_of (r : reply) : pong :=
  match r with
  | (_, d, None) => Echo d
  | (_, _, Some err) => Lost err
  end.

End Ping.

End Prober.

(* ================================================================= *)
(** * The bounded scheduler of [main] *)

Module Scheduler.

Import Aggregator.
Local Open Scope nat_scope.

(** A probe task: its position in the target list and its address. *)
Definition task := (nat * string)%type.

(** Where a goroutine stands: [ping] is running (it may hold an open
    transport), or [ping] has returned and the deferred function is about
    to receive from [sem], or the slot is given back and [wg.Done()] and the
    progress line are next. *)
Inductive phase := Pinging | Deferred | Released.

(** The loop of [main] and its goroutines between [wg.Add] and the end. *)
Record state := mkState {
  pending : list task;             (* targets the loop has not reached *)
  holding : option task;           (* after [sem <- struct{}{}], before [go] *)
  sem : nat;                       (* [len(sem)] *)
  gs : list (task * phase);        (* the goroutines alive *)
  chan : list result;              (* [resultChan], oldest first *)
  wg : nat;                        (* the counter of [wg] *)
  out : list event;                (* what happened outside so far *)
  exited : bool                    (* [main] has returned *)
}.

Fixpoint number_from (i : nat) (ips : list string) : list task :=
  match ips with
  | [] => []
  | x :: r => (i, x) :: number_from (S i) r
  end.

(** After [wg.Add(len(ips))]. *)
Definition init (ips : list string) : state :=
  mkState (number_from 0 ips) None 0 [] [] (length ips) [] false.

Definition ok_msg (addr lat : string) : string :=
  ("Ping " ++ addr ++ " 成功, ICMP网络延迟: " ++ lat ++ GoStrings.nl)%string.

Definition fail_msg (addr err : string) : string :=
  ("Ping " ++ addr ++ " 失败: " ++ err ++ GoStrings.nl)%string.

Section Steps.

(** [*maxThreads], the capacity of [sem]. *)
Variable maxThreads : nat.
(** What the network answers to the probe of each task. *)
Variable net : nat -> pong.
Variable outFile : string.
Variable sys : system.

(** One step of [main] or of one goroutine. *)
Inductive step : state -> state -> Prop :=
| step_acquire t rest s :
    (* [sem <- struct{}{}] goes through when the channel has room *)
    pending s = t :: rest -> holding s = None -> exited s = false ->
    sem s < maxThreads ->
    step s (mkState rest (Some t) (S (sem s)) (gs s) (chan s) (wg s) (out s) false)
| step_go t s :
    (* [go func(ip string) {...}(ip)] *)
    holding s = Some t -> exited s = false ->
    step s (mkState (pending s) None (sem s) (gs s ++ [(t, Pinging)])
                    (chan s) (wg s) (out s) false)
| step_echo i addr d before after s :
    (* [ping] returns a latency: the line is printed, the result is sent *)
    gs s = before ++ ((i, addr), Pinging) :: after -> exited s = false ->
    net i = Echo d ->
    step s (mkState (pending s) (holding s) (sem s)
                    (before ++ ((i, addr), Deferred) :: after)
                    (chan s ++ [mkResult addr (ping_latency d) d]) (wg s)
                    (out s ++ [Print (ok_msg addr (ping_latency d))]) false)
| step_lost i addr err before after s :
    (* [ping] returns an error: the line is printed, nothing is sent *)
    gs s = before ++ ((i, addr), Pinging) :: after -> exited s = false ->
    net i = Lost err ->
    step s (mkState (pending s) (holding s) (sem s)
                    (before ++ ((i, addr), Deferred) :: after)
                    (chan s) (wg s)
                    (out s ++ [Print (fail_msg addr err)]) false)
| step_release t before after s :
    (* the deferred function: [<-sem] *)
    gs s = before ++ (t, Deferred) :: after -> exited s = false ->
    step s (mkState (pending s) (holding s) (pred (sem s))
                    (before ++ (t, Released) :: after)
                    (chan s) (wg s) (out s) false)
| step_done t before after s :
    (* the deferred function: [wg.Done()], [count++], the progress line *)
    gs s = before ++ (t, Released) :: after -> exited s = false ->
    step s (mkState (pending s) (holding s) (sem s) (before ++ after)
                    (chan s) (pred (wg s)) (out s ++ [Progress]) false)
| step_report s :
    (* [wg.Wait()] returns; [close(resultChan)] and the rest of [main] *)
    pending s = [] -> holding s = None -> wg s = 0 -> exited s = false ->
    step s (mkState [] None (sem s) (gs s) (chan s) 0
                    (out s ++ report outFile sys (chan s)) true).

(** The states a run can be in. *)
Inductive reachable (ips : list string) : state -> Prop :=
| reach_init : reachable ips (init ips)
| reach_step s s' : reachable ips s -> step s s' -> reachable ips s'.

(** The probes in flight: the goroutines that have not given their slot
    back. A goroutine holds its transport only while [ping] runs. *)
Definition occupies (g : task * phase) : bool :=
  match snd g with
  | Pinging | Deferred => true
  | Released => false
  end.

Definition in_flight (s : state) : nat := length (filter occupies (gs s)).

Definition with_transport (s : state) : nat :=
  length (filter (fun g => match snd g with Pinging => true | _ => false end) (gs s)).

End Steps.



End Scheduler.

(* ================================================================= *)
(** * Runs of the scheduler, step by step *)

Module Schedule.

Import Aggregator Scheduler.
Local Open Scope nat_scope.

(** Whose turn it is: the loop of [main] ([Acquire], [Go], [Report]) or the
    goroutine at position [k] among the goroutines alive. *)
Inductive choice :=
| Acquire
| Go
| Return (k : nat)
| Release (k : nat)
| Done (k : nat)
| Report.

Section Exec.

Variable maxThreads : nat.
Variable net : nat -> pong.
Variable outFile : string.
Variable sys : system.

Definition replace_at (k : nat) (g : task * phase) (l : list (task * phase)) :=
  firstn k l ++ g :: skipn (S k) l.

(** The step the chosen thread takes, when it can take one. *)
Definition exec1 (c : choice) (s : state) : option state :=
  if exited s then None
  else
    match c with
    | Acquire =>
        match pending s, holding s with
        | t :: rest, None =>
            if Nat.ltb (sem s) maxThreads
            then Some (mkState rest (Some t) (S (sem s)) (gs s) (chan s) (wg s)
                               (out s) false)
            else None
        | _, _ => None
        end
    | Go =>
        match holding s with
        | Some t => Some (mkState (pending s) None (sem s) (gs s ++ [(t, Pinging)])
                                  (chan s) (wg s) (out s) false)
        | None => None
        end
    | Return k =>
        match nth_error (gs s) k with
        | Some ((i, addr), Pinging) =>
            match net i with
            | Echo d =>
                Some (mkState (pending s) (holding s) (sem s)
                        (replace_at k ((i, addr), Deferred) (gs s))
                        (chan s ++ [mkResult addr (ping_latency d) d]) (wg s)
                        (out s ++ [Print (ok_msg addr (ping_latency d))]) false)
            | Lost err =>
                Some (mkState (pending s) (holding s) (sem s)
                        (replace_at k ((i, addr), Deferred) (gs s))
                        (chan s) (wg s)
                        (out s ++ [Print (fail_msg addr err)]) false)
            end
        | _ => None
        end
    | Release k =>
        match nth_error (gs s) k with
        | Some (t, Deferred) =>
            Some (mkState (pending s) (holding s) (pred (sem s))
                    (replace_at k (t, Released) (gs s))
                    (chan s) (wg s) (out s) false)
        | _ => None
        end
    | Done k =>
        match nth_error (gs s) k with
        | Some (t, Released) =>
            Some (mkState (pending s) (holding s) (sem s)
                    (firstn k (gs s) ++ skipn (S k) (gs s))
                    (chan s) (pred (wg s)) (out s ++ [Progress]) false)
        | _ => None
        end
    | Report =>
        match pending s, holding s, wg s with
        | [], None, O =>
            Some (mkState [] None (sem s) (gs s) (chan s) 0
                    (out s ++ report outFile sys (chan s)) true)
        | _, _, _ => None
        end
    end.

(** A run under a given schedule. *)
Fixpoint exec (cs : list choice) (s : state) : option state :=
  match cs with
  | [] => Some s
  | c :: cs' =>
      match exec1 c s with
      | Some s' => exec cs' s'
      | None => None
      end
  end.

End Exec.

End Schedule.

(* ================================================================= *)
(** * The vocabulary of the statements *)

Section Vocabulary.

Import GoNet Expander Aggregator Scheduler Schedule.

(** ** Blocks as ranges of numbers *)

(** The addresses the loop visits: [ip], then its successors. *)
Definition visited (ip : IP) (k : nat) : list IP :=
  map (fun j => Nat.iter j incrementIP ip) (seq 0 k).

(** The number of address bytes the loop of [expandCIDR] works on. *)
Definition addr_len (a : Addr) : nat :=
  match a with AddrFrom4 _ => 4%nat | AddrFrom16 _ _ => 16%nat end.

(** The address as a number. *)
Definition addr_val (a : Addr) : Z :=
  match a with
  | AddrFrom4 v => v mod 2 ^ 32
  | AddrFrom16 v _ => v mod 2 ^ 128
  end.

(** Number of addresses a block of prefix length [p] spans. *)
Definition block_size (a : Addr) (p : Z) : Z := 2 ^ (BitLen a - p).

(** The first address of the block: the low [BitLen a - p] bits cleared. *)
Definition network (a : Addr) (p : Z) : Z :=
  addr_val a / block_size a p * block_size a p.

(** What [ParseCIDR] returns for the address [a] and the prefix length [p]. *)
Definition cidr_block (a : Addr) (p : Z) : IP * IPNet :=
  let m := CIDRMask p (BitLen a) in
  (As16 a, mkIPNet (Mask (As16 a) m) m).

(** The IPv4-mapped IPv6 addresses, [::ffff:0:0/96], as numbers. *)
Definition mapped (w : Z) : bool := w / 2 ^ 32 =? 65535.

(** The first IPv4-mapped address, [::ffff:0.0.0.0]. *)
Definition first_mapped : Z := 65535 * 2 ^ 32.

(** An IPv6 block that is not IPv4-mapped itself but reaches the IPv4-mapped
    range: [Contains] answers no at [::ffff:0.0.0.0], because [To4] turns
    that address into a 4-byte one. *)
Definition meets_mapped (a : Addr) (p : Z) : bool :=
  match a with
  | AddrFrom4 _ => false
  | AddrFrom16 _ _ =>
      negb (mapped (network a p)) && (network a p <=? first_mapped)
      && (first_mapped <? network a p + block_size a p)
  end.

(** How many addresses the loop of [expandCIDR] appends. *)
Definition block_count (a : Addr) (p : Z) : Z :=
  if meets_mapped a p then first_mapped - network a p else block_size a p.

(** The addresses from the network address on, in increasing order. *)
Definition block_addrs (a : Addr) (p : Z) : list IP :=
  map (fun j => be_bytes (addr_len a) (network a p + Z.of_nat j))
      (seq 0 (Z.to_nat (block_count a p))).

(** The blocks on which the loop ends: all but the IPv4 block of prefix
    length 0. *)
Definition finite_block (a : Addr) (p : Z) : bool :=
  match a with
  | AddrFrom4 _ => 1 <=? p
  | AddrFrom16 _ _ => true
  end.

(** ** The order of the report *)

(** Ascending order of round-trip time. *)
Definition by_duration (a b : result) : Prop := duration a <= duration b.

(** The rows a run wrote to the CSV file. *)
Definition rows (evs : list event) : list (list string) :=
  flat_map (fun e => match e with WriteRow f => [f] | _ => [] end) evs.

(** The prefix handled so far, last element first, is in descending order. *)
Definition descending (rp : list result) : Prop :=
  StronglySorted (fun a b => by_duration b a) rp.

(** ** States and events of a run *)

Definition held (s : state) : nat :=
  match holding s with Some _ => 1%nat | None => 0%nat end.

(** What a run keeps true: every token in [sem] belongs to the loop of
    [main] (between its send and its [go]) or to a goroutine that has not
    received from [sem] yet; [sem] never holds more than its capacity; and
    [wg] counts the tasks that have not called [wg.Done()]. *)
Record invariant (maxThreads : nat) (s : state) : Prop := mkInv {
  inv_sem : sem s = (held s + in_flight s)%nat;
  inv_cap : (sem s <= maxThreads)%nat;
  inv_wg : wg s = (length (pending s) + held s + length (gs s))%nat
}.

(** The events on standard output; the others touch the output file. *)
Definition console (e : event) : Prop :=
  match e with
  | Print _ | Progress => True
  | _ => False
  end.

(** What [main] prints and writes after the barrier. *)
Definition summary (outFile : string) (sys : system) (s : state) : list event :=
  report outFile sys (chan s).

(** Before [main] passes the barrier nothing touches the output file; once
    it has returned, the events end with the summary. *)
Definition trace_shape (outFile : string) (sys : system) (s : state) : Prop :=
  if exited s
  then exists before, out s = before ++ summary outFile sys s /\ Forall console before
  else Forall console (out s).



(** ** Schedules and networks of the concrete runs *)

(** The schedule that probes [n] targets one after the other. *)
Fixpoint one_by_one (n : nat) : list choice :=
  match n with
  | O => [Report]
  | S n' => [Acquire; Go; Return 0; Release 0; Done 0] ++ one_by_one n'
  end.

(** A network on which every probe times out. *)
Definition all_lost (i : nat) : pong := Lost "timeout".

(** A network on which every probe is answered after 5 milliseconds. *)
Definition all_5ms (i : nat) : pong := Echo 5000000.

(** An operating system that creates and writes the file; the run took
    two seconds. *)
Definition quiet_system : system := mkSystem None None 2000000000.

(** ** The books of a run *)

(** The goroutines whose [ping] is running. *)
Definition pinging (g : task * phase) : bool :=
  match snd g with Pinging => true | _ => false end.

(** The task between [sem <- struct{}{}] and [go], with the tasks the loop
    has not reached: the targets that are not dispatched yet. *)
Definition waiting (s : state) : list task :=
  match holding s with Some t => [t] | None => [] end ++ pending s.

(** The tasks whose [ping] has not returned. *)
Definition unreturned (s : state) : list task :=
  map fst (filter pinging (gs s)) ++ waiting s.

(** What the goroutine of a task sends on [resultChan]. *)
Definition sent (net : nat -> pong) (t : task) : list result :=
  match net (fst t) with
  | Echo d => [mkResult (snd t) (ping_latency d) d]
  | Lost _ => []
  end.

(** The line the goroutine of a task prints when [ping] has returned. *)
Definition line (net : nat -> pong) (t : task) : event :=
  match net (fst t) with
  | Echo d => Print (ok_msg (snd t) (ping_latency d))
  | Lost err => Print (fail_msg (snd t) err)
  end.

(** The results of all answered probes, in the order of the target list. *)
Definition successes (net : nat -> pong) (ips : list string) : list result :=
  flat_map (sent net) (number_from 0 ips).

(** What is kept true of the channel and of the console: the results sent
    and those to come are the results of the answered probes; the lines
    printed before the summary, those to come and one progress line for each
    task [wg] still counts are one line and one progress line per target. *)
Record books (net : nat -> pong) (outFile : string) (sys : system)
  (ips : list string) (s : state) : Prop := mkBooks {
  books_chan :
    Permutation (chan s ++ flat_map (sent net) (unreturned s)) (successes net ips);
  books_out :
    exists o,
      out s = o ++ (if exited s then summary outFile sys s else [])
      /\ Permutation (o ++ map (line net) (unreturned s) ++ repeat Progress (wg s))
           (map (line net) (number_from 0 ips) ++ repeat Progress (length ips))
}.

(** The goroutines are started in the order of the target list: the
    targets not dispatched yet are what is left of the list, and every
    goroutine alive runs a target taken before them. *)
Definition in_order (ips : list string) (s : state) : Prop :=
  exists dispatched,
    number_from 0 ips = dispatched ++ waiting s
    /\ forall g, In g (gs s) -> In (fst g) dispatched.

(** ** A run in which every goroutine is alive at once *)

(** The schedule that starts [n] goroutines one after the other, the first
    of them at position [k] among the goroutines alive: each one is left
    when it has given its slot back, before [wg.Done()]. *)
Fixpoint burst (k n : nat) : list choice :=
  match n with
  | O => []
  | S n' => [Acquire; Go; Return k; Release k] ++ burst (S k) n'
  end.

(** A goroutine that has given its slot back. *)
Definition released (g : task * phase) : Prop := snd g = Released.

(** ** The length of a run *)

(** The steps a goroutine still has to take: the return of [ping], the
    receive from [sem], and [wg.Done()] with the progress line. *)
Definition steps_left (g : task * phase) : nat :=
  match snd g with
  | Pinging => 3%nat
  | Deferred => 2%nat
  | Released => 1%nat
  end.

(** The steps a run still has to take: five for a target the loop has not
    reached (the send on [sem] and [go] come first), four for the target
    being dispatched, those of the goroutines alive, and the report. *)
Definition work_left (s : state) : nat :=
  (5 * length (pending s) + 4 * held s + list_sum (map steps_left (gs s))
   + (if exited s then 0 else 1))%nat.

(** The states a run is in after a given number of steps. *)
Inductive run_of (maxThreads : nat) (net : nat -> pong) (outFile : string)
  (sys : system) (ips : list string) : nat -> state -> Prop :=
| run_init : run_of maxThreads net outFile sys ips O (init ips)
| run_step k s s' :
    run_of maxThreads net outFile sys ips k s ->
    step maxThreads net outFile sys s s' ->
    run_of maxThreads net outFile sys ips (S k) s'.

(** ** The text of an IPv4 address *)

(** The decimal text of a byte, by its number of digits. *)
Definition byte_text (x : Z) : string :=
  let d := GoStrings.digit in
  if x <? 10 then String (d x) EmptyString
  else if x <? 100 then String (d (x / 10)) (String (d (x mod 10)) EmptyString)
  else String (d (x / 100))
         (String (d (x / 10 mod 10)) (String (d (x mod 10)) EmptyString)).

(** ** The lines of a target list *)

(** A line [readIPs] hands to [expandCIDR] and that is not a CIDR block. *)
Definition rejected (line : string) : bool :=
  GoStrings.Contains line "/"
  && match ParseCIDR line with None => true | Some _ => false end.

(** An exchange in which the destination [dst] answers the echo request
    after [d] nanoseconds, behind the datagrams [strays] of other senders. *)
Definition answered (f : Prober.family) (dst : string) (strays : list Prober.datagram)
  (d : Z) : Prober.exchange :=
  Prober.mkExchange None None (inl dst) None
    (strays ++ [Prober.mkDatagram dst d
                  (inl (match f with Prober.V4 => 0 | Prober.V6 => 129 end))])
    "i/o timeout".

(** The names of the message types a test needs. *)
Definition some_names (t : Prober.icmp_type) : string :=
  match t with
  | Prober.ICMPv4 0 => "echo reply"
  | Prober.ICMPv4 3 => "destination unreachable"
  | Prober.ICMPv4 8 => "echo"
  | Prober.ICMPv4 11 => "time exceeded"
  | _ => "<nil>"
  end.


(** An exchange in which the destination is the host itself: a datagram of
    another host, then an echo request that bears the address of the
    destination (the request the host has sent to itself), then the echo
    reply. *)
Definition loopback : Prober.exchange :=
  Prober.mkExchange None None (inl "127.0.0.1"%string) None
    [Prober.mkDatagram "10.0.0.9" 100000 (inl 0);
     Prober.mkDatagram "127.0.0.1" 200000 (inl 8);
     Prober.mkDatagram "127.0.0.1" 300000 (inl 0)]
    "i/o timeout".

(** An exchange in which only another host is heard before the deadline. *)
Definition unanswered : Prober.exchange :=
  Prober.mkExchange None None (inl "10.0.0.1"%string) None
    [Prober.mkDatagram "10.0.0.9" 100000 (inl 0)]
    "i/o timeout".

(** Three targets; the first answers after 30 ms, the second is lost, the
    third answers after 10 ms. *)
Definition three_targets : list string := ["10.0.0.1"; "10.0.0.2"; "10.0.0.3"]%string.

Definition mixed_net (i : nat) : pong :=
  match i with
  | O => Echo 30000000
  | S O => Lost "timeout"
  | _ => Echo 10000000
  end.

(** A schedule of three targets under two slots: the second probe returns
    first and frees the slot the third target takes, then the first and the
    third probe return. *)
Definition overlapping : list choice :=
  [Acquire; Go; Acquire; Go; Return 1; Release 1; Done 1; Acquire; Go;
   Return 0; Return 1; Release 0; Release 1; Done 0; Done 0; Report].

End Vocabulary.

(* ================================================================= *)
(** * The model on concrete inputs *)

Example TrimSpace_ex1 :
  GoStrings.TrimSpace " 10.0.0.1	 "%string = "10.0.0.1"%string.
Proof. reflexivity. Qed.

Example TrimSpace_ex2 :
  GoStrings.TrimSpace (GoStrings.str_of_bytes [32; 194; 160; 226; 128; 131]%nat)
  = EmptyString.
Proof. reflexivity. Qed.

Example uitoa_ex : GoStrings.uitoa 192 = "192"%string /\ GoStrings.uitoa 0 = "0"%string
  /\ GoStrings.appendHex 65535 = "ffff"%string /\ GoStrings.appendHex 2561 = "a01"%string.
Proof. repeat split; vm_compute; reflexivity. Qed.

Example Cut_ex : GoStrings.Cut "10.0.0.0/abc"%string "/"%char
  = ("10.0.0.0"%string, "abc"%string, true).
Proof. reflexivity. Qed.

Example dtoi_ex : GoStrings.dtoi "024"%string = (24, 3%nat, true)
  /\ GoStrings.dtoi "abc"%string = (0, 0%nat, false)
  /\ GoStrings.dtoi "3x"%string = (3, 1%nat, true).
Proof. repeat split; reflexivity. Qed.

Example ParseCIDR_ex1 :
  GoNet.ParseCIDR "192.168.1.5/24"%string
  = Some ([0;0;0;0;0;0;0;0;0;0;255;255;192;168;1;5],
          GoNet.mkIPNet [192;168;1;0] [255;255;255;0]).
Proof. vm_compute. reflexivity. Qed.

Example ParseCIDR_ex2 : GoNet.ParseCIDR "10.0.0.0/abc"%string = None.
Proof. vm_compute. reflexivity. Qed.

Example ParseCIDR_ex3 :
  GoNet.ParseCIDR "2001:db8::1/126"%string
  = Some ([32;1;13;184;0;0;0;0;0;0;0;0;0;0;0;1],
          GoNet.mkIPNet [32;1;13;184;0;0;0;0;0;0;0;0;0;0;0;0]
            [255;255;255;255;255;255;255;255;255;255;255;255;255;255;255;252]).
Proof. vm_compute. reflexivity. Qed.

Example ParseCIDR_ex4 :
  GoNet.ParseCIDR "::/0"%string
  = Some (repeat 0 16, GoNet.mkIPNet (repeat 0 16) (repeat 0 16)).
Proof. vm_compute. reflexivity. Qed.

Example ParseCIDR_ex5 :
  GoNet.ParseCIDR "::ffff:10.1.2.3/120"%string
  = Some ([0;0;0;0;0;0;0;0;0;0;255;255;10;1;2;3],
          GoNet.mkIPNet [0;0;0;0;0;0;0;0;0;0;255;255;10;1;2;0]
            (repeat 255 15 ++ [0])).
Proof. vm_compute. reflexivity. Qed.

Example ParseCIDR_rejects :
  map GoNet.ParseCIDR
    ["1.2.3/24"; "1.2.3.4/33"; "1.2.3.4/"; "1.2.3.04/8"; "1.2.3.4/-1";
     "fe80::1%eth0/64"; "1::2::3/64"; "12345::/16"; "/24"; "1.2.3.4"]%string
  = repeat None 10.
Proof. vm_compute. reflexivity. Qed.

Example IP_String_ex :
  map GoNet.IP_String
    [[192;168;1;1]; [0;0;0;0;0;0;0;0;0;0;255;255;10;1;2;3];
     [32;1;13;184;0;0;0;0;0;0;0;0;0;0;0;1]; repeat 0 16;
     [32;1;0;0;0;0;0;1;0;0;0;0;0;0;0;1]]
  = ["192.168.1.1"; "10.1.2.3"; "2001:db8::1"; "::"; "2001:0:0:1::1"]%string.
Proof. vm_compute. reflexivity. Qed.

Example incrementIP_ex :
  Expander.incrementIP [10; 0; 255; 255] = [10; 1; 0; 0]
  /\ Expander.incrementIP [255; 255; 255; 255] = [0; 0; 0; 0].
Proof. split; reflexivity. Qed.

(** Expansion of [192.168.1.0/30] yields exactly 192.168.1.1 and
    192.168.1.2. *)
Example expandCIDR_slash30 :
  Expander.expandCIDR 10 "192.168.1.0/30"
  = Expander.Ok ["192.168.1.1"; "192.168.1.2"]%string.
Proof. vm_compute. reflexivity. Qed.

Example expandCIDR_slash31 :
  Expander.expandCIDR 10 "192.168.1.7/31"
  = Expander.Ok ["192.168.1.6"; "192.168.1.7"]%string.
Proof. vm_compute. reflexivity. Qed.

Example expandCIDR_v6 :
  Expander.expandCIDR 10 "2001:db8::fffd/126"
  = Expander.Ok ["2001:db8::fffd"; "2001:db8::fffe"]%string.
Proof. vm_compute. reflexivity. Qed.

Example readIPs_ex :
  Expander.readIPs 10
    (Expander.Lines [" 8.8.8.8 "; "10.0.0.0/abc"; ""; "10.0.0.0/30"]%string None)
  = (Expander.Ok ["8.8.8.8"; ""; "10.0.0.1"; "10.0.0.2"]%string,
     [Expander.parse_msg "10.0.0.0/abc" "invalid CIDR address: 10.0.0.0/abc"]).
Proof. vm_compute. reflexivity. Qed.

(* ================================================================= *)
(** * Byte strings as numbers *)

Section ByteStrings.

Lemma pow256_pos (n : nat) : 0 < 256 ^ Z.of_nat n.
Proof. apply Z.pow_pos_nonneg; lia. Qed.

Lemma pow256_succ (n : nat) : 256 ^ Z.of_nat (S n) = 256 * 256 ^ Z.of_nat n.
Proof. rewrite Nat2Z.inj_succ, Z.pow_succ_r; lia. Qed.

Lemma pow256_two (n : nat) : 256 ^ Z.of_nat n = 2 ^ (8 * Z.of_nat n).
Proof. rewrite Z.pow_mul_r by lia. reflexivity. Qed.

Lemma le_bytes_length (n : nat) (v : Z) : length (le_bytes n v) = n.
Proof. revert v; induction n as [|n IH]; intro v; simpl; [|rewrite IH]; reflexivity. Qed.

Lemma le_bytes_ok (n : nat) (v : Z) : bytes_ok (le_bytes n v).
Proof.
  revert v; induction n as [|n IH]; intro v; simpl; constructor.
  - unfold is_byte. apply Z.mod_pos_bound. lia.
  - apply IH.
Qed.

Lemma le_val_range (l : list byte) :
  bytes_ok l -> 0 <= le_val l < 256 ^ Z.of_nat (length l).
Proof.
  induction 1 as [|b r Hb _ IH]; simpl length.
  - simpl. lia.
  - rewrite pow256_succ. unfold is_byte in Hb. cbn [le_val]. lia.
Qed.

Lemma le_val_le_bytes (n : nat) (v : Z) :
  le_val (le_bytes n v) = v mod 256 ^ Z.of_nat n.
Proof.
  revert v; induction n as [|n IH]; intro v.
  - cbn [le_bytes le_val]. rewrite Z.mod_1_r. reflexivity.
  - cbn [le_bytes]. cbn [le_val]. rewrite IH, pow256_succ.
    rewrite Z.rem_mul_r by (pose proof (pow256_pos n); lia). reflexivity.
Qed.

Lemma le_bytes_le_val (l : list byte) :
  bytes_ok l -> le_bytes (length l) (le_val l) = l.
Proof.
  induction 1 as [|b r Hb _ IH]; cbn [le_val le_bytes length]; [reflexivity|].
  unfold is_byte in Hb.
  replace ((b + 256 * le_val r) mod 256) with b
    by (apply Z.mod_unique with (le_val r); lia).
  replace ((b + 256 * le_val r) / 256) with (le_val r)
    by (apply Z.div_unique with b; lia).
  rewrite IH. reflexivity.
Qed.

Lemma le_bytes_mod (n : nat) (v : Z) :
  le_bytes n (v mod 256 ^ Z.of_nat n) = le_bytes n v.
Proof.
  rewrite <- le_val_le_bytes.
  rewrite <- (le_bytes_length n v) at 1.
  apply le_bytes_le_val, le_bytes_ok.
Qed.

Lemma le_val_app (a b : list byte) :
  le_val (a ++ b) = le_val a + 256 ^ Z.of_nat (length a) * le_val b.
Proof.
  induction a as [|x a IH]; simpl app; simpl length.
  - cbn [le_val]. change (Z.of_nat 0) with 0. rewrite Z.pow_0_r. lia.
  - rewrite pow256_succ. cbn [le_val]. rewrite IH. ring.
Qed.

Lemma le_bytes_app (n m : nat) (v : Z) :
  le_bytes (n + m) v = le_bytes n v ++ le_bytes m (v / 256 ^ Z.of_nat n).
Proof.
  revert v; induction n as [|n IH]; intro v.
  - cbn [le_bytes Nat.add app]. rewrite Z.div_1_r. reflexivity.
  - cbn [Nat.add le_bytes app]. rewrite IH.
    rewrite pow256_succ, <- Z.div_div by (pose proof (pow256_pos n); lia).
    reflexivity.
Qed.

(** ** Network order *)

Lemma be_bytes_length (n : nat) (v : Z) : length (be_bytes n v) = n.
Proof. unfold be_bytes. rewrite length_rev. apply le_bytes_length. Qed.

Lemma be_bytes_ok (n : nat) (v : Z) : bytes_ok (be_bytes n v).
Proof.
  unfold be_bytes, bytes_ok. apply Forall_rev. apply le_bytes_ok.
Qed.

Lemma be_val_be_bytes (n : nat) (v : Z) :
  be_val (be_bytes n v) = v mod 256 ^ Z.of_nat n.
Proof. unfold be_val, be_bytes. rewrite rev_involutive. apply le_val_le_bytes. Qed.

Lemma be_bytes_be_val (l : list byte) :
  bytes_ok l -> be_bytes (length l) (be_val l) = l.
Proof.
  intro H. unfold be_val, be_bytes.
  rewrite <- (length_rev l), le_bytes_le_val, rev_involutive; [reflexivity|].
  apply Forall_rev, H.
Qed.

Lemma be_bytes_mod (n : nat) (v : Z) :
  be_bytes n (v mod 256 ^ Z.of_nat n) = be_bytes n v.
Proof. unfold be_bytes. rewrite le_bytes_mod. reflexivity. Qed.

Lemma be_val_range (l : list byte) :
  bytes_ok l -> 0 <= be_val l < 256 ^ Z.of_nat (length l).
Proof.
  intro H. unfold be_val. rewrite <- (length_rev l).
  apply le_val_range, Forall_rev, H.
Qed.

Lemma be_val_cons (b : byte) (r : list byte) :
  be_val (b :: r) = b * 256 ^ Z.of_nat (length r) + be_val r.
Proof.
  unfold be_val. simpl rev. rewrite le_val_app, length_rev. simpl. lia.
Qed.

Lemma be_bytes_eq_iff (n : nat) (v w : Z) :
  be_bytes n v = be_bytes n w <-> v mod 256 ^ Z.of_nat n = w mod 256 ^ Z.of_nat n.
Proof.
  split; intro H.
  - rewrite <- !be_val_be_bytes, H. reflexivity.
  - rewrite <- (be_bytes_mod n v), <- (be_bytes_mod n w), H. reflexivity.
Qed.

(** The first [n] of [n + m] bytes hold the value shifted by [m] bytes, the
    last [m] bytes the value itself. *)
Lemma be_bytes_app (n m : nat) (v : Z) :
  be_bytes (n + m) v = be_bytes n (v / 256 ^ Z.of_nat m) ++ be_bytes m v.
Proof.
  unfold be_bytes. rewrite Nat.add_comm, le_bytes_app, rev_app_distr. reflexivity.
Qed.

Lemma firstn_be_bytes (n m : nat) (v : Z) :
  firstn n (be_bytes (n + m) v) = be_bytes n (v / 256 ^ Z.of_nat m).
Proof.
  rewrite be_bytes_app.
  rewrite <- (be_bytes_length n (v / 256 ^ Z.of_nat m)) at 1.
  rewrite firstn_app, Nat.sub_diag, firstn_all. simpl. apply app_nil_r.
Qed.

Lemma skipn_be_bytes (n m : nat) (v : Z) :
  skipn n (be_bytes (n + m) v) = be_bytes m v.
Proof.
  rewrite be_bytes_app.
  rewrite <- (be_bytes_length n (v / 256 ^ Z.of_nat m)) at 1.
  rewrite skipn_app, Nat.sub_diag, skipn_all. reflexivity.
Qed.

End ByteStrings.

(* ================================================================= *)
(** * [incrementIP] adds one *)

Section Increment.

Import GoNet Expander.

Lemma carry_le_bytes (l : list byte) :
  bytes_ok l -> carry l = le_bytes (length l) (le_val l + 1).
Proof.
  induction 1 as [|b r Hb Hr IH]; [reflexivity|].
  unfold is_byte in Hb. cbn [carry le_val length le_bytes].
  assert (Hq : (b + 256 * le_val r + 1) mod 256 = (b + 1) mod 256).
  { replace (b + 256 * le_val r + 1) with (b + 1 + le_val r * 256) by ring.
    apply Z.mod_add. lia. }
  rewrite Hq.
  destruct (Z.eq_dec b 255) as [->|Hne].
  - change ((255 + 1) mod 256) with 0. cbn [Z.ltb Z.compare].
    rewrite IH. do 2 f_equal.
    apply Z.div_unique with 0; lia.
  - rewrite Z.mod_small by lia.
    destruct (0 <? b + 1) eqn:E; [|apply Z.ltb_ge in E; lia].
    f_equal.
    replace ((b + 256 * le_val r + 1) / 256) with (le_val r)
      by (apply Z.div_unique with (b + 1); lia).
    symmetry. apply le_bytes_le_val. assumption.
Qed.

(** One step of the enumeration: the address read as a big-endian number
    grows by one, wrapping at [256 ^ len(ip)]. *)
Lemma incrementIP_be_bytes (ip : IP) :
  bytes_ok ip -> incrementIP ip = be_bytes (length ip) (be_val ip + 1).
Proof.
  intro H. unfold incrementIP, be_bytes, be_val.
  rewrite carry_le_bytes by (apply Forall_rev, H).
  rewrite length_rev. reflexivity.
Qed.

Lemma incrementIP_length (ip : IP) : bytes_ok ip -> length (incrementIP ip) = length ip.
Proof. intro H. rewrite incrementIP_be_bytes by assumption. apply be_bytes_length. Qed.

Lemma incrementIP_ok (ip : IP) : bytes_ok ip -> bytes_ok (incrementIP ip).
Proof. intro H. rewrite incrementIP_be_bytes by assumption. apply be_bytes_ok. Qed.

Lemma incrementIP_val (ip : IP) :
  bytes_ok ip ->
  be_val (incrementIP ip) = (be_val ip + 1) mod 256 ^ Z.of_nat (length ip).
Proof.
  intro H. rewrite incrementIP_be_bytes by assumption. apply be_val_be_bytes.
Qed.

Lemma iter_O (ip : IP) : Nat.iter 0 incrementIP ip = ip.
Proof. reflexivity. Qed.

Lemma iter_S (k : nat) (ip : IP) :
  Nat.iter (S k) incrementIP ip = incrementIP (Nat.iter k incrementIP ip).
Proof. reflexivity. Qed.

(** [k] steps from the address of value [v]. *)
Lemma incrementIP_iter (n k : nat) (v : Z) :
  Nat.iter k incrementIP (be_bytes n v) = be_bytes n (v + Z.of_nat k).
Proof.
  induction k as [|k IH].
  - rewrite iter_O. f_equal. lia.
  - rewrite iter_S, IH.
    rewrite incrementIP_be_bytes by apply be_bytes_ok.
    rewrite be_bytes_length, be_val_be_bytes.
    apply be_bytes_eq_iff.
    rewrite Zplus_mod_idemp_l. f_equal. lia.
Qed.

End Increment.

(* ================================================================= *)
(** * The enumeration loop, seen as iteration *)

Section Loop.

Import GoNet Expander.

Variable ipnet : IPNet.

Lemma iter_shift (j : nat) (ip : IP) :
  Nat.iter j incrementIP (incrementIP ip) = Nat.iter (S j) incrementIP ip.
Proof. induction j as [|j IH]; [reflexivity|]. rewrite iter_S, IH. reflexivity. Qed.

Lemma visited_S (ip : IP) (k : nat) :
  visited ip (S k) = ip :: visited (incrementIP ip) k.
Proof.
  unfold visited. cbn [seq map]. rewrite iter_O. f_equal.
  rewrite <- seq_shift, map_map. apply map_ext. intro j. symmetry. apply iter_shift.
Qed.

(** If the test holds at the first [k] addresses and fails at the next one,
    the loop ends there, whatever fuel beyond [k] it is given. *)
Lemma expand_loop_stops (k : nat) : forall (fuel : nat) (ip : IP) (ips : list string),
  (forall j, (j < k)%nat -> Contains ipnet (Nat.iter j incrementIP ip) = true) ->
  Contains ipnet (Nat.iter k incrementIP ip) = false ->
  (k < fuel)%nat ->
  expand_loop fuel ipnet ip ips = Some (ips ++ map IP_String (visited ip k)).
Proof.
  induction k as [|k IH]; intros fuel ip ips Hin Hout Hfuel.
  - destruct fuel as [|fuel]; [lia|]. cbn [expand_loop].
    rewrite iter_O in Hout. rewrite Hout. cbn. rewrite app_nil_r. reflexivity.
  - destruct fuel as [|fuel]; [lia|]. cbn [expand_loop].
    pose proof (Hin O ltac:(lia)) as H0. rewrite iter_O in H0. rewrite H0.
    rewrite IH; [| | |lia].
    + rewrite visited_S. cbn [map]. rewrite <- app_assoc. reflexivity.
    + intros j Hj. rewrite iter_shift. apply Hin. lia.
    + rewrite iter_shift. exact Hout.
Qed.

(** If the test holds at every address the loop reaches, no fuel suffices. *)
Lemma expand_loop_runs (fuel : nat) : forall (ip : IP) (ips : list string),
  (forall j, Contains ipnet (Nat.iter j incrementIP ip) = true) ->
  expand_loop fuel ipnet ip ips = None.
Proof.
  induction fuel as [|fuel IH]; intros ip ips H; [reflexivity|].
  cbn [expand_loop]. pose proof (H O) as H0. rewrite iter_O in H0. rewrite H0.
  apply IH.
  intro j. rewrite iter_shift. apply H.
Qed.

(** Conversely a loop that ends has met an address outside the network. *)
Lemma expand_loop_inv (fuel : nat) : forall (ip : IP) (ips res : list string),
  expand_loop fuel ipnet ip ips = Some res ->
  exists k, (k < fuel)%nat
    /\ (forall j, (j < k)%nat -> Contains ipnet (Nat.iter j incrementIP ip) = true)
    /\ Contains ipnet (Nat.iter k incrementIP ip) = false
    /\ res = ips ++ map IP_String (visited ip k).
Proof.
  induction fuel as [|fuel IH]; intros ip ips res H; [discriminate|].
  cbn [expand_loop] in H. destruct (Contains ipnet ip) eqn:E.
  - apply IH in H. destruct H as (k & Hk & Hin & Hout & ->).
    exists (S k). repeat split.
    + lia.
    + intros [|j] Hj; [exact E|]. rewrite <- iter_shift. apply Hin. lia.
    + rewrite <- iter_shift. exact Hout.
    + rewrite visited_S. cbn [map]. rewrite <- app_assoc. reflexivity.
  - injection H as <-. exists O. repeat split.
    + lia.
    + intros j Hj. lia.
    + exact E.
    + cbn. rewrite app_nil_r. reflexivity.
Qed.

(** More fuel does not change a result. *)
Lemma expand_loop_more (fuel fuel' : nat) (ip : IP) (ips res : list string) :
  expand_loop fuel ipnet ip ips = Some res -> (fuel <= fuel')%nat ->
  expand_loop fuel' ipnet ip ips = Some res.
Proof.
  intros H Hle. apply expand_loop_inv in H.
  destruct H as (k & Hk & Hin & Hout & ->).
  apply expand_loop_stops; [assumption|assumption|lia].
Qed.

End Loop.

(* ================================================================= *)
(** * Masks keep the leading bits *)

Section Masks.

Import GoNet.

Lemma byte_forall (f : Z -> bool) :
  forallb f (map Z.of_nat (seq 0 256)) = true ->
  forall x, is_byte x -> f x = true.
Proof.
  intros H x Hx. rewrite forallb_forall in H. apply H.
  apply in_map_iff. exists (Z.to_nat x). unfold is_byte in Hx. split; [lia|].
  apply in_seq. lia.
Qed.

Lemma land_full (x : Z) : is_byte x -> Z.land x 255 = x.
Proof.
  intro Hx. apply Z.eqb_eq.
  apply (byte_forall (fun x => Z.land x 255 =? x)); [vm_compute; reflexivity|assumption].
Qed.

(** The mask byte [^byte(0xff >> n)] keeps the [n] leading bits of a byte. *)
Lemma land_partial (n x : Z) :
  0 <= n < 8 -> is_byte x ->
  Z.land x (255 - Z.shiftr 255 n) = x / 2 ^ (8 - n) * 2 ^ (8 - n).
Proof.
  intros Hn Hx. apply Z.eqb_eq.
  assert (Hc : n = 0 \/ n = 1 \/ n = 2 \/ n = 3 \/ n = 4 \/ n = 5 \/ n = 6 \/ n = 7) by lia.
  revert x Hx.
  repeat (destruct Hc as [->|Hc]; [apply byte_forall; vm_compute; reflexivity|]).
  subst n. apply byte_forall. vm_compute. reflexivity.
Qed.

Lemma mask_bytes_length (l : nat) : forall p, length (mask_bytes p l) = l.
Proof.
  induction l as [|l IH]; intro p; [reflexivity|].
  cbn [mask_bytes]. destruct (8 <=? p); cbn [length]; rewrite IH; reflexivity.
Qed.

(** Masking the address [a] of [l] bytes with the mask of [p] leading ones
    clears the [8 l - p] low bits of its value. *)
Lemma and_bytes_mask (l : nat) : forall (p : Z) (a : list byte),
  bytes_ok a -> length a = l -> 0 <= p <= 8 * Z.of_nat l ->
  and_bytes a (mask_bytes p l)
  = be_bytes l (be_val a / 2 ^ (8 * Z.of_nat l - p) * 2 ^ (8 * Z.of_nat l - p)).
Proof.
  induction l as [|l IH]; intros p a Ha Hl Hp.
  - destruct a; [reflexivity|discriminate].
  - destruct a as [|x a]; [discriminate|].
    injection Hl as Hl. inversion Ha as [|? ? Hx Ha']; subst.
    set (l := length a) in *.
    pose proof (be_val_range a Ha') as Hv. fold l in Hv.
    set (va := be_val a) in *. set (Q := 256 ^ Z.of_nat l) in *.
    assert (HQ : 0 < Q) by apply pow256_pos.
    assert (HQ2 : Q = 2 ^ (8 * Z.of_nat l)) by apply pow256_two.
    rewrite be_val_cons. fold l va Q.
    change (be_bytes (S l)) with (be_bytes (1 + l)). rewrite be_bytes_app. fold Q.
    cbn [mask_bytes]. unfold is_byte in Hx.
    replace (8 * Z.of_nat (S l)) with (8 * Z.of_nat l + 8) in * by lia.
    destruct (8 <=? p) eqn:E.
    + apply Z.leb_le in E. cbn [and_bytes].
      rewrite land_full by assumption.
      rewrite IH by (assumption || reflexivity || lia). fold va.
      replace (8 * Z.of_nat l - (p - 8)) with (8 * Z.of_nat l + 8 - p) by lia.
      set (h := 8 * Z.of_nat l + 8 - p).
      assert (Hh : 0 <= h <= 8 * Z.of_nat l) by (unfold h; lia).
      set (d := 2 ^ h). assert (Hd : 0 < d) by (apply Z.pow_pos_nonneg; lia).
      set (R := 2 ^ (8 * Z.of_nat l - h)).
      assert (HR : 0 < R) by (apply Z.pow_pos_nonneg; lia).
      assert (HQR : Q = R * d).
      { rewrite HQ2. unfold R, d. rewrite <- Z.pow_add_r by lia. f_equal. lia. }
      assert (Hq : (x * Q + va) / d = x * R + va / d).
      { rewrite HQR. replace (x * (R * d) + va) with (x * R * d + va) by ring.
        apply Z.div_add_l. lia. }
      rewrite Hq.
      pose proof (Z.mul_div_le va d Hd) as Hle.
      pose proof (Z.div_pos va d ltac:(lia) Hd) as Hpos.
      assert (Hw : (x * R + va / d) * d = x * Q + va / d * d) by (rewrite HQR; ring).
      rewrite Hw.
      assert (H1 : (x * Q + va / d * d) / Q = x).
      { symmetry. apply Z.div_unique with (va / d * d); nia. }
      rewrite H1.
      replace (be_bytes 1 x) with [x]
        by (unfold be_bytes; cbn; rewrite Z.mod_small by lia; reflexivity).
      cbn [app]. f_equal.
      apply be_bytes_eq_iff. fold Q.
      replace (x * Q + va / d * d) with (va / d * d + x * Q) by ring.
      rewrite Z.mod_add by lia. reflexivity.
    + apply Z.leb_gt in E. cbn [and_bytes].
      rewrite land_partial by (unfold is_byte; lia).
      rewrite IH by (assumption || reflexivity || lia).
      rewrite Z.sub_0_r. rewrite <- HQ2. fold va.
      rewrite (Z.div_small va Q) by lia. rewrite Z.mul_0_l.
      set (d := 2 ^ (8 - p)). assert (Hd : 0 < d) by (apply Z.pow_pos_nonneg; lia).
      replace (2 ^ (8 * Z.of_nat l + 8 - p)) with (Q * d)
        by (rewrite HQ2; unfold d; rewrite <- Z.pow_add_r by lia; f_equal; lia).
      assert (Hq : (x * Q + va) / (Q * d) = x / d).
      { rewrite <- Z.div_div by lia. f_equal.
        symmetry. apply Z.div_unique with va; nia. }
      rewrite Hq.
      pose proof (Z.mul_div_le x d Hd) as Hle.
      pose proof (Z.div_pos x d ltac:(lia) Hd) as Hpos.
      replace (x / d * (Q * d)) with (x / d * d * Q) by ring.
      rewrite Z.div_mul by lia.
      replace (be_bytes 1 (x / d * d)) with [x / d * d]
        by (unfold be_bytes; cbn; rewrite Z.mod_small by nia; reflexivity).
      cbn [app]. f_equal.
      apply be_bytes_eq_iff. fold Q. rewrite Z.mod_mul by lia. reflexivity.
Qed.

Lemma skipn_mask_bytes (k l : nat) : forall p, 0 <= p ->
  skipn k (mask_bytes p (k + l)) = mask_bytes (Z.max 0 (p - 8 * Z.of_nat k)) l.
Proof.
  induction k as [|k IH]; intros p Hp.
  - cbn [skipn Nat.add]. f_equal. lia.
  - cbn [Nat.add mask_bytes]. destruct (8 <=? p) eqn:E; cbn [skipn]; rewrite IH.
    + f_equal. apply Z.leb_le in E. lia.
    + apply Z.leb_le in E. lia.
    + apply Z.leb_gt in E. f_equal. lia.
    + lia.
Qed.

(** The comparison loop of [Contains] compares the masked byte strings. *)
Lemma same_under_mask_and (nn m ip : list byte) :
  length nn = length ip -> length m = length ip ->
  same_under_mask nn m ip = bytes_eqb (and_bytes nn m) (and_bytes ip m).
Proof.
  revert nn m; induction ip as [|b ip IH]; intros [|x nn] [|k m] Hn Hm;
    try discriminate; [reflexivity|].
  cbn [same_under_mask and_bytes]. rewrite IH by (cbn in *; lia).
  unfold bytes_eqb.
  destruct (Z.eqb_spec (Z.land x k) (Z.land b k)) as [e|ne]; cbn [andb].
  - rewrite e. destruct (list_eq_dec Z.eq_dec (and_bytes nn m) (and_bytes ip m)) as [e'|ne'].
    + rewrite e'. destruct (list_eq_dec _ _ _); congruence.
    + destruct (list_eq_dec _ _ _) as [e''|]; [|reflexivity].
      injection e'' as e''. contradiction.
  - destruct (list_eq_dec _ _ _) as [e''|]; [|reflexivity].
    injection e'' as e1 e2. contradiction.
Qed.

Lemma bytes_eqb_be_bytes (n : nat) (v w : Z) :
  bytes_eqb (be_bytes n v) (be_bytes n w)
  = (v mod 256 ^ Z.of_nat n =? w mod 256 ^ Z.of_nat n).
Proof.
  unfold bytes_eqb. destruct (list_eq_dec _ _ _) as [e|ne].
  - apply be_bytes_eq_iff in e. symmetry. apply Z.eqb_eq. exact e.
  - symmetry. apply Z.eqb_neq. intro e. apply ne. apply be_bytes_eq_iff. exact e.
Qed.

(** Two addresses of [l] bytes agree under the mask of [p] leading ones
    exactly when their values agree above the [8 l - p] low bits. *)
Lemma same_under_mask_spec (l : nat) (p v w : Z) :
  0 <= p <= 8 * Z.of_nat l ->
  0 <= v < 256 ^ Z.of_nat l -> 0 <= w < 256 ^ Z.of_nat l ->
  same_under_mask (be_bytes l v) (mask_bytes p l) (be_bytes l w)
  = (v / 2 ^ (8 * Z.of_nat l - p) =? w / 2 ^ (8 * Z.of_nat l - p)).
Proof.
  intros Hp Hv Hw.
  rewrite same_under_mask_and
    by (rewrite ?be_bytes_length, ?mask_bytes_length; reflexivity).
  rewrite !and_bytes_mask
    by (apply be_bytes_ok || apply be_bytes_length || assumption).
  rewrite !be_val_be_bytes, bytes_eqb_be_bytes.
  rewrite (Z.mod_small v), (Z.mod_small w) by assumption.
  set (d := 2 ^ (8 * Z.of_nat l - p)).
  assert (Hd : 0 < d) by (apply Z.pow_pos_nonneg; lia).
  pose proof (Z.mul_div_le v d Hd). pose proof (Z.mul_div_le w d Hd).
  pose proof (Z.div_pos v d ltac:(lia) Hd). pose proof (Z.div_pos w d ltac:(lia) Hd).
  rewrite !Z.mod_small by nia.
  destruct (Z.eqb_spec (v / d) (w / d)) as [e|ne].
  - apply Z.eqb_eq. rewrite e. reflexivity.
  - apply Z.eqb_neq. intro e. apply ne. nia.
Qed.

End Masks.

(* ================================================================= *)
(** * The network of a parsed CIDR block *)

Section Blocks.

Import GoNet Expander.

Lemma ParseCIDR_inv (s : string) (ip : IP) (ipnet : IPNet) :
  ParseCIDR s = Some (ip, ipnet) ->
  exists a p, 0 <= p <= BitLen a /\ (ip, ipnet) = cidr_block a p.
Proof.
  unfold ParseCIDR. destruct (GoStrings.Cut s "/") as [[addr mask] found].
  destruct found; cbn [negb]; [|discriminate].
  destruct (ParseAddr addr) as [a|]; [|discriminate].
  destruct (negb (str_empty (Zone a))); [discriminate|].
  destruct (GoStrings.dtoi mask) as [[n i] ok].
  destruct (negb ok || negb (Nat.eqb i (String.length mask)) || (n <? 0)
            || (BitLen a <? n)) eqn:E; [discriminate|].
  intro H. injection H as <- <-.
  apply orb_false_iff in E. destruct E as [E E4].
  apply orb_false_iff in E. destruct E as [E E3].
  apply Z.ltb_ge in E3, E4.
  exists a, n. split; [lia|reflexivity].
Qed.

Lemma addr_bits (a : Addr) : BitLen a = 8 * Z.of_nat (addr_len a).
Proof. destruct a; reflexivity. Qed.

Lemma addr_val_range (a : Addr) : 0 <= addr_val a < 256 ^ Z.of_nat (addr_len a).
Proof. destruct a; cbn [addr_val addr_len]; apply Z.mod_pos_bound; reflexivity. Qed.

Lemma CIDRMask_bytes (a : Addr) (p : Z) :
  0 <= p <= BitLen a -> CIDRMask p (BitLen a) = mask_bytes p (addr_len a).
Proof.
  intro Hp. unfold CIDRMask.
  assert (E1 : (p <? 0) = false) by (apply Z.ltb_ge; lia).
  assert (E2 : (BitLen a <? p) = false) by (apply Z.ltb_ge; lia).
  rewrite E1, E2. destruct a; reflexivity.
Qed.

Lemma Mask_v4 (x m : list byte) :
  length x = 4%nat -> length m = 4%nat -> Mask (v4InV6Prefix ++ x) m = and_bytes x m.
Proof.
  intros Hx Hm.
  destruct x as [|x0 [|x1 [|x2 [|x3 [|]]]]]; try discriminate.
  destruct m as [|m0 [|m1 [|m2 [|m3 [|]]]]]; try discriminate.
  reflexivity.
Qed.

Lemma Mask_v6 (x m : list byte) :
  length x = 16%nat -> length m = 16%nat -> Mask x m = and_bytes x m.
Proof.
  intros Hx Hm.
  do 17 (destruct x as [|? x]; try discriminate).
  do 17 (destruct m as [|? m]; try discriminate).
  reflexivity.
Qed.

(** The loop of [expandCIDR] starts at the network address. *)
Lemma Mask_network (a : Addr) (p : Z) :
  0 <= p <= BitLen a ->
  Mask (As16 a) (CIDRMask p (BitLen a)) = be_bytes (addr_len a) (network a p).
Proof.
  intro Hp. rewrite CIDRMask_bytes by assumption.
  assert (Hm : and_bytes (be_bytes (addr_len a) (addr_val a)) (mask_bytes p (addr_len a))
               = be_bytes (addr_len a) (network a p)).
  { rewrite and_bytes_mask
      by (apply be_bytes_ok || apply be_bytes_length || (rewrite <- addr_bits; lia)).
    rewrite be_val_be_bytes, Z.mod_small by apply addr_val_range.
    unfold network, block_size. rewrite addr_bits. reflexivity. }
  rewrite <- Hm.
  destruct a as [v|v z]; cbn [As16 addr_len addr_val].
  - rewrite Mask_v4 by (apply be_bytes_length || apply mask_bytes_length).
    rewrite (be_bytes_mod 4). reflexivity.
  - rewrite Mask_v6 by (apply be_bytes_length || apply mask_bytes_length).
    rewrite (be_bytes_mod 16). reflexivity.
Qed.

Lemma network_range (a : Addr) (p : Z) :
  0 <= p <= BitLen a ->
  0 <= network a p <= addr_val a /\ network a p < 256 ^ Z.of_nat (addr_len a).
Proof.
  intro Hp. pose proof (addr_val_range a) as Hv.
  unfold network. set (d := block_size a p).
  assert (Hd : 0 < d) by (apply Z.pow_pos_nonneg; lia).
  pose proof (Z.mul_div_le (addr_val a) d Hd).
  pose proof (Z.div_pos (addr_val a) d ltac:(lia) Hd). nia.
Qed.

(** Size of the block times the number of blocks is the address space. *)
Lemma block_size_space (a : Addr) (p : Z) :
  0 <= p <= BitLen a ->
  0 < block_size a p /\ 2 ^ p * block_size a p = 256 ^ Z.of_nat (addr_len a).
Proof.
  intro Hp. unfold block_size. split; [apply Z.pow_pos_nonneg; lia|].
  rewrite <- Z.pow_add_r by lia. rewrite pow256_two, <- addr_bits. f_equal. lia.
Qed.

Lemma network_aligned (a : Addr) (p : Z) :
  0 <= p <= BitLen a ->
  exists c, network a p = c * block_size a p /\ 0 <= c < 2 ^ p.
Proof.
  intro Hp. exists (addr_val a / block_size a p). split; [reflexivity|].
  destruct (block_size_space a p Hp) as [Hd Hs].
  pose proof (addr_val_range a) as Hv. rewrite <- Hs in Hv.
  split; [apply Z.div_pos; lia|].
  apply Z.div_lt_upper_bound; [lia|]. nia.
Qed.

End Blocks.

(* ================================================================= *)
(** * [Contains] on the addresses the loop visits *)

Section ContainsFacts.

Import GoNet Expander.

Lemma To4_v4 (x : IP) : length x = 4%nat -> To4 x = Some x.
Proof. intro H. unfold To4, IPv4len. rewrite H. reflexivity. Qed.

Lemma To4_v6 (w : Z) :
  0 <= w < 2 ^ 128 ->
  To4 (be_bytes 16 w) = if mapped w then Some (be_bytes 4 w) else None.
Proof.
  intro Hw. unfold To4, IPv4len, IPv6len. rewrite be_bytes_length.
  cbn [Nat.eqb andb].
  change 16%nat with (12 + 4)%nat. rewrite firstn_be_bytes, skipn_be_bytes.
  replace v4InV6Prefix with (be_bytes 12 65535) by (vm_compute; reflexivity).
  rewrite bytes_eqb_be_bytes. unfold mapped.
  change (256 ^ Z.of_nat 4) with (2 ^ 32).
  assert (0 <= w / 2 ^ 32 < 256 ^ Z.of_nat 12).
  { split; [apply Z.div_pos; lia|]. apply Z.div_lt_upper_bound; [lia|].
    change (2 ^ 32 * 256 ^ Z.of_nat 12) with (2 ^ 128). lia. }
  rewrite Z.mod_small by assumption.
  rewrite (Z.mod_small 65535) by (vm_compute; split; [discriminate|reflexivity]).
  reflexivity.
Qed.

(** [Contains] for the network of an IPv4 block. *)
Lemma Contains_v4 (n p w : Z) :
  0 <= p <= 32 -> 0 <= n < 2 ^ 32 -> 0 <= w < 2 ^ 32 ->
  Contains (mkIPNet (be_bytes 4 n) (mask_bytes p 4)) (be_bytes 4 w)
  = (n / 2 ^ (32 - p) =? w / 2 ^ (32 - p)).
Proof.
  intros Hp Hn Hw. unfold Contains, networkNumberAndMask. cbn [net_IP net_Mask].
  rewrite !To4_v4 by apply be_bytes_length.
  unfold IPv4len, IPv6len. rewrite mask_bytes_length, !be_bytes_length.
  cbn [Nat.eqb]. apply (same_under_mask_spec 4); assumption.
Qed.

(** [Contains] for the network of an IPv6 block: an address is in it when it
    agrees with the network number above the host bits and is IPv4-mapped
    exactly when the network number is. *)
Lemma Contains_v6 (n p w : Z) :
  0 <= p <= 128 -> 0 <= n < 2 ^ 128 -> 0 <= w < 2 ^ 128 ->
  n mod 2 ^ (128 - p) = 0 ->
  Contains (mkIPNet (be_bytes 16 n) (mask_bytes p 16)) (be_bytes 16 w)
  = Bool.eqb (mapped n) (mapped w) && (n / 2 ^ (128 - p) =? w / 2 ^ (128 - p)).
Proof.
  intros Hp Hn Hw Hal. unfold Contains, networkNumberAndMask. cbn [net_IP net_Mask].
  rewrite !To4_v6 by assumption.
  unfold IPv4len, IPv6len. rewrite mask_bytes_length, !be_bytes_length.
  cbn [Nat.eqb].
  destruct (mapped n) eqn:En; destruct (mapped w) eqn:Ew;
    rewrite ?be_bytes_length; cbn [Nat.eqb Bool.eqb andb]; try reflexivity.
  - (* both IPv4-mapped: the last four bytes are compared *)
    unfold mapped in En, Ew. apply Z.eqb_eq in En, Ew.
    set (d := 2 ^ (128 - p)) in *.
    assert (Hd : 0 < d) by (apply Z.pow_pos_nonneg; lia).
    assert (Hp96 : 96 <= p).
    { destruct (Z_lt_le_dec p 96) as [Hlt|]; [exfalso|assumption].
      assert (Hd33 : d = 2 ^ 33 * 2 ^ (95 - p))
        by (unfold d; rewrite <- Z.pow_add_r by lia; f_equal; lia).
      assert (0 < 2 ^ (95 - p)) by (apply Z.pow_pos_nonneg; lia).
      apply Z.mod_divide in Hal; [|lia]. destruct Hal as [c Hc].
      assert (Hn2 : n = (c * 2 ^ (95 - p) * 2) * 2 ^ 32)
        by (rewrite Hc, Hd33; change (2 ^ 33) with (2 * 2 ^ 32); ring).
      rewrite Hn2, Z.div_mul in En by lia. lia. }
    change 16%nat with (12 + 4)%nat.
    rewrite skipn_mask_bytes by lia. change (8 * Z.of_nat 12) with 96.
    rewrite Z.max_r by lia.
    rewrite <- (be_bytes_mod 4 n), <- (be_bytes_mod 4 w).
    change (256 ^ Z.of_nat 4) with (2 ^ 32).
    rewrite (same_under_mask_spec 4)
      by (lia || (apply Z.mod_pos_bound; reflexivity)).
    change (8 * Z.of_nat 4) with 32.
    replace (32 - (p - 96)) with (128 - p) by lia. fold d.
    assert (Hsplit : forall x, x / 2 ^ 32 = 65535 ->
              x / d = 65535 * 2 ^ (p - 96) + (x mod 2 ^ 32) / d).
    { intros x Hx.
      rewrite (Z.div_mod x (2 ^ 32)) at 1 by lia. rewrite Hx.
      replace (2 ^ 32) with (2 ^ (p - 96) * d) at 1
        by (unfold d; rewrite <- Z.pow_add_r by lia; f_equal; lia).
      replace (2 ^ (p - 96) * d * 65535 + x mod 2 ^ 32)
        with (65535 * 2 ^ (p - 96) * d + x mod 2 ^ 32) by ring.
      apply Z.div_add_l. lia. }
    rewrite (Hsplit n En), (Hsplit w Ew).
    destruct (Z.eqb_spec (n mod 2 ^ 32 / d) (w mod 2 ^ 32 / d)) as [e|ne].
    + rewrite e. symmetry. apply Z.eqb_refl.
    + symmetry. apply Z.eqb_neq. lia.
  - (* neither is IPv4-mapped: all sixteen bytes are compared *)
    apply (same_under_mask_spec 16); assumption.
Qed.

End ContainsFacts.

(* ================================================================= *)
(** * The addresses a block expands to *)

Section Enumeration.

Import GoNet Expander.

Lemma div_in_block (c d j : Z) : 0 < d -> 0 <= j < d -> (c * d + j) / d = c.
Proof. intros Hd Hj. symmetry. apply Z.div_unique with j; lia. Qed.

Lemma mapped_range (w : Z) : mapped w = true <-> first_mapped <= w < first_mapped + 2 ^ 32.
Proof.
  unfold mapped, first_mapped. rewrite Z.eqb_eq. split; intro H.
  - pose proof (Z.div_mod w (2 ^ 32) ltac:(lia)) as E.
    pose proof (Z.mod_pos_bound w (2 ^ 32) ltac:(lia)). lia.
  - symmetry. apply Z.div_unique with (w - 65535 * 2 ^ 32); lia.
Qed.

(** A block that starts at an IPv4-mapped address lies in [::ffff:0:0/96]. *)
Lemma aligned_mapped (n p : Z) :
  0 <= p <= 128 -> n mod 2 ^ (128 - p) = 0 -> mapped n = true -> 96 <= p.
Proof.
  intros Hp Hal En. destruct (Z_lt_le_dec p 96) as [Hlt|]; [exfalso|assumption].
  unfold mapped in En. apply Z.eqb_eq in En.
  assert (Hd33 : 2 ^ (128 - p) = 2 ^ 33 * 2 ^ (95 - p))
    by (rewrite <- Z.pow_add_r by lia; f_equal; lia).
  assert (0 < 2 ^ (95 - p)) by (apply Z.pow_pos_nonneg; lia).
  apply Z.mod_divide in Hal; [|lia]. destruct Hal as [c Hc].
  assert (Hn2 : n = (c * 2 ^ (95 - p) * 2) * 2 ^ 32)
    by (rewrite Hc, Hd33; change (2 ^ 33) with (2 * 2 ^ 32); ring).
  rewrite Hn2, Z.div_mul in En by lia. lia.
Qed.

Lemma count_range (a : Addr) (p : Z) :
  0 <= p <= BitLen a -> 0 <= block_count a p <= block_size a p.
Proof.
  intro Hp. destruct (block_size_space a p Hp) as [Hd _].
  unfold block_count. destruct (meets_mapped a p) eqn:E; [|lia].
  destruct a as [v|v z]; [discriminate|].
  cbn [meets_mapped] in E.
  apply andb_prop in E. destruct E as [E E3]. apply andb_prop in E. destruct E as [_ E2].
  apply Z.leb_le in E2. apply Z.ltb_lt in E3. lia.
Qed.

(** The test of the loop at the [j]-th address after the network address:
    it holds below [block_count] and fails at [block_count]. *)
Lemma Contains_block (a : Addr) (p : Z) :
  0 <= p <= BitLen a -> finite_block a p = true ->
  let ipnet := snd (cidr_block a p) in
  let n := network a p in
  (forall j, 0 <= j < block_count a p ->
     Contains ipnet (be_bytes (addr_len a) (n + j)) = true)
  /\ Contains ipnet (be_bytes (addr_len a) (n + block_count a p)) = false.
Proof.
  intros Hp Hfin ipnet n.
  destruct (block_size_space a p Hp) as [Hd Hsp].
  destruct (network_aligned a p Hp) as (c & Hc & Hcr). fold n in Hc.
  pose proof (network_range a p Hp) as Hnr. fold n in Hnr.
  assert (Hpp : 0 < 2 ^ p) by (apply Z.pow_pos_nonneg; lia).
  assert (Hnet : ipnet = mkIPNet (be_bytes (addr_len a) n) (mask_bytes p (addr_len a))).
  { unfold ipnet, cidr_block. cbn [snd].
    rewrite Mask_network, CIDRMask_bytes by assumption. reflexivity. }
  rewrite Hnet. set (d := block_size a p) in *.
  assert (Hnd : n / d = c) by (rewrite Hc; apply Z.div_mul; lia).
  destruct a as [v|v z].
  - (* IPv4 *)
    cbn [finite_block] in Hfin. apply Z.leb_le in Hfin.
    cbn [addr_len BitLen] in *. change (256 ^ Z.of_nat 4) with (2 ^ 32) in *.
    assert (Hcnt : block_count (AddrFrom4 v) p = d) by reflexivity.
    rewrite Hcnt. unfold block_size in d. cbn [BitLen] in d.
    assert (2 <= 2 ^ p) by (change 2 with (2 ^ 1) at 1; apply Z.pow_le_mono_r; lia).
    split.
    + intros j Hj. rewrite Contains_v4 by nia. fold d.
      rewrite Hnd, Hc, div_in_block by lia. apply Z.eqb_refl.
    + rewrite <- (be_bytes_mod 4 (n + d)). change (256 ^ Z.of_nat 4) with (2 ^ 32).
      rewrite Contains_v4 by (lia || (apply Z.mod_pos_bound; lia)). fold d.
      rewrite Hnd. apply Z.eqb_neq.
      destruct (Z.eq_dec (c + 1) (2 ^ p)) as [e|ne].
      * replace (n + d) with (2 ^ 32) by nia. rewrite Z.mod_same by lia.
        rewrite Z.div_0_l by lia. lia.
      * rewrite Z.mod_small by nia.
        replace (n + d) with ((c + 1) * d + 0) by (rewrite Hc; ring).
        rewrite div_in_block by lia. lia.
  - (* IPv6 *)
    cbn [addr_len BitLen] in *. change (256 ^ Z.of_nat 16) with (2 ^ 128) in *.
    assert (Hal : n mod 2 ^ (128 - p) = 0).
    { rewrite Hc. unfold d, block_size. cbn [BitLen]. apply Z.mod_mul. 
      apply Z.pow_nonzero; lia. }
    unfold block_size in d. cbn [BitLen] in d.
    unfold block_count. cbn [meets_mapped]. fold n. unfold block_size. cbn [BitLen]. fold d.
    destruct (negb (mapped n) && (n <=? first_mapped) && (first_mapped <? n + d)) eqn:E.
    + (* the loop is cut short at the first IPv4-mapped address *)
      apply andb_prop in E. destruct E as [E E3]. apply andb_prop in E.
      destruct E as [E1 E2]. apply negb_true_iff in E1.
      apply Z.leb_le in E2. apply Z.ltb_lt in E3.
      assert (HM : first_mapped < 2 ^ 128) by (vm_compute; reflexivity).
      split.
      * intros j Hj. rewrite Contains_v6 by (assumption || lia). fold d.
        assert (Ew : mapped (n + j) = false).
        { destruct (mapped (n + j)) eqn:Em; [|reflexivity].
          apply mapped_range in Em. lia. }
        rewrite E1, Ew. cbn [Bool.eqb andb].
        rewrite Hnd, Hc, div_in_block by lia. apply Z.eqb_refl.
      * replace (n + (first_mapped - n)) with first_mapped by ring.
        rewrite Contains_v6 by (assumption || lia || (vm_compute; split; [discriminate|reflexivity])).
        rewrite E1. reflexivity.
    + (* the whole block is visited *)
      assert (Hnot : ~ (mapped n = false /\ n <= first_mapped < n + d)).
      { intros (H1 & H2 & H3). rewrite H1 in E. cbn [negb andb] in E.
        apply andb_false_iff in E. destruct E as [E|E].
        - apply Z.leb_gt in E. lia.
        - apply Z.ltb_ge in E. lia. }
      assert (Hp1 : 1 <= p).
      { destruct (Z.eq_dec p 0) as [->|]; [exfalso|lia].
        apply Hnot. change (2 ^ 0) with 1 in Hcr.
        assert (n = 0) by lia. subst n. rewrite H.
        split; [reflexivity|]. unfold d. vm_compute. split; [discriminate|reflexivity]. }
      assert (2 <= 2 ^ p) by (change 2 with (2 ^ 1) at 1; apply Z.pow_le_mono_r; lia).
      assert (Hsame : forall j, 0 <= j < d -> mapped (n + j) = mapped n).
      { intros j Hj. destruct (mapped n) eqn:En.
        - pose proof (aligned_mapped n p Hp Hal En) as Hp96.
          apply mapped_range in En. apply mapped_range.
          assert (Hd32 : 2 ^ 32 = 2 ^ (p - 96) * d)
            by (unfold d; rewrite <- Z.pow_add_r by lia; f_equal; lia).
          assert (0 < 2 ^ (p - 96)) by (apply Z.pow_pos_nonneg; lia).
          unfold first_mapped in *. rewrite Hd32 in *. nia.
        - destruct (mapped (n + j)) eqn:Ew; [exfalso|reflexivity].
          apply mapped_range in Ew.
          destruct (Z_le_gt_dec n first_mapped) as [Hle|Hgt].
          + apply Hnot. split; [reflexivity|lia].
          + assert (Em : mapped n = true) by (apply mapped_range; lia).
            congruence. }
      split.
      * intros j Hj. rewrite Contains_v6 by (assumption || nia). fold d.
        rewrite Hsame by assumption. rewrite eqb_reflx. cbn [andb].
        rewrite Hnd, Hc, div_in_block by lia. apply Z.eqb_refl.
      * rewrite <- (be_bytes_mod 16 (n + d)). change (256 ^ Z.of_nat 16) with (2 ^ 128).
        rewrite Contains_v6
          by (assumption || lia || (apply Z.mod_pos_bound; lia)). fold d.
        apply andb_false_iff. right. rewrite Hnd. apply Z.eqb_neq.
        destruct (Z.eq_dec (c + 1) (2 ^ p)) as [e|ne].
        -- replace (n + d) with (2 ^ 128) by nia. rewrite Z.mod_same by lia.
           rewrite Z.div_0_l by lia. lia.
        -- rewrite Z.mod_small by nia.
           replace (n + d) with ((c + 1) * d + 0) by (rewrite Hc; ring).
           rewrite div_in_block by lia. lia.
Qed.

End Enumeration.

(* ================================================================= *)
(** * [expandCIDR] on a parsed block *)

Section ExpandBlock.

Import GoNet Expander.

Lemma visited_block (a : Addr) (p : Z) :
  visited (be_bytes (addr_len a) (network a p)) (Z.to_nat (block_count a p))
  = block_addrs a p.
Proof.
  unfold visited, block_addrs. apply map_ext. intro j. apply incrementIP_iter.
Qed.

(** On every block but [0.0.0.0/0] the loop ends, and it has appended the
    addresses of [block_addrs] in this order. *)
Lemma expand_loop_block (a : Addr) (p : Z) (fuel : nat) :
  0 <= p <= BitLen a -> finite_block a p = true ->
  (Z.to_nat (block_count a p) < fuel)%nat ->
  expand_loop fuel (snd (cidr_block a p))
    (Mask (fst (cidr_block a p)) (net_Mask (snd (cidr_block a p)))) []
  = Some (map IP_String (block_addrs a p)).
Proof.
  intros Hp Hfin Hfuel.
  destruct (Contains_block a p Hp Hfin) as [Hin Hout].
  pose proof (count_range a p Hp) as Hc.
  assert (Hstart : Mask (fst (cidr_block a p)) (net_Mask (snd (cidr_block a p)))
                   = be_bytes (addr_len a) (network a p)).
  { unfold cidr_block. cbn [fst snd net_Mask]. apply Mask_network. assumption. }
  rewrite Hstart.
  rewrite (expand_loop_stops _ (Z.to_nat (block_count a p))).
  - rewrite visited_block. reflexivity.
  - intros j Hj. rewrite incrementIP_iter. apply Hin. lia.
  - rewrite incrementIP_iter, Z2Nat.id by lia. exact Hout.
  - assumption.
Qed.

(** On [0.0.0.0/0] (and on any IPv4 address with prefix length 0) the test of
    the loop never fails. *)
Lemma expand_loop_slash0 (v : Z) (fuel : nat) (ips : list string) :
  expand_loop fuel (snd (cidr_block (AddrFrom4 v) 0))
    (Mask (fst (cidr_block (AddrFrom4 v) 0))
          (net_Mask (snd (cidr_block (AddrFrom4 v) 0)))) ips
  = None.
Proof.
  set (a := AddrFrom4 v).
  assert (Hp : 0 <= 0 <= BitLen a) by (cbn; lia).
  assert (Hstart : Mask (fst (cidr_block a 0)) (net_Mask (snd (cidr_block a 0)))
                   = be_bytes 4 (network a 0)).
  { unfold cidr_block. cbn [fst snd net_Mask]. apply (Mask_network a 0 Hp). }
  assert (Hnet : snd (cidr_block a 0)
                 = mkIPNet (be_bytes 4 (network a 0)) (mask_bytes 0 4)).
  { unfold cidr_block. cbn [snd].
    rewrite (Mask_network a 0 Hp), (CIDRMask_bytes a 0 Hp). reflexivity. }
  rewrite Hstart, Hnet. apply expand_loop_runs. intro j.
  rewrite incrementIP_iter, <- (be_bytes_mod 4 (network a 0 + Z.of_nat j)).
  change (256 ^ Z.of_nat 4) with (2 ^ 32).
  pose proof (network_range a 0 Hp) as Hn.
  change (256 ^ Z.of_nat (addr_len a)) with (2 ^ 32) in Hn.
  rewrite Contains_v4 by (lia || (apply Z.mod_pos_bound; lia)).
  change (2 ^ (32 - 0)) with (2 ^ 32).
  rewrite !Z.div_small by (lia || (apply Z.mod_pos_bound; lia)).
  reflexivity.
Qed.

(** A prefix length [ParseCIDR] accepts lies within the address width. *)
Lemma cidr_block_range (s : string) (a : Addr) (p : Z) :
  ParseCIDR s = Some (cidr_block a p) -> 0 <= p <= BitLen a.
Proof.
  intro H. apply ParseCIDR_inv in H. destruct H as (a' & p' & Hp' & E).
  unfold cidr_block in E. injection E as E1 E2 E3.
  rewrite (CIDRMask_bytes a' p' Hp') in E3.
  apply (f_equal (@length byte)) in E3. rewrite mask_bytes_length in E3.
  unfold CIDRMask in E3.
  destruct a as [v|v z]; cbn [BitLen] in *; cbn [Z.eqb negb andb] in E3;
    destruct ((p <? 0) || (_ <? p)) eqn:Eo;
    try (destruct a'; discriminate E3);
    apply orb_false_iff in Eo; destruct Eo as [Eo1 Eo2];
    apply Z.ltb_ge in Eo1, Eo2; lia.
Qed.

(** [expandCIDR] in closed form on the blocks where its loop ends. *)
Lemma expandCIDR_block (cidr : string) (a : Addr) (p : Z) (fuel : nat) :
  ParseCIDR cidr = Some (cidr_block a p) -> finite_block a p = true ->
  (Z.to_nat (block_count a p) < fuel)%nat ->
  expandCIDR fuel cidr
  = Ok (if Nat.ltb 2 (length (block_addrs a p))
        then strip_ends (map IP_String (block_addrs a p))
        else map IP_String (block_addrs a p)).
Proof.
  intros Hparse Hfin Hfuel. pose proof (cidr_block_range _ _ _ Hparse) as Hp.
  unfold expandCIDR. rewrite Hparse.
  pose proof (expand_loop_block a p fuel Hp Hfin Hfuel) as Hl.
  destruct (cidr_block a p) as [ip ipnet]. cbn [fst snd] in Hl. rewrite Hl.
  rewrite length_map. destruct (Nat.ltb 2 (length (block_addrs a p))); reflexivity.
Qed.

Lemma expandCIDR_slash0 (cidr : string) (v : Z) (fuel : nat) :
  ParseCIDR cidr = Some (cidr_block (AddrFrom4 v) 0) ->
  expandCIDR fuel cidr = NoFuel.
Proof.
  intro Hparse. unfold expandCIDR. rewrite Hparse.
  pose proof (expand_loop_slash0 v fuel []) as Hl.
  destruct (cidr_block (AddrFrom4 v) 0) as [ip ipnet]. cbn [fst snd] in Hl.
  rewrite Hl. reflexivity.
Qed.

End ExpandBlock.

(* ================================================================= *)
(** * Theorems on the target expander *)

Section ExpanderTheorems.

Import GoNet Expander.

Lemma strip_ends_spec (A : Type) (d : A) (l : list A) :
  (2 <= length l)%nat ->
  l = nth 0 l d :: firstn (length l - 2) (skipn 1 l) ++ [nth (length l - 1) l d].
Proof.
  intro H. destruct l as [|x l]; [cbn in H; lia|].
  cbn [length nth skipn]. f_equal.
  assert (Hne : l <> []) by (destruct l; [cbn in H; lia|discriminate]).
  replace (S (length l) - 2)%nat with (pred (length l)) by lia.
  rewrite <- removelast_firstn_len.
  replace (S (length l) - 1)%nat with (S (pred (length l)))
    by (destruct l; [contradiction|cbn; lia]).
  cbn [nth].
  rewrite (app_removelast_last d Hne) at 1. f_equal. f_equal.
  clear H. induction l as [|y l IH]; [contradiction|].
  destruct l as [|z l]; [reflexivity|].
  cbn [length pred]. change (last (y :: z :: l) d) with (last (z :: l) d).
  rewrite IH by discriminate. reflexivity.
Qed.

Lemma visited_length (ip : IP) (k : nat) : length (visited ip k) = k.
Proof. unfold visited. rewrite length_map, length_seq. reflexivity. Qed.

Lemma visited_nth (ip : IP) (k j : nat) :
  (j < k)%nat -> nth j (map IP_String (visited ip k)) EmptyString
                 = IP_String (Nat.iter j incrementIP ip).
Proof.
  intro H. unfold visited. rewrite map_map.
  rewrite (nth_indep _ EmptyString (IP_String (Nat.iter 0 incrementIP ip)))
    by (rewrite length_map, length_seq; assumption).
  rewrite (map_nth (fun j => IP_String (Nat.iter j incrementIP ip)) (seq 0 k) O j).
  rewrite seq_nth by assumption. reflexivity.
Qed.

(** C1. Exclusion policy of [expandCIDR]: when the loop has enumerated more
    than two addresses, the result is the enumerated list without its first
    element (the network address the loop starts at) and without its last
    element (the last address the loop reached); when it has enumerated two
    or fewer, the result is the enumerated list itself. *)
Theorem expandCIDR_exclusion (fuel : nat) (cidr : string) (ip : IP)
  (ipnet : IPNet) (ips : list string) :
  ParseCIDR cidr = Some (ip, ipnet) ->
  expand_loop fuel ipnet (Mask ip (net_Mask ipnet)) [] = Some ips ->
  exists res,
    expandCIDR fuel cidr = Ok res
    /\ ((2 < length ips)%nat ->
        exists first last,
          ips = first :: res ++ [last]
          /\ first = IP_String (Mask ip (net_Mask ipnet))
          /\ last = IP_String (Nat.iter (length ips - 1) incrementIP
                                 (Mask ip (net_Mask ipnet))))
    /\ ((length ips <= 2)%nat -> res = ips).
Proof.
  intros Hparse Hloop. unfold expandCIDR. rewrite Hparse, Hloop.
  destruct (Nat.ltb 2 (length ips)) eqn:E.
  - apply Nat.ltb_lt in E. exists (strip_ends ips). split; [reflexivity|]. split.
    + intros _. apply expand_loop_inv in Hloop.
      destruct Hloop as (k & _ & _ & _ & Hips). cbn [app] in Hips.
      assert (Hk : length ips = k) by (rewrite Hips, length_map; apply visited_length).
      exists (nth 0 ips EmptyString), (nth (length ips - 1) ips EmptyString).
      split; [apply strip_ends_spec; lia|].
      rewrite Hips at 1 3. rewrite !visited_nth by lia. split; reflexivity.
    + intro H. lia.
  - apply Nat.ltb_ge in E. exists ips. split; [reflexivity|]. split.
    + intro H. lia.
    + reflexivity.
Qed.

(** The run of [expandCIDR] on [192.168.1.0/30] meets the hypotheses of
    [expandCIDR_exclusion]. *)
Lemma expandCIDR_exclusion_witness :
  ParseCIDR "192.168.1.0/30"
  = Some ([0;0;0;0;0;0;0;0;0;0;255;255;192;168;1;0],
          mkIPNet [192;168;1;0] [255;255;255;252])
  /\ exists res,
       expandCIDR 10 "192.168.1.0/30" = Ok res
       /\ res = ["192.168.1.1"; "192.168.1.2"]%string.
Proof.
  split; [vm_compute; reflexivity|].
  destruct (expandCIDR_exclusion 10 "192.168.1.0/30"
              [0;0;0;0;0;0;0;0;0;0;255;255;192;168;1;0]
              (mkIPNet [192;168;1;0] [255;255;255;252])
              ["192.168.1.0"; "192.168.1.1"; "192.168.1.2"; "192.168.1.3"]%string)
    as (res & Hres & Hgt & _).
  - vm_compute. reflexivity.
  - vm_compute. reflexivity.
  - exists res. split; [exact Hres|].
    destruct (Hgt ltac:(cbn; lia)) as (f & l & E & _ & _).
    injection E as _ E.
    destruct res as [|r1 [|r2 [|r3 res]]]; cbn in E; try discriminate E.
    + injection E as E1 E2 E3. subst. reflexivity.
    + injection E as _ _ _ E. destruct res; discriminate E.
Defined.

(** Every address that is not the last one of the address space has a
    successor of the next value. *)
Lemma incrementIP_next (x : IP) :
  bytes_ok x -> be_val x + 1 < 256 ^ Z.of_nat (length x) ->
  be_val (incrementIP x) = be_val x + 1.
Proof.
  intros Hx Hlt. rewrite incrementIP_val by assumption.
  apply Z.mod_small. pose proof (be_val_range x Hx). lia.
Qed.




End ExpanderTheorems.

Section Termination.

Import GoNet Expander.

(** An IPv6 block always ends within [2 ^ 128] iterations; so does an IPv4
    block of prefix length at least 1. *)
Lemma expandCIDR_returns (cidr : string) (a : Addr) (p : Z) :
  ParseCIDR cidr = Some (cidr_block a p) -> finite_block a p = true ->
  exists fuel res, expandCIDR fuel cidr = Ok res.
Proof.
  intros Hparse Hfin.
  exists (S (Z.to_nat (block_count a p))). eexists.
  apply (expandCIDR_block cidr a p); [assumption|assumption|].
  apply Nat.lt_succ_diag_r.
Qed.

(** C9, as amended. On a valid IPv4 block the expansion terminates if and
    only if the prefix length is at least 1; with prefix length 0 the
    increment wraps around to an address the block contains and no number of
    iterations ends the loop. On a valid IPv6 block the expansion terminates
    for every prefix length. *)
Theorem expandCIDR_terminates_iff (cidr : string) (a : Addr) (p : Z) :
  ParseCIDR cidr = Some (cidr_block a p) ->
  match a with
  | AddrFrom4 _ =>
      ((exists fuel res, expandCIDR fuel cidr = Ok res) <-> 1 <= p)
      /\ (p = 0 -> forall fuel, expandCIDR fuel cidr = NoFuel)
  | AddrFrom16 _ _ => exists fuel res, expandCIDR fuel cidr = Ok res
  end.
Proof.
  intro Hparse. pose proof (cidr_block_range _ _ _ Hparse) as Hp.
  destruct a as [v|v z].
  - assert (H0 : p = 0 -> forall fuel, expandCIDR fuel cidr = NoFuel).
    { intros -> fuel. apply (expandCIDR_slash0 cidr v). exact Hparse. }
    split; [split|exact H0].
    + intros (fuel & res & Hres).
      destruct (Z.eq_dec p 0) as [e|ne]; [|lia].
      rewrite (H0 e fuel) in Hres. discriminate Hres.
    + intro H1. apply (expandCIDR_returns cidr (AddrFrom4 v) p Hparse).
      cbn [finite_block]. apply Z.leb_le. exact H1.
  - apply (expandCIDR_returns cidr (AddrFrom16 v z) p Hparse). reflexivity.
Qed.

(** [10.0.0.0/8] and [::/0] meet the hypothesis of
    [expandCIDR_terminates_iff]. *)
Lemma expandCIDR_terminates_iff_witness :
  ParseCIDR "10.0.0.0/8" = Some (cidr_block (AddrFrom4 167772160) 8)
  /\ ((exists fuel res, expandCIDR fuel "10.0.0.0/8" = Ok res) <-> 1 <= 8).
Proof.
  assert (H : ParseCIDR "10.0.0.0/8" = Some (cidr_block (AddrFrom4 167772160) 8))
    by (vm_compute; reflexivity).
  split; [exact H|].
  exact (proj1 (expandCIDR_terminates_iff "10.0.0.0/8" (AddrFrom4 167772160) 8 H)).
Defined.

(** C9 as the specification states it fails on [::/0], a valid block of
    prefix length
    0: its expansion terminates. The loop stops at [::ffff:0.0.0.0], the
    first IPv4-mapped address, after [0xffff00000000] iterations: [To4]
    makes that address a 4-byte one and [Contains] compares lengths. *)
Lemma expandCIDR_terminates_counterexample :
  ParseCIDR "::/0" = Some (cidr_block (AddrFrom16 0 EmptyString) 0)
  /\ Contains (snd (cidr_block (AddrFrom16 0 EmptyString) 0))
       (be_bytes 16 first_mapped) = false
  /\ block_count (AddrFrom16 0 EmptyString) 0 = first_mapped
  /\ exists fuel res, expandCIDR fuel "::/0" = Ok res.
Proof.
  assert (H : ParseCIDR "::/0" = Some (cidr_block (AddrFrom16 0 EmptyString) 0))
    by (vm_compute; reflexivity).
  split; [exact H|].
  split; [vm_compute; reflexivity|].
  split; [vm_compute; reflexivity|].
  exact (expandCIDR_returns "::/0" (AddrFrom16 0 EmptyString) 0 H eq_refl).
Qed.

End Termination.

(* ================================================================= *)
(** * Theorems on [readIPs] *)

Section ReadIPsTheorems.

Import GoNet Expander.
Local Open Scope string_scope.
Local Open Scope list_scope.

(** The scanning loop only appends to what it was given. *)
Lemma readIPs_loop_acc (fuel : nat) (lines : list string) :
  forall ips out,
  readIPs_loop fuel lines ips out
  = match readIPs_loop fuel lines [] [] with
    | Some (ips', out') => Some (ips ++ ips', out ++ out')
    | None => None
    end.
Proof.
  induction lines as [|text rest IH]; intros ips out.
  - cbn [readIPs_loop]. rewrite !app_nil_r. reflexivity.
  - cbn [readIPs_loop].
    destruct (GoStrings.Contains (GoStrings.TrimSpace text) "/").
    + destruct (expandCIDR fuel (GoStrings.TrimSpace text)) as [e|err|].
      * rewrite (IH (ips ++ e) out), (IH ([] ++ e) []).
        destruct (readIPs_loop fuel rest [] []) as [[i o]|]; [|reflexivity].
        cbn [app]. rewrite app_assoc. reflexivity.
      * rewrite (IH ips (out ++ _)), (IH [] ([] ++ _)).
        destruct (readIPs_loop fuel rest [] []) as [[i o]|]; [|reflexivity].
        cbn [app]. rewrite <- !app_assoc. reflexivity.
      * reflexivity.
    + rewrite (IH (ips ++ _) out), (IH ([] ++ _) []).
      destruct (readIPs_loop fuel rest [] []) as [[i o]|]; [|reflexivity].
      cbn [app]. rewrite <- app_assoc. reflexivity.
Qed.

(** Scanning two runs of lines one after the other. *)
Lemma readIPs_loop_app (fuel : nat) (l1 l2 : list string) :
  forall ips out,
  readIPs_loop fuel (l1 ++ l2) ips out
  = match readIPs_loop fuel l1 ips out with
    | Some (ips', out') => readIPs_loop fuel l2 ips' out'
    | None => None
    end.
Proof.
  induction l1 as [|text rest IH]; intros ips out; [reflexivity|].
  cbn [app readIPs_loop].
  destruct (GoStrings.Contains (GoStrings.TrimSpace text) "/").
  - destruct (expandCIDR fuel (GoStrings.TrimSpace text)); [apply IH|apply IH|reflexivity].
  - apply IH.
Qed.

Lemma readIPs_Ok_inv (fuel : nat) (lines : list string) (ips out : list string) :
  readIPs fuel (Lines lines None) = (Ok ips, out) ->
  readIPs_loop fuel lines [] [] = Some (ips, out).
Proof.
  unfold readIPs. destruct (readIPs_loop fuel lines [] []) as [[i o]|].
  - intro H. injection H as <- <-. reflexivity.
  - discriminate.
Qed.



Lemma trimLeft_blank (s : string) :
  forallb GoStrings.asciiSpace (list_ascii_of_string s) = true ->
  GoStrings.trimLeft (String.length s) s = EmptyString.
Proof.
  induction s as [|c r IH]; [reflexivity|].
  cbn [list_ascii_of_string forallb String.length GoStrings.trimLeft].
  intro H. apply andb_prop in H. destruct H as [Hc Hr].
  unfold GoStrings.dropSpace. rewrite Hc. apply IH. exact Hr.
Qed.

(** A line of blanks, tabs and the like trims to the empty string. *)
Lemma TrimSpace_blank (s : string) :
  forallb GoStrings.asciiSpace (list_ascii_of_string s) = true ->
  GoStrings.TrimSpace s = EmptyString.
Proof.
  intro H. unfold GoStrings.TrimSpace. rewrite trimLeft_blank by assumption.
  reflexivity.
Qed.

(** C10. [readIPs] does not filter blank input. A line whose trimmed text
    holds no [/] is appended to the targets as it is after trimming, between
    the targets of the lines before and after it; a line of white space
    trims to the empty string, which holds no [/], so it becomes an
    empty-string target; and every target counts in the total the scheduler
    waits for. *)
Theorem readIPs_keeps_plain_lines (fuel : nat) (before after : list string)
  (line : string) (ips1 ips2 out1 out2 : list string) :
  GoStrings.Contains (GoStrings.TrimSpace line) "/" = false ->
  readIPs fuel (Lines before None) = (Ok ips1, out1) ->
  readIPs fuel (Lines after None) = (Ok ips2, out2) ->
  readIPs fuel (Lines (before ++ line :: after) None)
  = (Ok (ips1 ++ [GoStrings.TrimSpace line] ++ ips2), out1 ++ out2)
  /\ (forallb GoStrings.asciiSpace (list_ascii_of_string line) = true ->
      GoStrings.TrimSpace line = EmptyString)
  /\ GoStrings.Contains EmptyString "/" = false
  /\ Scheduler.wg (Scheduler.init (ips1 ++ [GoStrings.TrimSpace line] ++ ips2))
     = (length ips1 + 1 + length ips2)%nat.
Proof.
  intros Hslash H1 H2. apply readIPs_Ok_inv in H1, H2.
  split; [|split; [|split]].
  - unfold readIPs. rewrite readIPs_loop_app, H1.
    cbn [readIPs_loop]. rewrite Hslash.
    rewrite readIPs_loop_acc, H2. rewrite <- app_assoc. reflexivity.
  - apply TrimSpace_blank.
  - reflexivity.
  - cbn [Scheduler.init Scheduler.wg]. rewrite !length_app. cbn [length]. lia.
Qed.

(** A blank line and a line of spaces between two addresses: each becomes
    an empty-string target. *)
Lemma readIPs_keeps_plain_lines_witness :
  GoStrings.Contains (GoStrings.TrimSpace "   ") "/" = false
  /\ readIPs 10 (Lines (["8.8.8.8"; " "] ++ "   " :: ["1.1.1.1"]) None)
     = (Ok ["8.8.8.8"; EmptyString; EmptyString; "1.1.1.1"], []).
Proof.
  split; [vm_compute; reflexivity|].
  apply (proj1 (readIPs_keeps_plain_lines 10 ["8.8.8.8"; " "] ["1.1.1.1"]
                  "   " ["8.8.8.8"; EmptyString] ["1.1.1.1"] [] []
                  ltac:(vm_compute; reflexivity) ltac:(vm_compute; reflexivity)
                  ltac:(vm_compute; reflexivity))).
Defined.

End ReadIPsTheorems.

(* ================================================================= *)
(** * Theorems on the result aggregator *)

Section AggregatorTheorems.

Import Aggregator.

Lemma sink_perm (x : result) (rp : list result) : Permutation (sink x rp) (x :: rp).
Proof.
  induction rp as [|y rp IH]; cbn [sink]; [reflexivity|].
  destruct (less x y); [|reflexivity].
  rewrite IH. apply perm_swap.
Qed.

Lemma fold_sink_perm (l : list result) : forall rp,
  Permutation (fold_left (fun rp x => sink x rp) l rp) (l ++ rp).
Proof.
  induction l as [|x l IH]; intro rp; cbn [fold_left app]; [reflexivity|].
  rewrite IH, sink_perm. symmetry. apply Permutation_middle.
Qed.

Lemma sort_Slice_perm (l : list result) : Permutation l (sort_Slice l).
Proof.
  unfold sort_Slice. rewrite <- Permutation_rev, fold_sink_perm, app_nil_r.
  reflexivity.
Qed.

Lemma sink_descending (x : result) (rp : list result) :
  descending rp -> descending (sink x rp).
Proof.
  unfold descending, by_duration.
  induction rp as [|y rp IH]; intro H; cbn [sink].
  - repeat constructor.
  - apply StronglySorted_inv in H. destruct H as [Hs Hy].
    unfold less. destruct (Z.ltb_spec (duration x) (duration y)) as [Hlt|Hge].
    + constructor; [apply IH; assumption|].
      eapply Permutation_Forall; [symmetry; apply sink_perm|].
      constructor; [lia|assumption].
    + constructor; [constructor; assumption|].
      constructor; [assumption|].
      apply (Forall_impl _ (P := fun b => duration b <= duration y)); [|assumption].
      intros b Hb. cbn beta in *. lia.
Qed.

Lemma fold_sink_descending (l : list result) : forall rp,
  descending rp -> descending (fold_left (fun rp x => sink x rp) l rp).
Proof.
  induction l as [|x l IH]; intros rp H; cbn [fold_left]; [assumption|].
  apply IH, sink_descending, H.
Qed.

Lemma sorted_snoc (l : list result) (a : result) :
  StronglySorted by_duration l -> Forall (fun b => by_duration b a) l ->
  StronglySorted by_duration (l ++ [a]).
Proof.
  induction l as [|x l IH]; intros Hs Ha; cbn [app].
  - repeat constructor.
  - apply StronglySorted_inv in Hs. destruct Hs as [Hs Hx].
    inversion Ha as [|? ? Hxa Hla]; subst.
    constructor; [apply IH; assumption|].
    apply Forall_app. split; [assumption|]. constructor; [assumption|constructor].
Qed.

Lemma rev_descending (rp : list result) :
  descending rp -> StronglySorted by_duration (rev rp).
Proof.
  unfold descending. induction 1 as [|a rp Hs IH Ha]; cbn [rev]; [constructor|].
  apply sorted_snoc; [assumption|].
  apply Forall_rev. exact Ha.
Qed.

Lemma sort_Slice_sorted (l : list result) : StronglySorted by_duration (sort_Slice l).
Proof.
  unfold sort_Slice. apply rev_descending, fold_sink_descending. constructor.
Qed.

(** On a slice already in order no element moves. *)
Lemma fold_sink_sorted (l : list result) : forall rp,
  StronglySorted by_duration l ->
  (forall x y, In x l -> In y rp -> by_duration y x) ->
  fold_left (fun rp x => sink x rp) l rp = rev l ++ rp.
Proof.
  induction l as [|x l IH]; intros rp Hs Hrp; cbn [fold_left rev app]; [reflexivity|].
  apply StronglySorted_inv in Hs. destruct Hs as [Hs Hx].
  assert (Hsink : sink x rp = x :: rp).
  { destruct rp as [|y rp]; [reflexivity|]. cbn [sink]. unfold less.
    destruct (Z.ltb_spec (duration x) (duration y)) as [Hlt|Hge]; [|reflexivity].
    exfalso. specialize (Hrp x y (or_introl eq_refl) (or_introl eq_refl)).
    unfold by_duration in Hrp. lia. }
  rewrite Hsink, IH; [rewrite <- app_assoc; reflexivity|assumption|].
  intros a b Ha [<-|Hb].
  - rewrite Forall_forall in Hx. apply Hx. exact Ha.
  - apply Hrp; [right; exact Ha|exact Hb].
Qed.

Lemma sort_Slice_sorted_id (l : list result) :
  StronglySorted by_duration l -> sort_Slice l = l.
Proof.
  intro H. unfold sort_Slice. rewrite fold_sink_sorted.
  - rewrite app_nil_r. apply rev_involutive.
  - assumption.
  - intros x y _ [].
Qed.

Lemma by_duration_trans : Relations_1.Transitive by_duration.
Proof. intros a b c. unfold by_duration. lia. Qed.

Lemma rows_report (outFile : string) (sys : system) (collected : list result) :
  collected <> [] -> create_err sys = None ->
  rows (report outFile sys collected)
  = header :: map (fun res => [ip res; latency res]) (sort_Slice collected).
Proof.
  intros Hne Hc. unfold report. rewrite Hc.
  destruct collected as [|r l]; [contradiction|]. cbn [length Nat.eqb].
  cbn [app rows flat_map]. f_equal.
  unfold rows. rewrite flat_map_app.
  assert (Hrows : forall l, flat_map (fun e => match e with WriteRow f => [f] | _ => [] end)
                    (map (fun res => WriteRow [ip res; latency res]) l)
                  = map (fun res => [ip res; latency res]) l).
  { intro l0. induction l0 as [|a l0 IH]; [reflexivity|]. cbn. rewrite IH. reflexivity. }
  rewrite Hrows. cbn [flat_map app].
  destruct (flush_err sys); cbn [flat_map app]; rewrite app_nil_r; reflexivity.
Qed.

(** C6. For every non-empty collection of successful probes the rows the
    aggregator writes are those of the collection sorted in ascending order
    of round-trip time, and sorting again a sequence that is already in this
    order leaves it unchanged. *)
Theorem aggregator_sorted (outFile : string) (sys : system) (collected : list result) :
  collected <> [] ->
  StronglySorted by_duration (sort_Slice collected)
  /\ Permutation collected (sort_Slice collected)
  /\ (create_err sys = None ->
      rows (report outFile sys collected)
      = header :: map (fun res => [ip res; latency res]) (sort_Slice collected))
  /\ sort_Slice (sort_Slice collected) = sort_Slice collected
  /\ (forall l, Sorted by_duration l -> sort_Slice l = l).
Proof.
  intro Hne. split; [apply sort_Slice_sorted|].
  split; [apply sort_Slice_perm|].
  split; [apply rows_report; assumption|].
  split; [apply sort_Slice_sorted_id, sort_Slice_sorted|].
  intros l Hl. apply sort_Slice_sorted_id.
  apply Sorted_StronglySorted; [exact by_duration_trans|assumption].
Qed.

(** Three probes that answered after 30, 10 and 20 milliseconds. *)
Lemma aggregator_sorted_witness :
  sort_Slice [mkResult "10.0.0.1" "30 ms" 30000000;
              mkResult "10.0.0.2" "10 ms" 10000000;
              mkResult "10.0.0.3" "20 ms" 20000000]
  = [mkResult "10.0.0.2" "10 ms" 10000000;
     mkResult "10.0.0.3" "20 ms" 20000000;
     mkResult "10.0.0.1" "30 ms" 30000000]
  /\ StronglySorted by_duration
       (sort_Slice [mkResult "10.0.0.1" "30 ms" 30000000;
                    mkResult "10.0.0.2" "10 ms" 10000000;
                    mkResult "10.0.0.3" "20 ms" 20000000]).
Proof.
  split; [vm_compute; reflexivity|].
  apply (aggregator_sorted "ip.csv" (mkSystem None None 0)). discriminate.
Defined.

End AggregatorTheorems.

(* ================================================================= *)
(** * Theorems on the bounded scheduler *)

Section SchedulerTheorems.

Import Aggregator Scheduler.
Local Open Scope nat_scope.

Variable maxThreads : nat.
Variable net : nat -> pong.
Variable outFile : string.
Variable sys : system.

Local Abbreviation step := (Scheduler.step maxThreads net outFile sys).
Local Abbreviation reachable := (Scheduler.reachable maxThreads net outFile sys).

Lemma filter_middle (f : task * phase -> bool) (before after : list (task * phase))
  (g : task * phase) :
  length (filter f (before ++ g :: after))
  = length (filter f before) + (if f g then 1 else 0) + length (filter f after).
Proof.
  rewrite filter_app, length_app. cbn [filter]. destruct (f g); cbn [length]; lia.
Qed.

Lemma filter_without (f : task * phase -> bool) (before after : list (task * phase)) :
  length (filter f (before ++ after))
  = length (filter f before) + length (filter f after).
Proof. rewrite filter_app, length_app. reflexivity. Qed.

Lemma number_from_length (ips : list string) : forall i,
  length (number_from i ips) = length ips.
Proof.
  induction ips as [|x r IH]; intro i; [reflexivity|].
  cbn [number_from length]. rewrite IH. reflexivity.
Qed.

Lemma invariant_init (ips : list string) : invariant maxThreads (init ips).
Proof.
  constructor; cbn.
  - reflexivity.
  - lia.
  - rewrite number_from_length. lia.
Qed.

Lemma invariant_step (s s' : state) :
  invariant maxThreads s -> step s s' -> invariant maxThreads s'.
Proof.
  intros [Hsem Hcap Hwg] Hstep. unfold held, in_flight in *.
  inversion Hstep as
    [t rest s0 Hp Hh He Hlt | t s0 Hh He
    | i addr d before after s0 Hg He Hn | i addr err before after s0 Hg He Hn
    | t before after s0 Hg He | t before after s0 Hg He
    | s0 Hp Hh Hw He]; subst;
    constructor; unfold held, in_flight; cbn [pending holding sem gs chan wg out exited];
    try rewrite Hp in *; try rewrite Hh in *; try rewrite Hg in *;
    rewrite ?filter_middle, ?filter_without, ?length_app in *;
    cbn [occupies snd length filter] in *; lia.
Qed.

Lemma reachable_invariant (ips : list string) (s : state) :
  reachable ips s -> invariant maxThreads s.
Proof.
  induction 1 as [|s s' _ IH Hstep]; [apply invariant_init|].
  apply (invariant_step s s'); assumption.
Qed.

Lemma with_transport_le (s : state) : with_transport s <= in_flight s.
Proof.
  unfold with_transport, in_flight. induction (gs s) as [|[t ph] l IH]; [reflexivity|].
  destruct ph; cbn [filter occupies snd length]; lia.
Qed.

(** A goroutine in a given list that occupies a slot. *)
Lemma occupant (l : list (task * phase)) :
  0 < length (filter occupies l) ->
  exists before t ph after,
    l = before ++ (t, ph) :: after /\ (ph = Pinging \/ ph = Deferred).
Proof.
  induction l as [|[t ph] l IH]; cbn [filter length]; [lia|].
  intro H. destruct ph.
  - exists [], t, Pinging, l. split; [reflexivity|left; reflexivity].
  - exists [], t, Deferred, l. split; [reflexivity|right; reflexivity].
  - cbn [occupies snd] in H. destruct (IH H) as (b & t' & ph' & a & -> & Hph).
    exists ((t, Released) :: b), t', ph', a. split; [reflexivity|exact Hph].
Qed.

(** A goroutine can always take its next step. *)
Lemma goroutine_step (s : state) (before after : list (task * phase)) (t : task)
  (ph : phase) :
  gs s = before ++ (t, ph) :: after -> exited s = false -> exists s', step s s'.
Proof.
  intros Hg He. destruct t as [i addr]. destruct ph.
  - destruct (net i) as [d|err] eqn:En.
    + eexists. eapply step_echo; eassumption.
    + eexists. eapply step_lost; eassumption.
  - eexists. eapply step_release; eassumption.
  - eexists. eapply step_done; eassumption.
Qed.

(** With at least one slot, a run that has not ended can go on. *)
Lemma progress (ips : list string) (s : state) :
  1 <= maxThreads -> reachable ips s -> exited s = false -> exists s', step s s'.
Proof.
  intros HN Hr He. destruct (reachable_invariant ips s Hr) as [Hsem Hcap Hwg].
  unfold held in *. destruct (holding s) as [t|] eqn:Hh.
  - eexists. eapply step_go; eassumption.
  - destruct (pending s) as [|t rest] eqn:Hp.
    + destruct (gs s) as [|[t ph] l] eqn:Hg.
      * eexists. apply step_report; assumption.
      * apply (goroutine_step s [] l t ph); assumption.
    + destruct (Nat.lt_ge_cases (sem s) maxThreads) as [Hlt|Hge].
      * eexists. eapply step_acquire; eassumption.
      * assert (Hocc : 0 < length (filter occupies (gs s)))
          by (unfold in_flight in Hsem; lia).
        destruct (occupant (gs s) Hocc) as (b & t' & ph & a & Hg & _).
        apply (goroutine_step s b a t' ph); assumption.
Qed.

(** C8. In every state of a run, whatever the target list and the limit
    [maxThreads >= 1], at most [maxThreads] probes are in flight, and so at
    most [maxThreads] hold an open transport. While all slots are taken no
    step dispatches a new task; the run can still take a step; and as soon
    as a slot is free the loop of [main] can dispatch the next task. *)
Theorem scheduler_bound (ips : list string) (s : state) :
  1 <= maxThreads -> reachable ips s ->
  with_transport s <= in_flight s
  /\ in_flight s <= maxThreads
  /\ (sem s = maxThreads -> forall s', step s s' -> pending s' = pending s)
  /\ (exited s = false -> exists s', step s s')
  /\ (forall t rest, pending s = t :: rest -> holding s = None ->
      exited s = false -> sem s < maxThreads ->
      exists s', step s s' /\ pending s' = rest /\ holding s' = Some t).
Proof.
  intros HN Hr. destruct (reachable_invariant ips s Hr) as [Hsem Hcap Hwg].
  split; [apply with_transport_le|].
  split; [lia|].
  split; [|split].
  - intros Hfull s' Hstep.
    inversion Hstep; subst; cbn [pending]; try reflexivity; try lia.
    symmetry. assumption.
  - apply (progress ips); assumption.
  - intros t rest Hp Hh He Hlt. eexists. split.
    + eapply step_acquire; eassumption.
    + split; reflexivity.
Qed.

End SchedulerTheorems.

Section ScheduleFacts.

Import Aggregator Scheduler Schedule.
Local Open Scope nat_scope.

Variable maxThreads : nat.
Variable net : nat -> pong.
Variable outFile : string.
Variable sys : system.

Lemma nth_error_middle (A : Type) (l : list A) (k : nat) (x : A) :
  nth_error l k = Some x -> l = firstn k l ++ x :: skipn (S k) l.
Proof.
  revert k; induction l as [|y l IH]; intros [|k] H; try discriminate H.
  - injection H as ->. reflexivity.
  - cbn [firstn skipn app]. f_equal. apply IH. exact H.
Qed.

(** Every step [exec1] takes is a step of the scheduler. *)
Lemma exec1_step (c : choice) (s s' : state) :
  exec1 maxThreads net outFile sys c s = Some s' ->
  Scheduler.step maxThreads net outFile sys s s'.
Proof.
  unfold exec1. destruct (exited s) eqn:He; [discriminate|].
  destruct c as [| |k|k|k|].
  - destruct (pending s) as [|t rest] eqn:Hp; [discriminate|].
    destruct (holding s) eqn:Hh; [discriminate|].
    destruct (Nat.ltb_spec (sem s) maxThreads) as [Hlt|]; [|discriminate].
    intro H. injection H as <-. eapply step_acquire; eassumption.
  - destruct (holding s) as [t|] eqn:Hh; [|discriminate].
    intro H. injection H as <-. eapply step_go; eassumption.
  - destruct (nth_error (gs s) k) as [[[i addr] ph]|] eqn:Hk; [|discriminate].
    apply nth_error_middle in Hk.
    destruct ph; try discriminate.
    destruct (net i) as [d|err] eqn:Hn; intro H; injection H as <-.
    + eapply step_echo; eassumption.
    + eapply step_lost; eassumption.
  - destruct (nth_error (gs s) k) as [[t ph]|] eqn:Hk; [|discriminate].
    apply nth_error_middle in Hk.
    destruct ph; try discriminate. intro H. injection H as <-.
    eapply step_release; eassumption.
  - destruct (nth_error (gs s) k) as [[t ph]|] eqn:Hk; [|discriminate].
    apply nth_error_middle in Hk.
    destruct ph; try discriminate. intro H. injection H as <-.
    eapply step_done; eassumption.
  - destruct (pending s) eqn:Hp; [|discriminate].
    destruct (holding s) eqn:Hh; [discriminate|].
    destruct (wg s) eqn:Hw; [|discriminate].
    intro H. injection H as <-. rewrite <- Hw at 1.
    assert (E : mkState [] None (sem s) (gs s) (chan s) (wg s)
                  (out s ++ report outFile sys (chan s)) true
                = mkState [] None (sem s) (gs s) (chan s) 0
                  (out s ++ report outFile sys (chan s)) true)
      by (rewrite Hw; reflexivity).
    rewrite E. apply step_report; assumption.
Qed.

Lemma exec_reachable (ips : list string) (cs : list choice) : forall s s',
  Scheduler.reachable maxThreads net outFile sys ips s ->
  exec maxThreads net outFile sys cs s = Some s' ->
  Scheduler.reachable maxThreads net outFile sys ips s'.
Proof.
  induction cs as [|c cs IH]; intros s s' Hr H; cbn [exec] in H.
  - injection H as <-. exact Hr.
  - destruct (exec1 maxThreads net outFile sys c s) as [s1|] eqn:E; [|discriminate].
    apply (IH s1); [|exact H].
    eapply reach_step; [exact Hr|]. apply exec1_step with (c := c). exact E.
Qed.

(** With at least one slot the program can run to its end. *)
Lemma one_by_one_ends (p : list task) : forall c o,
  1 <= maxThreads ->
  exists s',
    exec maxThreads net outFile sys (one_by_one (length p))
      (mkState p None 0 [] c (length p) o false) = Some s'
    /\ exited s' = true.
Proof.
  induction p as [|[i addr] rest IH]; intros c o HN.
  - eexists. split; reflexivity.
  - cbn [length one_by_one app exec].
    unfold exec1 at 1. cbn [exited pending holding sem].
    destruct (Nat.ltb_spec 0 maxThreads) as [_|Hge]; [|lia].
    unfold exec1 at 1. cbn [exited holding pending sem gs chan wg out app].
    unfold exec1 at 1. cbn [exited gs nth_error].
    destruct (net i) as [d|err];
      cbn [pending holding sem gs chan wg out replace_at firstn skipn app];
      unfold exec1 at 1; cbn [exited gs nth_error];
      cbn [pending holding sem gs chan wg out replace_at firstn skipn app pred];
      unfold exec1 at 1; cbn [exited gs nth_error];
      cbn [pending holding sem gs chan wg out firstn skipn app pred];
      apply IH; assumption.
Qed.

(** X3. With a limit of at least one slot the scheduler does not get
    stuck: for every target list there is a run in which [main] passes the
    barrier and returns. *)
Theorem scheduler_completes (ips : list string) :
  1 <= maxThreads ->
  exists s, Scheduler.reachable maxThreads net outFile sys ips s /\ exited s = true.
Proof.
  intro HN.
  destruct (one_by_one_ends (number_from 0 ips) [] [] HN) as (s & Hs & He).
  exists s. split; [|exact He].
  apply (exec_reachable ips (one_by_one (length (number_from 0 ips))) (init ips));
    [apply reach_init|].
  unfold init. rewrite number_from_length in Hs. rewrite number_from_length.
  exact Hs.
Qed.

End ScheduleFacts.

(* ================================================================= *)
(** * What a run prints and writes *)

Section Traces.

Import Aggregator Scheduler.
Local Open Scope nat_scope.

Variable maxThreads : nat.
Variable net : nat -> pong.
Variable outFile : string.
Variable sys : system.

Local Abbreviation step := (Scheduler.step maxThreads net outFile sys).
Local Abbreviation reachable := (Scheduler.reachable maxThreads net outFile sys).

Lemma trace_shape_step (s s' : state) :
  trace_shape outFile sys s -> step s s' -> trace_shape outFile sys s'.
Proof.
  unfold trace_shape, summary. intros H Hstep.
  inversion Hstep; subst; cbn [exited out chan];
    match goal with He : exited s = false |- _ => rewrite He in H end;
    try assumption;
    try (apply Forall_app; split; [assumption|repeat constructor]).
  exists (out s). split; [reflexivity|assumption].
Qed.

Lemma reachable_trace_shape (ips : list string) (s : state) :
  reachable ips s -> trace_shape outFile sys s.
Proof.
  induction 1 as [|s s' _ IH Hstep]; [constructor|].
  apply (trace_shape_step s s'); assumption.
Qed.

(** X4. Only an echo reply puts a result on the channel: when every probe
    fails, no result reaches the channel, whatever the interleaving of the
    goroutines. *)
Theorem all_probes_fail_no_result (ips : list string) (s : state) :
  (forall i, exists err, net i = Lost err) -> reachable ips s -> chan s = [].
Proof.
  intros Hlost. induction 1 as [|s s' _ IH Hstep]; [reflexivity|].
  inversion Hstep; subst; cbn [chan]; try assumption.
  match goal with Hn : net ?i = Echo _ |- _ =>
    destruct (Hlost i) as [err He]; rewrite He in Hn; discriminate Hn end.
Qed.







(** When [main] returns, no task is left. *)
Lemma exited_empty (ips : list string) (s : state) :
  reachable ips s -> exited s = true ->
  pending s = [] /\ holding s = None /\ gs s = [].
Proof.
  intros Hr He. pose proof (reachable_invariant _ _ _ _ ips s Hr) as [_ _ Hwg].
  destruct Hr as [|s0 s Hr Hstep]; [discriminate He|].
  inversion Hstep; subst; cbn [exited] in He; try discriminate He.
  cbn [pending holding gs wg] in *. unfold held in Hwg. cbn [pending holding gs] in Hwg.
  repeat split. destruct (gs s0); [reflexivity|cbn in Hwg; lia].
Qed.



End Traces.

(* ================================================================= *)
(** * The order of the report does not depend on ties only *)

Section Ties.

Import Aggregator.

(** Two ascending lists of numbers with the same elements are equal. *)
Lemma sorted_perm_eq (x : list Z) : forall y,
  StronglySorted Z.le x -> StronglySorted Z.le y -> Permutation x y -> x = y.
Proof.
  induction x as [|a x IH]; intros y Hx Hy Hp.
  - apply Permutation_nil in Hp. symmetry. exact Hp.
  - destruct y as [|b y]; [symmetry in Hp; apply Permutation_nil in Hp; discriminate|].
    apply StronglySorted_inv in Hx, Hy. destruct Hx as [Hx Ha], Hy as [Hy Hb].
    rewrite Forall_forall in Ha, Hb.
    assert (Hab : a = b).
    { assert (Hina : In a (b :: y))
        by (apply (Permutation_in _ Hp); left; reflexivity).
      assert (Hinb : In b (a :: x))
        by (apply (Permutation_in _ (Permutation_sym Hp)); left; reflexivity).
      destruct Hina as [->|Hina]; [reflexivity|].
      destruct Hinb as [->|Hinb]; [reflexivity|].
      specialize (Ha b Hinb). specialize (Hb a Hina). lia. }
    subst b. f_equal. apply IH; try assumption.
    apply Permutation_cons_inv in Hp. exact Hp.
Qed.

Lemma sorted_durations (l : list result) :
  StronglySorted by_duration l -> StronglySorted Z.le (map duration l).
Proof.
  induction 1 as [|a l Hs IH Ha]; cbn [map]; constructor; [assumption|].
  rewrite Forall_forall in *. intros d Hd. apply in_map_iff in Hd.
  destruct Hd as (b & <- & Hb). apply Ha. exact Hb.
Qed.

(** Results of pairwise different durations are told apart by duration. *)
Lemma duration_inj (l : list result) (a b : result) :
  NoDup (map duration l) -> In a l -> In b l -> duration a = duration b -> a = b.
Proof.
  induction l as [|c l IH]; cbn [map]; intros Hnd Ha Hb E; [contradiction|].
  inversion Hnd as [|? ? Hnot Hnd']; subst.
  destruct Ha as [->|Ha], Hb as [->|Hb].
  - reflexivity.
  - exfalso. apply Hnot. rewrite E. apply in_map. exact Hb.
  - exfalso. apply Hnot. rewrite <- E. apply in_map. exact Ha.
  - apply IH; assumption.
Qed.

Lemma map_duration_inj (x : list result) : forall y l,
  NoDup (map duration l) -> incl x l -> incl y l ->
  map duration x = map duration y -> x = y.
Proof.
  induction x as [|a x IH]; intros [|b y] l Hnd Hx Hy E; try discriminate E.
  - reflexivity.
  - cbn [map] in E. injection E as Eab E.
    f_equal.
    + apply (duration_inj l); try assumption; [apply Hx|apply Hy]; left; reflexivity.
    + apply (IH y l); try assumption; intros c Hc; [apply Hx|apply Hy]; right; exact Hc.
Qed.

(** C7, as amended. Whatever order the same successful probes arrive in,
    the aggregation puts results of different round-trip times in the same
    relative order: the sequence of durations of the output is the same,
    and when no two results tie the whole output is the same. (How tied
    results are placed depends on their order of arrival.) *)
Theorem aggregator_order_up_to_ties (arrival1 arrival2 : list result) :
  Permutation arrival1 arrival2 ->
  map duration (sort_Slice arrival1) = map duration (sort_Slice arrival2)
  /\ (NoDup (map duration arrival1) -> sort_Slice arrival1 = sort_Slice arrival2).
Proof.
  intro Hp.
  assert (Hd : map duration (sort_Slice arrival1) = map duration (sort_Slice arrival2)).
  { apply sorted_perm_eq; try (apply sorted_durations, sort_Slice_sorted).
    apply Permutation_map.
    rewrite <- (sort_Slice_perm arrival1), <- (sort_Slice_perm arrival2). exact Hp. }
  split; [exact Hd|].
  intro Hnd. apply (map_duration_inj _ _ arrival1 Hnd); [| |exact Hd].
  - intros c Hc. apply (Permutation_in _ (Permutation_sym (sort_Slice_perm arrival1))).
    exact Hc.
  - intros c Hc. apply (Permutation_in _ (Permutation_sym Hp)).
    apply (Permutation_in _ (Permutation_sym (sort_Slice_perm arrival2))). exact Hc.
Qed.

(** Two probes of different round-trip times, arriving in either order. *)
Lemma aggregator_order_up_to_ties_witness :
  Permutation [mkResult "10.0.0.1" "30 ms" 30000000; mkResult "10.0.0.2" "10 ms" 10000000]
              [mkResult "10.0.0.2" "10 ms" 10000000; mkResult "10.0.0.1" "30 ms" 30000000]
  /\ map duration
       (sort_Slice [mkResult "10.0.0.1" "30 ms" 30000000;
                    mkResult "10.0.0.2" "10 ms" 10000000])
     = map duration
         (sort_Slice [mkResult "10.0.0.2" "10 ms" 10000000;
                      mkResult "10.0.0.1" "30 ms" 30000000]).
Proof.
  split; [apply perm_swap|].
  apply (aggregator_order_up_to_ties
           [mkResult "10.0.0.1" "30 ms" 30000000; mkResult "10.0.0.2" "10 ms" 10000000]
           [mkResult "10.0.0.2" "10 ms" 10000000; mkResult "10.0.0.1" "30 ms" 30000000]).
  apply perm_swap.
Defined.

End Ties.

(* ================================================================= *)
(** * Concrete runs *)

Section Runs.

Import Aggregator Scheduler Schedule.
Local Open Scope string_scope.
Local Open Scope list_scope.

(** C7 as the specification states it fails. Two runs probe the same two
    targets,
    both answer after the same 5 milliseconds, and the runs differ only in
    which goroutine returns first: the two rows of the report come out in
    opposite orders. *)
Lemma tie_order_counterexample :
  exists s1 s2,
    reachable 2 all_5ms "ip.csv" quiet_system ["10.0.0.1"; "10.0.0.2"] s1
    /\ exited s1 = true
    /\ reachable 2 all_5ms "ip.csv" quiet_system ["10.0.0.1"; "10.0.0.2"] s2
    /\ exited s2 = true
    /\ Permutation (chan s1) (chan s2)
    /\ Forall (fun r => duration r = 5000000%Z) (chan s1)
    /\ rows (out s1) = [header; ["10.0.0.1"; "5 ms"]; ["10.0.0.2"; "5 ms"]]
    /\ rows (out s2) = [header; ["10.0.0.2"; "5 ms"]; ["10.0.0.1"; "5 ms"]].
Proof.
  destruct (exec 2 all_5ms "ip.csv" quiet_system
              [Acquire; Go; Acquire; Go; Return 0; Return 1;
               Release 0; Release 1; Done 0; Done 0; Report]
              (init ["10.0.0.1"; "10.0.0.2"])) as [s1|] eqn:E1;
    [|vm_compute in E1; discriminate E1].
  destruct (exec 2 all_5ms "ip.csv" quiet_system
              [Acquire; Go; Acquire; Go; Return 1; Return 0;
               Release 0; Release 1; Done 0; Done 0; Report]
              (init ["10.0.0.1"; "10.0.0.2"])) as [s2|] eqn:E2;
    [|vm_compute in E2; discriminate E2].
  exists s1, s2.
  pose proof (exec_reachable _ _ _ _ _ _ _ _ (reach_init _ _ _ _ _) E1) as R1.
  pose proof (exec_reachable _ _ _ _ _ _ _ _ (reach_init _ _ _ _ _) E2) as R2.
  vm_compute in E1, E2. injection E1 as <-. injection E2 as <-.
  split; [exact R1|]. split; [reflexivity|].
  split; [exact R2|]. split; [reflexivity|].
  split; [apply perm_swap|].
  split; [repeat constructor|].
  split; vm_compute; reflexivity.
Qed.

End Runs.

(* ================================================================= *)
(** * Theorems on the terminal conditions of [main] *)

Section TerminalConditions.

Import Aggregator Scheduler Schedule.
Local Open Scope string_scope.
Local Open Scope list_scope.







(** One slot and two targets: while the first probe is in flight the slot
    is taken and the second target waits. *)
Lemma scheduler_bound_witness :
  (1 <= 1)%nat
  /\ reachable 1 all_5ms "ip.csv" quiet_system ["10.0.0.1"; "10.0.0.2"]
       (mkState [(1%nat, "10.0.0.2")] None 1 [((0%nat, "10.0.0.1"), Pinging)] []
                2 [] false)
  /\ (in_flight (mkState [(1%nat, "10.0.0.2")] None 1
                   [((0%nat, "10.0.0.1"), Pinging)] [] 2 [] false) <= 1)%nat.
Proof.
  assert (R : reachable 1 all_5ms "ip.csv" quiet_system ["10.0.0.1"; "10.0.0.2"]
                (mkState [(1%nat, "10.0.0.2")] None 1
                   [((0%nat, "10.0.0.1"), Pinging)] [] 2 [] false)).
  { apply (exec_reachable 1 all_5ms "ip.csv" quiet_system ["10.0.0.1"; "10.0.0.2"]
             [Acquire; Go] (init ["10.0.0.1"; "10.0.0.2"])); [apply reach_init|].
    vm_compute. reflexivity. }
  split; [apply le_n|]. split; [exact R|].
  exact (proj1 (proj2 (scheduler_bound 1 all_5ms "ip.csv" quiet_system
                         ["10.0.0.1"; "10.0.0.2"] _ (le_n 1) R))).
Defined.

End TerminalConditions.

(* ================================================================= *)
(** * Further properties of the expander and of the scheduler *)

Section Further.

Import GoNet Expander Aggregator Scheduler Schedule.
Local Open Scope string_scope.
Local Open Scope list_scope.

Lemma firstn_seq_le (k a n : nat) :
  (k <= n)%nat -> firstn k (seq a n) = seq a k.
Proof.
  intro H. replace n with (k + (n - k))%nat by lia.
  rewrite seq_app, firstn_app, length_seq, Nat.sub_diag.
  cbn [firstn]. rewrite app_nil_r.
  rewrite <- (length_seq k a) at 1. apply firstn_all.
Qed.

Lemma strip_ends_map_seq (f : nat -> string) (n : nat) :
  strip_ends (map f (seq 0 n)) = map (fun j => f (S j)) (seq 0 (n - 2)).
Proof.
  unfold strip_ends. rewrite length_map, length_seq.
  rewrite skipn_map, skipn_seq, firstn_map, firstn_seq_le by lia.
  cbn [Nat.add]. rewrite <- seq_shift, map_map. reflexivity.
Qed.

(** X2. On an IPv4 block of prefix length between 1 and 30 the expansion is
    the list of the addresses strictly between the network address and the
    broadcast address, in increasing order; on a block of prefix length 31
    or 32 it is the list of all addresses of the block. *)
Theorem expandCIDR_v4_hosts (cidr : string) (v p : Z) (fuel : nat) :
  ParseCIDR cidr = Some (cidr_block (AddrFrom4 v) p) -> 1 <= p ->
  (Z.to_nat (2 ^ (32 - p)) < fuel)%nat ->
  expandCIDR fuel cidr
  = Ok (if (p <=? 30)%Z
        then map (fun j => IP_String
                             (be_bytes 4 (network (AddrFrom4 v) p + 1 + Z.of_nat j)))
                 (seq 0 (Z.to_nat (2 ^ (32 - p) - 2)))
        else map (fun j => IP_String
                             (be_bytes 4 (network (AddrFrom4 v) p + Z.of_nat j)))
                 (seq 0 (Z.to_nat (2 ^ (32 - p))))).
Proof.
  intros Hparse Hp1 Hfuel.
  pose proof (cidr_block_range _ _ _ Hparse) as Hp. cbn [BitLen] in Hp.
  assert (Hcount : block_count (AddrFrom4 v) p = 2 ^ (32 - p)) by reflexivity.
  rewrite (expandCIDR_block cidr (AddrFrom4 v) p fuel Hparse);
    [|cbn [finite_block]; apply Z.leb_le; assumption|rewrite Hcount; assumption].
  unfold block_addrs. rewrite Hcount. cbn [addr_len].
  rewrite length_map, length_seq, map_map.
  set (size := 2 ^ (32 - p)).
  assert (Hsize : 0 < size) by (apply Z.pow_pos_nonneg; lia).
  f_equal.
  destruct (Z.leb_spec p 30) as [Hle|Hgt].
  - assert (4 <= size)
      by (unfold size; change 4 with (2 ^ 2); apply Z.pow_le_mono_r; lia).
    destruct (Nat.ltb_spec 2 (Z.to_nat size)) as [_|Hge]; [|lia].
    rewrite strip_ends_map_seq.
    replace (Z.to_nat size - 2)%nat with (Z.to_nat (size - 2)) by lia.
    apply map_ext. intro j. do 2 f_equal. lia.
  - assert (size <= 2).
    { unfold size. change 2 with (2 ^ 1) at 2. apply Z.pow_le_mono_r; lia. }
    destruct (Nat.ltb_spec 2 (Z.to_nat size)) as [Hlt|_]; [lia|]. reflexivity.
Qed.

(** The hosts of [10.1.2.3/30]. *)
Lemma expandCIDR_v4_hosts_witness :
  ParseCIDR "10.1.2.3/30" = Some (cidr_block (AddrFrom4 167838211) 30)
  /\ expandCIDR 5 "10.1.2.3/30" = Ok ["10.1.2.1"; "10.1.2.2"].
Proof.
  assert (H : ParseCIDR "10.1.2.3/30" = Some (cidr_block (AddrFrom4 167838211) 30))
    by (vm_compute; reflexivity).
  split; [exact H|].
  rewrite (expandCIDR_v4_hosts "10.1.2.3/30" 167838211 30 5 H ltac:(lia)
             ltac:(vm_compute; lia)).
  vm_compute. reflexivity.
Defined.

Lemma scheduler_completes_witness :
  (1 <= 1)%nat
  /\ exists s, reachable 1 all_5ms "ip.csv" quiet_system ["10.0.0.1"; "10.0.0.2"] s
               /\ exited s = true.
Proof.
  split; [apply le_n|].
  apply (scheduler_completes 1 all_5ms "ip.csv" quiet_system ["10.0.0.1"; "10.0.0.2"]).
  apply le_n.
Defined.

Lemma all_probes_fail_no_result_witness :
  (forall i, exists err, all_lost i = Lost err)
  /\ chan (mkState [] None 0 [] [] 0
             ([Print (fail_msg "10.0.0.1" "timeout"); Progress] ++ no_result) true)
     = [].
Proof.
  assert (Hl : forall i, exists err, all_lost i = Lost err)
    by (intro i; exists "timeout"; reflexivity).
  split; [exact Hl|].
  apply (all_probes_fail_no_result 1 all_lost "ip.csv" quiet_system ["10.0.0.1"] _ Hl).
  apply (exec_reachable 1 all_lost "ip.csv" quiet_system ["10.0.0.1"]
           (one_by_one 1) (init ["10.0.0.1"])); [apply reach_init|].
  vm_compute. reflexivity.
Defined.





End Further.

(* ================================================================= *)
(** * The probe *)

Section ProberTheorems.

Import Aggregator Prober.
Local Open Scope string_scope.
Local Open Scope list_scope.

Variable type_name : icmp_type -> string.

(** The calls of [ping] around the receive loop, once the request is out. *)
Local Abbreviation opening ip dst :=
  [ListenPacket (icmp_network (family_of ip)) (wildcard (family_of ip)) true;
   ResolveIPAddr (String.substring 0 3 (icmp_network (family_of ip))) ip true;
   WriteTo (msgType (family_of ip)) dst true; SetReadDeadline].

Lemma receive_strays (f : family) (dst : string) (strays rest : list datagram)
  (err : string) :
  Forall (fun s => peer s <> dst) strays ->
  receive type_name f dst (strays ++ rest) err
  = (fst (receive type_name f dst rest err),
     repeat (ReadFrom true) (length strays) ++ snd (receive type_name f dst rest err)).
Proof.
  induction 1 as [|s strays Hs _ IH]; cbn [app length repeat receive].
  - destruct (receive type_name f dst rest err); reflexivity.
  - apply String.eqb_neq in Hs. rewrite Hs, IH. reflexivity.
Qed.

Lemma receive_reads (f : family) (dst : string) (l : list datagram) (err : string) :
  exists k ok, snd (receive type_name f dst l err) = repeat (ReadFrom true) k ++ [ReadFrom ok].
Proof.
  induction l as [|d l IH]; cbn [receive].
  - exists O, false. reflexivity.
  - destruct (String.eqb (peer d) dst).
    + exists O, true. reflexivity.
    + destruct IH as (k & ok & E).
      destruct (receive type_name f dst l err) as [r calls]. cbn [snd] in *.
      exists (S k), ok. rewrite E. reflexivity.
Qed.

(** The first datagram of the destination ends the loop; before it every
    datagram is of another sender. *)
Lemma receive_inv (f : family) (dst : string) (err : string) (l : list datagram) :
  (Forall (fun s => peer s <> dst) l
   /\ fst (receive type_name f dst l err) = failure "接收ICMP回复失败: " err)
  \/ exists strays d rest,
       l = strays ++ d :: rest /\ Forall (fun s => peer s <> dst) strays
       /\ peer d = dst
       /\ fst (receive type_name f dst l err) = verdict type_name f d.
Proof.
  induction l as [|d l IH]; cbn [receive].
  - left. split; [constructor|reflexivity].
  - destruct (String.eqb_spec (peer d) dst) as [E|E].
    + right. exists [], d, l. repeat split; [constructor|exact E].
    + destruct (receive type_name f dst l err) as [r calls]. cbn [fst] in *.
      destruct IH as [[Hall Hr]|(strays & d' & rest & -> & Hs & Hd & Hr)].
      * left. split; [constructor; assumption|exact Hr].
      * right. exists (d :: strays), d', rest.
        repeat split; [constructor; assumption|exact Hd|exact Hr].
Qed.

(** X6. Once the echo request is out, the first datagram that comes from
    the destination decides what [ping] returns: the datagrams other senders
    sent before it are read and passed over, whatever they hold, and nothing
    is read after it; the transport is closed. *)
Theorem ping_first_reply_decides (ip dst : string) (x : exchange)
  (strays : list datagram) (d : datagram) (rest : list datagram) :
  listen_err x = None -> marshal_err x = None -> resolved x = inl dst ->
  write_err x = None ->
  arrivals x = strays ++ d :: rest ->
  Forall (fun s => peer s <> dst) strays -> peer d = dst ->
  ping type_name ip x
  = (verdict type_name (family_of ip) d,
     opening ip dst ++ repeat (ReadFrom true) (S (length strays)) ++ [Close]).
Proof.
  intros Hl Hm Hr Hw Ha Hs Hd. unfold ping. rewrite Hl, Hm, Hr, Hw, Ha.
  rewrite (receive_strays _ _ _ _ _ Hs). cbn [receive].
  apply String.eqb_eq in Hd. rewrite Hd. cbn [fst snd app].
  do 5 f_equal. rewrite <- repeat_cons. reflexivity.
Qed.

(** X7. [ping] reports a success only on an echo reply of the destination:
    the connection was opened, the request written, every datagram read
    before came from another sender, and the first datagram of the
    destination is an echo reply of the family probed. The duration returned
    is the time at which this datagram was read and the latency text is its
    number of milliseconds. *)
Theorem ping_success_needs_echo_reply (ip : string) (x : exchange) (lat : string)
  (dur : Z) (calls : list call) :
  ping type_name ip x = ((lat, dur, None), calls) ->
  exists dst strays d rest,
    listen_err x = None /\ marshal_err x = None /\ resolved x = inl dst
    /\ write_err x = None
    /\ arrivals x = strays ++ d :: rest
    /\ Forall (fun s => peer s <> dst) strays /\ peer d = dst
    /\ parsed d = inl (match family_of ip with V4 => 0 | V6 => 129 end)
    /\ dur = since d /\ lat = ping_latency dur.
Proof.
  unfold ping. destruct (listen_err x) as [e|]; [discriminate|].
  destruct (marshal_err x) as [e|]; [discriminate|].
  destruct (resolved x) as [dst|e]; [|discriminate].
  destruct (write_err x) as [e|]; [discriminate|].
  pose proof (receive_inv (family_of ip) dst (read_err x) (arrivals x)) as Hinv.
  destruct (receive type_name (family_of ip) dst (arrivals x) (read_err x))
    as [r reads].
  cbn [fst] in Hinv. intro H. injection H as -> _.
  destruct Hinv as [[_ Hr]|(strays & d & rest & Ha & Hs & Hd & Hr)];
    [discriminate Hr|].
  exists dst, strays, d, rest. repeat split; try assumption;
    unfold verdict in Hr; destruct (parsed d) as [n|e]; try discriminate Hr;
    destruct (is_echo_reply (parsed_type (family_of ip) n)) eqn:En;
    try discriminate Hr; injection Hr as Hlat Hdur; subst; try reflexivity.
  f_equal. destruct (family_of ip); cbn [parsed_type is_echo_reply] in En;
    apply Z.eqb_eq in En; exact En.
Qed.

(** X8. When no datagram of the destination arrives before [ReadFrom]
    fails (at the read deadline at the latest), [ping] returns the receive
    error, however many datagrams other senders have sent: each of them is
    read and passed over. *)
Theorem ping_without_reply_fails (ip dst : string) (x : exchange) :
  listen_err x = None -> marshal_err x = None -> resolved x = inl dst ->
  write_err x = None ->
  Forall (fun s => peer s <> dst) (arrivals x) ->
  ping type_name ip x
  = (failure "接收ICMP回复失败: " (read_err x),
     opening ip dst ++ repeat (ReadFrom true) (length (arrivals x))
     ++ [ReadFrom false; Close]).
Proof.
  intros Hl Hm Hr Hw Hs. unfold ping. rewrite Hl, Hm, Hr, Hw.
  rewrite <- (app_nil_r (arrivals x)) at 1.
  rewrite (receive_strays _ _ _ _ _ Hs). cbn [receive fst snd app].
  do 5 f_equal. rewrite <- app_assoc. reflexivity.
Qed.

(** X9. [ping] closes the transport it has opened on every path, and the
    close is its last call; when [icmp.ListenPacket] fails no other call is
    made. The transport is opened once, for the family of the target. *)
Theorem ping_closes_transport (ip : string) (x : exchange) :
  match listen_err x with
  | Some _ =>
      snd (ping type_name ip x)
      = [ListenPacket (icmp_network (family_of ip)) (wildcard (family_of ip)) false]
  | None =>
      exists middle,
        snd (ping type_name ip x)
        = ListenPacket (icmp_network (family_of ip)) (wildcard (family_of ip)) true
          :: middle ++ [Close]
        /\ Forall (fun c => match c with
                            | ListenPacket _ _ _ | Close => False
                            | _ => True
                            end) middle
  end.
Proof.
  unfold ping.
  destruct (listen_err x) as [e|]; [reflexivity|].
  destruct (marshal_err x) as [e|].
  { exists []. split; [reflexivity|constructor]. }
  destruct (resolved x) as [dst|e].
  2:{ eexists. split; [reflexivity|repeat constructor]. }
  destruct (write_err x) as [e|].
  { eexists. split; [reflexivity|repeat constructor]. }
  destruct (receive_reads (family_of ip) dst (arrivals x) (read_err x))
    as (k & ok & E).
  destruct (receive type_name (family_of ip) dst (arrivals x) (read_err x))
    as [r reads].
  cbn [snd] in *. eexists. split; [reflexivity|].
  rewrite E. repeat (constructor; [exact I|]).
  apply Forall_app. split; [|repeat constructor].
  apply Forall_forall. intros c Hc. apply repeat_spec in Hc. subst c. exact I.
Qed.

(** X29. What the goroutine of [main] keeps of a call of [ping], an echo
    after some duration or an error, determines the three values returned:
    with an echo the latency is the text of the duration and there is no
    error; with an error the latency is empty and the duration is zero. So
    the result sent on the channel and the line printed depend on the
    duration or on the error only. *)
Theorem ping_reply_shape (ip : string) (x : exchange) :
  fst (ping type_name ip x)
  = match outcome_of (fst (ping type_name ip x)) with
    | Echo d => (ping_latency d, d, None)
    | Lost err => ("", 0, Some err)
    end.
Proof.
  unfold ping.
  destruct (listen_err x) as [e|]; [reflexivity|].
  destruct (marshal_err x) as [e|]; [reflexivity|].
  destruct (resolved x) as [dst|e]; [|reflexivity].
  destruct (write_err x) as [e|]; [reflexivity|].
  pose proof (receive_inv (family_of ip) dst (read_err x) (arrivals x)) as Hinv.
  destruct (receive type_name (family_of ip) dst (arrivals x) (read_err x))
    as [r reads].
  cbn [fst snd] in *.
  destruct Hinv as [[_ ->]|(strays & d & rest & _ & _ & _ & ->)]; [reflexivity|].
  unfold verdict. destruct (parsed d) as [n|e]; [|reflexivity].
  destruct (is_echo_reply (parsed_type (family_of ip) n)); reflexivity.
Qed.

End ProberTheorems.

(* ================================================================= *)
(** * The books of a run: every target is probed once *)

Section Accounting.

Import Aggregator Scheduler.
Local Open Scope nat_scope.

Variable maxThreads : nat.
Variable net : nat -> pong.
Variable outFile : string.
Variable sys : system.

Local Abbreviation step := (Scheduler.step maxThreads net outFile sys).
Local Abbreviation reachable := (Scheduler.reachable maxThreads net outFile sys).

(** An element appended to the first list is moved to its place in the
    rest. *)
Ltac perm_mid :=
  apply Permutation_app_head;
  repeat first [rewrite <- app_assoc | progress cbn [app]];
  apply Permutation_middle.

Lemma probing_middle (before after : list (task * phase)) (t : task) (ph : phase) :
  map fst (filter pinging (before ++ (t, ph) :: after))
  = map fst (filter pinging before)
    ++ (if pinging (t, ph) then [t] else []) ++ map fst (filter pinging after).
Proof.
  rewrite filter_app, map_app. cbn [filter].
  destruct (pinging (t, ph)); reflexivity.
Qed.

Lemma probing_without (before after : list (task * phase)) :
  map fst (filter pinging (before ++ after))
  = map fst (filter pinging before) ++ map fst (filter pinging after).
Proof. rewrite filter_app, map_app. reflexivity. Qed.

Lemma books_init (ips : list string) : books net outFile sys ips (init ips).
Proof.
  constructor.
  - apply Permutation_refl.
  - exists []. split; [reflexivity|]. apply Permutation_refl.
Qed.

Lemma books_step (ips : list string) (s s' : state) :
  invariant maxThreads s -> books net outFile sys ips s -> step s s' ->
  books net outFile sys ips s'.
Proof.
  intros [_ _ Hwg] [Hchan (o & Hout & Hperm)] Hstep.
  unfold unreturned, waiting, held in *.
  inversion Hstep as
    [t rest s0 Hp Hh He Hlt | t s0 Hh He
    | i addr d before after s0 Hg He Hn | i addr err before after s0 Hg He Hn
    | t before after s0 Hg He | t before after s0 Hg He
    | s0 Hp Hh Hw He]; subst;
    rewrite He in Hout; rewrite app_nil_r in Hout.
  - (* acquire *)
    rewrite Hp, Hh in *. constructor; unfold unreturned, waiting;
      cbn [pending holding gs chan wg out exited app] in *.
    + exact Hchan.
    + exists o. rewrite app_nil_r. split; [exact Hout|exact Hperm].
  - (* go *)
    rewrite Hh in *. constructor; unfold unreturned, waiting;
      cbn [pending holding gs chan wg out exited app] in *;
      rewrite probing_without; cbn [filter pinging snd map fst];
      rewrite <- app_assoc; cbn [app].
    + exact Hchan.
    + exists o. rewrite app_nil_r. split; [exact Hout|exact Hperm].
  - (* an echo reply *)
    rewrite Hg in *. rewrite probing_middle in Hchan, Hperm.
    cbn [pinging snd] in Hchan, Hperm.
    constructor; unfold unreturned, waiting;
      cbn [pending holding gs chan wg out exited];
      rewrite probing_middle; cbn [pinging snd app].
    + rewrite <- !app_assoc in Hchan. rewrite !flat_map_app in Hchan.
      cbn [flat_map app] in Hchan. unfold sent at 2 in Hchan.
      cbn [fst snd] in Hchan. rewrite Hn in Hchan. cbn [app] in Hchan.
      rewrite <- !app_assoc. rewrite !flat_map_app.
      eapply Permutation_trans; [|exact Hchan]. perm_mid.
    + exists (o ++ [Print (ok_msg addr (ping_latency d))]).
      rewrite app_nil_r. split; [rewrite Hout; reflexivity|].
      rewrite <- !app_assoc in Hperm. rewrite !map_app in Hperm.
      cbn [map app] in Hperm. unfold line at 2 in Hperm.
      cbn [fst snd] in Hperm. rewrite Hn in Hperm.
      rewrite <- !app_assoc. rewrite !map_app.
      eapply Permutation_trans; [|exact Hperm]. perm_mid.
  - (* an error of [ping] *)
    rewrite Hg in *. rewrite probing_middle in Hchan, Hperm.
    cbn [pinging snd] in Hchan, Hperm.
    constructor; unfold unreturned, waiting;
      cbn [pending holding gs chan wg out exited];
      rewrite probing_middle; cbn [pinging snd app].
    + rewrite <- !app_assoc in Hchan. rewrite !flat_map_app in Hchan.
      cbn [flat_map app] in Hchan. unfold sent at 2 in Hchan.
      cbn [fst snd] in Hchan. rewrite Hn in Hchan. cbn [app] in Hchan.
      rewrite <- !app_assoc. rewrite !flat_map_app. exact Hchan.
    + exists (o ++ [Print (fail_msg addr err)]).
      rewrite app_nil_r. split; [rewrite Hout; reflexivity|].
      rewrite <- !app_assoc in Hperm. rewrite !map_app in Hperm.
      cbn [map app] in Hperm. unfold line at 2 in Hperm.
      cbn [fst snd] in Hperm. rewrite Hn in Hperm.
      rewrite <- !app_assoc. rewrite !map_app.
      eapply Permutation_trans; [|exact Hperm]. perm_mid.
  - (* the slot is given back *)
    rewrite Hg in *. rewrite probing_middle in Hchan, Hperm.
    constructor; unfold unreturned, waiting;
      cbn [pending holding gs chan wg out exited];
      rewrite probing_middle; cbn [pinging snd app] in *.
    + exact Hchan.
    + exists o. rewrite app_nil_r. split; [exact Hout|exact Hperm].
  - (* [wg.Done()] and the progress line *)
    rewrite Hg in *. rewrite probing_middle in Hchan, Hperm.
    constructor; unfold unreturned, waiting;
      cbn [pending holding gs chan wg out exited];
      rewrite probing_without; cbn [pinging snd app] in *.
    + exact Hchan.
    + exists (o ++ [Progress]). rewrite app_nil_r.
      split; [rewrite Hout; reflexivity|].
      rewrite length_app in Hwg. cbn [length] in Hwg.
      destruct (wg s) as [|w] eqn:Ew; [lia|]. cbn [pred repeat] in *.
      eapply Permutation_trans; [|exact Hperm]. rewrite <- !app_assoc. perm_mid.
  - (* the report *)
    rewrite Hp, Hh, Hw in *. constructor; unfold unreturned, waiting;
      cbn [pending holding gs chan wg out exited app] in *.
    + exact Hchan.
    + exists o. split; [rewrite Hout; reflexivity|exact Hperm].
Qed.

Lemma reachable_books (ips : list string) (s : state) :
  reachable ips s -> books net outFile sys ips s.
Proof.
  induction 1 as [|s s' Hr IH Hstep]; [apply books_init|].
  apply (books_step ips s s'); [|assumption|assumption].
  apply (reachable_invariant maxThreads net outFile sys ips). exact Hr.
Qed.

Lemma sent_length (ts : list task) :
  length (flat_map (sent net) ts) <= length ts.
Proof.
  induction ts as [|t ts IH]; [reflexivity|].
  cbn [flat_map]. rewrite length_app. unfold sent at 1.
  destruct (net (fst t)); cbn [length]; lia.
Qed.

Lemma rows_console (o : list event) : Forall console o -> rows o = [].
Proof.
  induction 1 as [|e o He _ IH]; [reflexivity|].
  unfold rows in *. cbn [flat_map]. rewrite IH.
  destruct e; try contradiction; reflexivity.
Qed.

(** X10. When [main] passes the barrier the channel holds exactly the
    results of the answered probes: each target whose probe was answered has
    its result on the channel once, no other result is there, whatever the
    interleaving of the goroutines. *)
Theorem results_complete (ips : list string) (s : state) :
  reachable ips s -> exited s = true ->
  Permutation (chan s) (successes net ips).
Proof.
  intros Hr He. destruct (reachable_books ips s Hr) as [Hchan _].
  destruct (exited_empty maxThreads net outFile sys ips s Hr He) as (Hp & Hh & Hg).
  unfold unreturned, waiting in Hchan. rewrite Hp, Hh, Hg in Hchan.
  cbn [filter map app flat_map] in Hchan. rewrite app_nil_r in Hchan. exact Hchan.
Qed.

(** X11. The send on [resultChan] never blocks: the channel was made with
    room for [len(ips)] results, it never holds more, and whenever a probe
    that is still running is going to be answered the channel holds fewer. *)
Theorem result_channel_has_room (ips : list string) (s : state) :
  reachable ips s ->
  length (chan s) <= length ips
  /\ forall i addr d before after,
       gs s = before ++ ((i, addr), Pinging) :: after -> net i = Echo d ->
       length (chan s) < length ips.
Proof.
  intros Hr. destruct (reachable_books ips s Hr) as [Hchan _].
  apply Permutation_length in Hchan. rewrite length_app in Hchan.
  pose proof (sent_length (number_from 0 ips)) as Hle.
  rewrite number_from_length in Hle. unfold successes in Hchan.
  split; [lia|].
  intros i addr d before after Hg Hn.
  unfold unreturned in Hchan. rewrite Hg, probing_middle in Hchan.
  cbn [pinging snd] in Hchan. rewrite <- !app_assoc in Hchan.
  rewrite !flat_map_app, !length_app in Hchan. cbn [flat_map] in Hchan.
  unfold sent at 2 in Hchan. cbn [fst snd] in Hchan. rewrite Hn in Hchan.
  cbn [app length] in Hchan. lia.
Qed.


(** X13. The deferred function never blocks and never panics: a goroutine
    that is about to receive from [sem] finds a token there, and a goroutine
    that is about to call [wg.Done()] finds the counter above zero. *)
Theorem deferred_never_blocks (ips : list string) (s : state) :
  reachable ips s ->
  (forall before t after, gs s = before ++ (t, Deferred) :: after -> 0 < sem s)
  /\ (forall before t after, gs s = before ++ (t, Released) :: after -> 0 < wg s).
Proof.
  intros Hr.
  destruct (reachable_invariant maxThreads net outFile sys ips s Hr) as [Hsem _ Hwg].
  unfold in_flight in Hsem. split; intros before t after Hg.
  - rewrite Hg, filter_middle in Hsem. cbn [occupies snd] in Hsem. lia.
  - rewrite Hg, length_app in Hwg. cbn [length] in Hwg. lia.
Qed.

(** X14. The goroutines are started in the order of the target list: in
    every state of a run the targets not dispatched yet are the end of the
    list, and every goroutine alive runs a target that comes before them. *)
Theorem dispatch_in_order (ips : list string) (s : state) :
  reachable ips s -> in_order ips s.
Proof.
  unfold in_order, waiting.
  induction 1 as [|s s' Hr (done & Hd & Hin) Hstep].
  - exists []. split; [reflexivity|]. intros g [].
  - inversion Hstep as
      [t rest s0 Hp Hh He Hlt | t s0 Hh He
      | i addr d before after s0 Hg He Hn | i addr err before after s0 Hg He Hn
      | t before after s0 Hg He | t before after s0 Hg He
      | s0 Hp Hh Hw He]; subst; cbn [pending holding gs].
    + rewrite Hp, Hh in Hd. exists done. split; [exact Hd|exact Hin].
    + rewrite Hh in Hd. exists (done ++ [t]). split.
      * rewrite <- app_assoc. exact Hd.
      * intros g Hg. apply in_app_or in Hg. apply in_or_app.
        destruct Hg as [Hg|[<-|[]]]; [left; apply Hin; exact Hg|right; left; reflexivity].
    + exists done. split; [exact Hd|]. intros g Hi. rewrite Hg in Hin.
      apply in_app_or in Hi. destruct Hi as [Hi|[<-|Hi]].
      * apply Hin, in_or_app. left. exact Hi.
      * apply (Hin ((i, addr), Pinging)), in_or_app. right. left. reflexivity.
      * apply Hin, in_or_app. right. right. exact Hi.
    + exists done. split; [exact Hd|]. intros g Hi. rewrite Hg in Hin.
      apply in_app_or in Hi. destruct Hi as [Hi|[<-|Hi]].
      * apply Hin, in_or_app. left. exact Hi.
      * apply (Hin ((i, addr), Pinging)), in_or_app. right. left. reflexivity.
      * apply Hin, in_or_app. right. right. exact Hi.
    + exists done. split; [exact Hd|]. intros g Hi. rewrite Hg in Hin.
      apply in_app_or in Hi. destruct Hi as [Hi|[<-|Hi]].
      * apply Hin, in_or_app. left. exact Hi.
      * apply (Hin (t, Deferred)), in_or_app. right. left. reflexivity.
      * apply Hin, in_or_app. right. right. exact Hi.
    + exists done. split; [exact Hd|]. intros g Hi. rewrite Hg in Hin.
      apply in_app_or in Hi. apply Hin, in_or_app.
      destruct Hi as [Hi|Hi]; [left; exact Hi|right; right; exact Hi].
    + rewrite Hp, Hh in Hd. exists done. split; [exact Hd|exact Hin].
Qed.

(** X15. With [-max 0] and at least one target nothing ever happens: the
    first send on [sem] can never go through, so no goroutine is started,
    nothing is printed and [main] does not return. *)
Theorem zero_limit_deadlock (ips : list string) (s : state) :
  maxThreads = 0 -> ips <> [] -> reachable ips s ->
  s = init ips /\ forall s', ~ step s s'.
Proof.
  intros H0 Hne Hr.
  assert (Hstuck : forall s', ~ step (init ips) s').
  { intros s' Hstep. inversion Hstep; subst;
      cbn [init pending holding sem gs exited] in *;
      try discriminate; try lia;
      try (match goal with H : [] = _ ++ _ :: _ |- _ =>
             apply app_cons_not_nil in H; contradiction end).
    destruct ips; [contradiction|discriminate]. }
  induction Hr as [|s s' Hr IH Hstep]; [split; [reflexivity|exact Hstuck]|].
  destruct IH as [-> _]. apply Hstuck in Hstep. contradiction.
Qed.

(** X16. From the target list to the file: in a run that ends, when at
    least one probe was answered and the output file could be created, the
    rows written are the header followed by one row for each answered probe,
    in ascending order of round-trip time. *)
Theorem csv_lists_answered_probes (ips : list string) (s : state) :
  reachable ips s -> exited s = true ->
  create_err sys = None -> successes net ips <> [] ->
  exists results,
    rows (out s) = header :: map (fun res => [ip res; latency res]) results
    /\ Permutation results (successes net ips)
    /\ StronglySorted by_duration results.
Proof.
  intros Hr He Hc Hne.
  destruct (reachable_books ips s Hr) as [Hchan _].
  destruct (exited_empty maxThreads net outFile sys ips s Hr He) as (Hp & Hh & Hg).
  unfold unreturned, waiting in Hchan. rewrite Hp, Hh, Hg in Hchan.
  cbn [filter map app flat_map] in Hchan. rewrite app_nil_r in Hchan.
  pose proof (reachable_trace_shape maxThreads net outFile sys ips s Hr) as Hshape.
  unfold trace_shape in Hshape. rewrite He in Hshape.
  destruct Hshape as (before & Hout & Hcon).
  assert (Hchan_ne : chan s <> []).
  { intro E. rewrite E in Hchan. apply Permutation_nil in Hchan. contradiction. }
  exists (sort_Slice (chan s)). split; [|split].
  - rewrite Hout. unfold rows at 1. rewrite flat_map_app.
    fold (rows before). fold (rows (summary outFile sys s)).
    rewrite (rows_console before Hcon). unfold summary.
    apply rows_report; assumption.
  - eapply Permutation_trans; [|exact Hchan].
    apply Permutation_sym, sort_Slice_perm.
  - apply sort_Slice_sorted.
Qed.

Lemma steps_middle (before after : list (task * phase)) (g : task * phase) :
  list_sum (map steps_left (before ++ g :: after))
  = list_sum (map steps_left before) + steps_left g
    + list_sum (map steps_left after).
Proof. rewrite map_app, list_sum_app. unfold list_sum. cbn [map fold_right]. lia. Qed.

Lemma steps_without (before after : list (task * phase)) :
  list_sum (map steps_left (before ++ after))
  = list_sum (map steps_left before) + list_sum (map steps_left after).
Proof. rewrite map_app, list_sum_app. reflexivity. Qed.

Lemma run_of_reachable (ips : list string) (k : nat) (s : state) :
  run_of maxThreads net outFile sys ips k s -> reachable ips s.
Proof.
  induction 1 as [|k s s' _ IH Hstep]; [apply reach_init|].
  eapply reach_step; eassumption.
Qed.

(** Every step takes one unit of the work that is left. *)
Lemma work_left_step (s s' : state) :
  step s s' -> work_left s = S (work_left s').
Proof.
  intro Hstep. unfold work_left, held.
  inversion Hstep as
    [t rest s0 Hp Hh He Hlt | t s0 Hh He
    | i addr d before after s0 Hg He Hn | i addr err before after s0 Hg He Hn
    | t before after s0 Hg He | t before after s0 Hg He
    | s0 Hp Hh Hw He]; subst;
    cbn [pending holding sem gs chan wg out exited];
    try rewrite Hp; try rewrite Hh; try rewrite Hg; rewrite He;
    rewrite ?steps_middle, ?steps_without;
    unfold list_sum; cbn [steps_left snd length map fold_right]; lia.
Qed.

(** X22. Every run of the scheduler ends, whatever the interleaving of the
    goroutines: with a limit of at least one slot a run on [n] targets takes
    exactly [5 n + 1] steps. After [k] steps the work left is [5 n + 1 - k]
    steps; [main] has returned exactly when no work is left; and a run in
    which [main] has not returned can take a step. *)
Theorem every_run_ends (ips : list string) (k : nat) (s : state) :
  1 <= maxThreads -> run_of maxThreads net outFile sys ips k s ->
  k + work_left s = 5 * length ips + 1
  /\ (exited s = true <-> k = 5 * length ips + 1)
  /\ (exited s = false -> exists s', step s s').
Proof.
  intros HN Hrun.
  assert (Hwork : k + work_left s = 5 * length ips + 1).
  { clear HN. induction Hrun as [|k s s' _ IH Hstep].
    - unfold work_left, held.
      cbn [init pending holding gs exited map list_sum fold_right length].
      rewrite number_from_length. lia.
    - apply work_left_step in Hstep. lia. }
  pose proof (run_of_reachable ips k s Hrun) as Hr.
  split; [exact Hwork|]. split.
  - split.
    + intro He.
      destruct (exited_empty maxThreads net outFile sys ips s Hr He) as (Hp & Hh & Hg).
      unfold work_left, held in Hwork. rewrite Hp, Hh, Hg, He in Hwork.
      cbn [length map list_sum fold_right] in Hwork. lia.
    + intro Hk. unfold work_left in Hwork. destruct (exited s); [reflexivity|lia].
  - apply (progress maxThreads net outFile sys ips); assumption.
Qed.


End Accounting.

(* ================================================================= *)
(** * The reader, line by line *)

Section ReaderTheorems.

Import GoNet Expander.
Local Open Scope string_scope.
Local Open Scope list_scope.

Lemma readIPs_loop_messages (fuel : nat) (lines : list string) :
  forall ips out ips' out',
  readIPs_loop fuel lines ips out = Some (ips', out') ->
  out' = out ++ map (fun l => parse_msg l (ParseCIDR_error l))
                    (filter rejected (map GoStrings.TrimSpace lines)).
Proof.
  induction lines as [|text rest IH]; intros ips out ips' out'; cbn [readIPs_loop].
  - intro H. injection H as _ <-. cbn [map filter]. rewrite app_nil_r. reflexivity.
  - cbn [map filter]. unfold rejected at 1.
    destruct (GoStrings.Contains (GoStrings.TrimSpace text) "/"); cbn [andb].
    + unfold expandCIDR.
      destruct (ParseCIDR (GoStrings.TrimSpace text)) as [[ip ipnet]|].
      * destruct (expand_loop fuel ipnet (Mask ip (net_Mask ipnet)) []) as [l|];
          [|discriminate].
        destruct (Nat.ltb 2 (length l)); apply IH.
      * intro H. apply IH in H. rewrite H, <- app_assoc. reflexivity.
    + apply IH.
Qed.

Lemma readIPs_loop_plain (fuel : nat) (lines : list string) :
  Forall (fun l => GoStrings.Contains (GoStrings.TrimSpace l) "/" = false) lines ->
  forall ips out,
  readIPs_loop fuel lines ips out
  = Some (ips ++ map GoStrings.TrimSpace lines, out).
Proof.
  induction 1 as [|text rest Ht _ IH]; intros ips out; cbn [readIPs_loop map].
  - rewrite app_nil_r. reflexivity.
  - rewrite Ht, IH, <- app_assoc. reflexivity.
Qed.

(** X17. [readIPs] reads a file line by line: the targets of two runs of
    lines read one after the other are the targets of the first followed by
    those of the second, and so are the messages printed. *)
Theorem readIPs_concatenates (fuel : nat) (l1 l2 ips1 ips2 out1 out2 : list string) :
  readIPs fuel (Lines l1 None) = (Ok ips1, out1) ->
  readIPs fuel (Lines l2 None) = (Ok ips2, out2) ->
  readIPs fuel (Lines (l1 ++ l2) None) = (Ok (ips1 ++ ips2), out1 ++ out2).
Proof.
  intros H1 H2. apply readIPs_Ok_inv in H1, H2.
  unfold readIPs. rewrite readIPs_loop_app, H1, readIPs_loop_acc, H2. reflexivity.
Qed.

(** X18. Whenever [readIPs] returns, what it has printed is one parse
    error for each line that holds a slash and is not a CIDR block, in the
    order of the file, and nothing else. An error of the scanner is the
    error returned, and the targets read before it are dropped. *)
Theorem readIPs_reports_rejected_lines (fuel : nat) (lines : list string)
  (scanErr : option string) (r : outcome (list string)) (out : list string) :
  readIPs fuel (Lines lines scanErr) = (r, out) -> r <> NoFuel ->
  out = map (fun l => parse_msg l (ParseCIDR_error l))
            (filter rejected (map GoStrings.TrimSpace lines))
  /\ match scanErr with
     | Some err => r = Error err
     | None => exists ips, r = Ok ips
     end.
Proof.
  unfold readIPs. intros H Hr.
  destruct (readIPs_loop fuel lines [] []) as [[ips o]|] eqn:E.
  - apply readIPs_loop_messages in E. cbn [app] in E.
    destruct scanErr as [err|]; injection H as <- <-.
    + split; [exact E|reflexivity].
    + split; [exact E|exists ips; reflexivity].
  - injection H as <- _. contradiction.
Qed.

(** X19. A file without any slash is taken as it is: every line, trimmed,
    is a target, whatever its text (nothing checks that it is an address),
    nothing is printed, and no loop is run. *)
Theorem readIPs_plain_file (fuel : nat) (lines : list string) :
  Forall (fun l => GoStrings.Contains (GoStrings.TrimSpace l) "/" = false) lines ->
  readIPs fuel (Lines lines None) = (Ok (map GoStrings.TrimSpace lines), []).
Proof.
  intro H. unfold readIPs. rewrite (readIPs_loop_plain fuel lines H). reflexivity.
Qed.

End ReaderTheorems.

(* ================================================================= *)
(** * The targets of a block, as texts *)

Section Dotted.

Import GoStrings GoNet.
Local Open Scope list_scope.
Local Open Scope string_scope.

(** The ten digits, as [uitoa] writes them and the parser reads them. *)
Lemma digit_read (d : Z) :
  0 <= d <= 9 ->
  isDigit (digit d) = true /\ digit_val (digit d) = d
  /\ is_dot (digit d) = false /\ is_colon (digit d) = false
  /\ Ascii.eqb (digit d) "%"%char = false.
Proof.
  intro H.
  assert (E : d = 0 \/ d = 1 \/ d = 2 \/ d = 3 \/ d = 4 \/ d = 5 \/ d = 6
              \/ d = 7 \/ d = 8 \/ d = 9) by lia.
  repeat (destruct E as [->|E]; [repeat split; reflexivity|]). subst d.
  repeat split; reflexivity.
Qed.

Lemma uitoa_byte (x : Z) : is_byte x -> uitoa x = byte_text x.
Proof.
  intro Hx. apply String.eqb_eq.
  apply (byte_forall (fun x => String.eqb (uitoa x) (byte_text x))); [|exact Hx].
  vm_compute. reflexivity.
Qed.

(** The three shapes of the text of a byte, with digits in range. *)
Lemma byte_text_cases (x : Z) :
  is_byte x ->
  (exists d0, byte_text x = String (digit d0) "" /\ 0 <= d0 <= 9 /\ x = d0)
  \/ (exists d1 d0, byte_text x = String (digit d1) (String (digit d0) "")
        /\ 1 <= d1 <= 9 /\ 0 <= d0 <= 9 /\ x = d1 * 10 + d0)
  \/ (exists d2 d1 d0,
        byte_text x = String (digit d2) (String (digit d1) (String (digit d0) ""))
        /\ 1 <= d2 <= 9 /\ 0 <= d1 <= 9 /\ 0 <= d0 <= 9
        /\ x = (d2 * 10 + d1) * 10 + d0).
Proof.
  unfold is_byte, byte_text. intro Hx.
  destruct (Z.ltb_spec x 10) as [H1|H1]; [|destruct (Z.ltb_spec x 100) as [H2|H2]].
  - left. exists x. repeat split; lia.
  - right. left. exists (x / 10), (x mod 10).
    pose proof (Z.div_mod x 10 ltac:(lia)). pose proof (Z.mod_pos_bound x 10 ltac:(lia)).
    repeat split; try lia.
  - right. right. exists (x / 100), (x / 10 mod 10), (x mod 10).
    pose proof (Z.div_mod x 10 ltac:(lia)). pose proof (Z.mod_pos_bound x 10 ltac:(lia)).
    pose proof (Z.div_mod (x / 10) 10 ltac:(lia)).
    pose proof (Z.mod_pos_bound (x / 10) 10 ltac:(lia)).
    assert (x / 10 / 10 = x / 100) by (rewrite Z.div_div by lia; reflexivity).
    repeat split; try lia.
Qed.

(** One digit read by the loop of [parseIPv4Fields]. *)
Lemma digit_step (d : Z) (r : string) (first prevDot : bool) (fields : list byte)
  (val : Z) (digLen : nat) :
  0 <= d <= 9 -> Nat.eqb digLen 1 && Z.eqb val 0 = false -> val * 10 + d <= 255 ->
  parseIPv4Fields_loop (String (digit d) r) first prevDot fields val digLen
  = parseIPv4Fields_loop r false false fields (val * 10 + d) (S digLen).
Proof.
  intros Hd Hz Hv. destruct (digit_read d Hd) as (H1 & H2 & _).
  cbn [parseIPv4Fields_loop]. rewrite H1, Hz, H2.
  destruct (Z.ltb_spec 255 (val * 10 + d)); [lia|reflexivity].
Qed.

(** The text of a byte read as one field. *)
Lemma field_read (x : Z) (rest : string) (first prevDot : bool) (fields : list byte) :
  is_byte x ->
  exists digLen,
    parseIPv4Fields_loop (byte_text x ++ rest) first prevDot fields 0 O
    = parseIPv4Fields_loop rest false false fields x digLen.
Proof.
  intro Hx. pose proof Hx as Hb. unfold is_byte in Hb.
  destruct (byte_text_cases x Hx)
    as [(d0 & -> & H0 & E)|[(d1 & d0 & -> & H1 & H0 & E)
                            |(d2 & d1 & d0 & -> & H2 & H1 & H0 & E)]];
    cbn [append].
  - exists 1%nat. rewrite digit_step by (try reflexivity; lia).
    f_equal. lia.
  - exists 2%nat. rewrite digit_step by (try reflexivity; lia).
    rewrite digit_step; [f_equal; lia|lia| |lia].
    cbn [Nat.eqb andb]. apply Z.eqb_neq. lia.
  - exists 3%nat. rewrite digit_step by (try reflexivity; lia).
    rewrite digit_step; [|lia| |lia].
    + rewrite digit_step; [f_equal; lia|lia|reflexivity|lia].
    + cbn [Nat.eqb andb]. apply Z.eqb_neq. lia.
Qed.

(** The dot that closes a field. *)
Lemma dot_step (rest : string) (fields : list byte) (val : Z) (digLen : nat) :
  str_empty rest = false -> (length fields < 3)%nat ->
  parseIPv4Fields_loop (String "." rest) false false fields val digLen
  = parseIPv4Fields_loop rest false true (fields ++ [val])%list 0 O.
Proof.
  intros Hr Hl. cbn [parseIPv4Fields_loop].
  change (isDigit ".") with false. change (is_dot ".") with true.
  rewrite Hr. cbn [orb]. destruct (Nat.eqb_spec (length fields) 3); [lia|reflexivity].
Qed.

Lemma byte_text_filled (x : Z) (rest : string) :
  is_byte x -> str_empty (byte_text x ++ rest) = false.
Proof.
  intro Hx.
  destruct (byte_text_cases x Hx)
    as [(d0 & -> & _)|[(d1 & d0 & -> & _)|(d2 & d1 & d0 & -> & _)]]; reflexivity.
Qed.

(** The scan of [ParseAddr] goes past the first field and meets a dot. *)
Lemma scan_field (x : Z) (rest whole : string) :
  is_byte x ->
  ParseAddr_scan (byte_text x ++ String "." rest) whole = parseIPv4 whole.
Proof.
  intro Hx.
  destruct (byte_text_cases x Hx)
    as [(d0 & -> & H0 & _)|[(d1 & d0 & -> & H1 & H0 & _)
                            |(d2 & d1 & d0 & -> & H2 & H1 & H0 & _)]];
    cbn [append ParseAddr_scan];
    repeat match goal with
      | |- context [is_dot (digit ?d)] =>
          let H := fresh in
          destruct (digit_read d ltac:(lia)) as (_ & _ & H & ? & ?);
          rewrite H; clear H
      end;
    repeat match goal with H : is_colon _ = false |- _ => rewrite H; clear H end;
    repeat match goal with H : Ascii.eqb _ _ = false |- _ => rewrite H; clear H end;
    reflexivity.
Qed.

Lemma append_empty (s : string) : s ++ "" = s.
Proof. induction s as [|ch s IH]; [reflexivity|]. cbn [append]. rewrite IH. reflexivity. Qed.

(** The loop of [parseIPv4Fields] at the start of a field. *)
Ltac read_field :=
  match goal with
  | |- context [parseIPv4Fields_loop (byte_text ?x ++ ?r) ?f ?p ?fl 0 O] =>
      let k := fresh "k" in
      destruct (field_read x r f p fl ltac:(assumption)) as [k ->]
  end.

(** The text of a 4-byte address reads back as the address. *)
Lemma ParseAddr_dotted (a b c d : Z) :
  is_byte a -> is_byte b -> is_byte c -> is_byte d ->
  ParseAddr (dotted [a; b; c; d]) = Some (AddrFrom4 (be_val [a; b; c; d])).
Proof.
  intros Ha Hb Hc Hd. unfold ParseAddr, dotted.
  rewrite !uitoa_byte by assumption.
  rewrite <- (append_empty (byte_text d)).
  cbn [append].
  rewrite scan_field by assumption.
  unfold parseIPv4, parseIPv4Fields.
  read_field. rewrite dot_step; [|apply byte_text_filled; assumption|cbn; lia].
  cbn [app].
  read_field. rewrite dot_step; [|apply byte_text_filled; assumption|cbn; lia].
  cbn [app].
  read_field. rewrite dot_step; [|apply byte_text_filled; assumption|cbn; lia].
  cbn [app].
  read_field. reflexivity.
Qed.

End Dotted.

(* ================================================================= *)
(** * More on the expansion of a block *)

Section BlockTargets.

Import GoNet Expander.
Local Open Scope string_scope.
Local Open Scope list_scope.

(** The text [IP.String] gives a 4-byte address reads back as the address. *)
Lemma IP_String_v4_parse (w : Z) :
  0 <= w < 2 ^ 32 -> ParseAddr (IP_String (be_bytes 4 w)) = Some (AddrFrom4 w).
Proof.
  intro Hw. pose proof (be_bytes_length 4 w) as Hl.
  pose proof (be_bytes_ok 4 w) as Hok. pose proof (be_val_be_bytes 4 w) as Hv.
  destruct (be_bytes 4 w) as [|a [|b [|c [|d [|e l]]]]]; try discriminate Hl.
  unfold bytes_ok in Hok.
  inversion Hok as [|? ? Ha Hok1]; subst. inversion Hok1 as [|? ? Hb Hok2]; subst.
  inversion Hok2 as [|? ? Hc Hok3]; subst. inversion Hok3 as [|? ? Hd _]; subst.
  change (IP_String [a; b; c; d]) with (dotted [a; b; c; d]).
  rewrite ParseAddr_dotted by assumption. do 2 f_equal.
  change (256 ^ Z.of_nat 4) with (2 ^ 32) in Hv.
  rewrite Z.mod_small in Hv by assumption. exact Hv.
Qed.

(** The expansion of an IPv4 block is a run of consecutive addresses of the
    block. *)
Lemma v4_hosts_form (cidr : string) (v p : Z) (fuel : nat) :
  ParseCIDR cidr = Some (cidr_block (AddrFrom4 v) p) -> 1 <= p ->
  (Z.to_nat (2 ^ (32 - p)) < fuel)%nat ->
  exists off m,
    expandCIDR fuel cidr
    = Ok (map (fun j => IP_String
                          (be_bytes 4 (network (AddrFrom4 v) p + off + Z.of_nat j)))
              (seq 0 m))
    /\ 0 <= off /\ off + Z.of_nat m <= 2 ^ (32 - p).
Proof.
  intros Hparse Hp1 Hfuel.
  pose proof (cidr_block_range _ _ _ Hparse) as Hp. cbn [BitLen] in Hp.
  assert (Hcount : block_count (AddrFrom4 v) p = 2 ^ (32 - p)) by reflexivity.
  rewrite (expandCIDR_block cidr (AddrFrom4 v) p fuel Hparse);
    [|cbn [finite_block]; apply Z.leb_le; assumption|rewrite Hcount; assumption].
  unfold block_addrs. rewrite Hcount. cbn [addr_len].
  rewrite length_map, length_seq, map_map.
  set (size := 2 ^ (32 - p)).
  assert (Hsize : 0 < size) by (apply Z.pow_pos_nonneg; lia).
  destruct (Nat.ltb_spec 2 (Z.to_nat size)) as [Hlt|Hge].
  - exists 1, (Z.to_nat size - 2)%nat. split; [|lia].
    rewrite strip_ends_map_seq. f_equal. apply map_ext. intro j. do 2 f_equal. lia.
  - exists 0, (Z.to_nat size). split; [|lia].
    f_equal. apply map_ext. intro j. do 2 f_equal. lia.
Qed.

(** X20. The targets of an IPv4 block are well formed and distinct: every
    text the expansion returns reads back, with [netip.ParseAddr], as an
    address of the block, and no target is listed twice. *)
Theorem expandCIDR_v4_targets_distinct (cidr : string) (v p : Z) (fuel : nat) :
  ParseCIDR cidr = Some (cidr_block (AddrFrom4 v) p) -> 1 <= p ->
  (Z.to_nat (2 ^ (32 - p)) < fuel)%nat ->
  exists ips,
    expandCIDR fuel cidr = Ok ips
    /\ NoDup ips
    /\ forall t, In t ips ->
         exists w, ParseAddr t = Some (AddrFrom4 w)
                   /\ network (AddrFrom4 v) p <= w
                      < network (AddrFrom4 v) p + 2 ^ (32 - p).
Proof.
  intros Hparse Hp1 Hfuel.
  destruct (v4_hosts_form cidr v p fuel Hparse Hp1 Hfuel) as (off & m & -> & Ho & Hm).
  pose proof (cidr_block_range _ _ _ Hparse) as Hp. cbn [BitLen] in Hp.
  pose proof (network_range (AddrFrom4 v) p Hp) as [Hn0 _].
  destruct (network_aligned (AddrFrom4 v) p Hp) as (c & Hc & Hcr).
  destruct (block_size_space (AddrFrom4 v) p Hp) as [Hd Hs].
  unfold block_size in Hc, Hd, Hs. cbn [BitLen addr_len] in Hc, Hd, Hs.
  change (256 ^ Z.of_nat 4) with (2 ^ 32) in Hs.
  set (n := network (AddrFrom4 v) p) in *. set (size := 2 ^ (32 - p)) in *.
  assert (Htop : n + size <= 2 ^ 32) by nia.
  assert (Hread : forall j, (j < m)%nat ->
            ParseAddr (IP_String (be_bytes 4 (n + off + Z.of_nat j)))
            = Some (AddrFrom4 (n + off + Z.of_nat j)))
    by (intros j Hj; apply IP_String_v4_parse; lia).
  eexists. split; [reflexivity|]. split.
  - apply NoDup_map_NoDup_ForallPairs; [|apply seq_NoDup].
    intros i j Hi Hj E. apply in_seq in Hi, Hj.
    apply (f_equal ParseAddr) in E. rewrite !Hread in E by lia.
    injection E as E. lia.
  - intros t Ht. apply in_map_iff in Ht. destruct Ht as (j & <- & Hj).
    apply in_seq in Hj. exists (n + off + Z.of_nat j).
    split; [apply Hread; lia|lia].
Qed.

(** X1. On an IPv6 block the expansion is the list of the addresses
    strictly between the first and the last address enumerated, in
    increasing order, when more than two addresses are enumerated, and the
    list of all addresses enumerated otherwise. The enumeration runs from
    the network address to the end of the block, or, when the block reaches
    the IPv4-mapped range from below, to the last address before
    [::ffff:0.0.0.0]. *)
Theorem expandCIDR_v6_hosts (cidr : string) (v : Z) (zone : string) (p : Z)
  (fuel : nat) :
  ParseCIDR cidr = Some (cidr_block (AddrFrom16 v zone) p) ->
  (Z.to_nat (block_count (AddrFrom16 v zone) p) < fuel)%nat ->
  block_count (AddrFrom16 v zone) p
  = (if meets_mapped (AddrFrom16 v zone) p
     then first_mapped - network (AddrFrom16 v zone) p
     else 2 ^ (128 - p))
  /\ expandCIDR fuel cidr
     = Ok (if (2 <? block_count (AddrFrom16 v zone) p)%Z
           then map (fun j => IP_String
                                (be_bytes 16 (network (AddrFrom16 v zone) p + 1
                                              + Z.of_nat j)))
                    (seq 0 (Z.to_nat (block_count (AddrFrom16 v zone) p - 2)))
           else map (fun j => IP_String
                                (be_bytes 16 (network (AddrFrom16 v zone) p
                                              + Z.of_nat j)))
                    (seq 0 (Z.to_nat (block_count (AddrFrom16 v zone) p)))).
Proof.
  intros Hparse Hfuel. split; [reflexivity|].
  pose proof (cidr_block_range _ _ _ Hparse) as Hp.
  pose proof (count_range (AddrFrom16 v zone) p Hp) as Hc.
  rewrite (expandCIDR_block cidr (AddrFrom16 v zone) p fuel Hparse eq_refl Hfuel).
  unfold block_addrs. cbn [addr_len].
  rewrite length_map, length_seq, map_map.
  set (count := block_count (AddrFrom16 v zone) p) in *.
  f_equal.
  destruct (Z.ltb_spec 2 count) as [Hlt|Hge].
  - destruct (Nat.ltb_spec 2 (Z.to_nat count)) as [_|Hge]; [|lia].
    rewrite strip_ends_map_seq.
    replace (Z.to_nat count - 2)%nat with (Z.to_nat (count - 2)) by lia.
    apply map_ext. intro j. do 2 f_equal. lia.
  - destruct (Nat.ltb_spec 2 (Z.to_nat count)) as [Hlt|_]; [lia|]. reflexivity.
Qed.

(** X21. The expansion does not look at the host bits of the base address:
    two CIDR texts of one family and one prefix length whose addresses lie
    in the same block expand to the same list of targets. *)
Theorem expandCIDR_ignores_host_bits (c1 c2 : string) (a1 a2 : Addr) (p : Z)
  (fuel : nat) :
  ParseCIDR c1 = Some (cidr_block a1 p) -> ParseCIDR c2 = Some (cidr_block a2 p) ->
  addr_len a1 = addr_len a2 -> network a1 p = network a2 p ->
  expandCIDR fuel c1 = expandCIDR fuel c2.
Proof.
  intros H1 H2 Hl Hn.
  pose proof (cidr_block_range _ _ _ H1) as Hp1.
  pose proof (cidr_block_range _ _ _ H2) as Hp2.
  unfold expandCIDR. rewrite H1, H2. unfold cidr_block. cbn [net_Mask].
  assert (Hb : BitLen a1 = BitLen a2) by (rewrite !addr_bits, Hl; reflexivity).
  rewrite !Mask_network by assumption.
  rewrite !CIDRMask_bytes by assumption.
  rewrite Hl, Hn.
  reflexivity.
Qed.

Lemma le_bytes_zero (n : nat) : le_bytes n 0 = repeat 0 n.
Proof.
  induction n as [|n IH]; [reflexivity|].
  cbn [le_bytes repeat]. rewrite Zmod_0_l, Zdiv_0_l, IH. reflexivity.
Qed.

Lemma le_bytes_ones (n : nat) : le_bytes n (256 ^ Z.of_nat n - 1) = repeat 255 n.
Proof.
  induction n as [|n IH]; [reflexivity|].
  cbn [le_bytes repeat]. rewrite pow256_succ.
  pose proof (pow256_pos n) as Hpos.
  replace ((256 * 256 ^ Z.of_nat n - 1) mod 256) with 255
    by (apply (Z.mod_unique _ _ (256 ^ Z.of_nat n - 1)); lia).
  replace ((256 * 256 ^ Z.of_nat n - 1) / 256) with (256 ^ Z.of_nat n - 1)
    by (apply (Z.div_unique _ _ _ 255); lia).
  rewrite IH. reflexivity.
Qed.

(** X23. [incrementIP] counts modulo [256 ^ len(ip)]: from any address,
    as many increments as there are addresses of its length lead back to
    the address, no smaller positive number of increments does, and the
    address of all [0xff] bytes is followed by the address of all zero
    bytes. This is why the loop of [expandCIDR] never leaves a block that
    holds every address. *)
Theorem incrementIP_wraps (ip : IP) :
  bytes_ok ip ->
  Nat.iter (Z.to_nat (256 ^ Z.of_nat (length ip))) incrementIP ip = ip
  /\ (forall k, (0 < k)%nat -> Z.of_nat k < 256 ^ Z.of_nat (length ip) ->
      Nat.iter k incrementIP ip <> ip)
  /\ incrementIP (repeat 255 (length ip)) = repeat 0 (length ip).
Proof.
  intro Hok. pose proof (be_bytes_be_val ip Hok) as E.
  pose proof (be_val_range ip Hok) as Hv.
  set (n := length ip) in *. set (v := be_val ip) in *.
  pose proof (pow256_pos n) as Hpos. set (M := 256 ^ Z.of_nat n) in *.
  split; [|split].
  - rewrite <- E. rewrite incrementIP_iter. apply be_bytes_eq_iff. fold M.
    rewrite Z2Nat.id by lia.
    replace (v + M) with (v + 1 * M) by lia. apply Z_mod_plus_full.
  - intros k Hk0 HkM. rewrite <- E. rewrite incrementIP_iter.
    intro H. apply be_bytes_eq_iff in H. fold M in H.
    rewrite (Z.mod_small v M) in H by lia.
    destruct (Z.lt_ge_cases (v + Z.of_nat k) M) as [Hlt|Hge].
    + rewrite Z.mod_small in H by lia. lia.
    + assert (Hm : v + Z.of_nat k - M = (v + Z.of_nat k) mod M)
        by (apply (Z.mod_unique _ _ 1); lia).
      lia.
  - assert (Hones : bytes_ok (repeat 255 n)).
    { apply Forall_forall. intros x Hx. apply repeat_spec in Hx. subst x.
      unfold is_byte. lia. }
    rewrite (incrementIP_be_bytes _ Hones). rewrite repeat_length.
    assert (Hval : be_val (repeat 255 n) = M - 1).
    { unfold be_val. rewrite rev_repeat, <- le_bytes_ones, le_val_le_bytes.
      fold M. apply Z.mod_small. lia. }
    rewrite Hval. replace (M - 1 + 1) with M by lia.
    unfold be_bytes. rewrite <- (le_bytes_mod n M). fold M.
    rewrite Z.mod_same by lia. rewrite le_bytes_zero. apply rev_repeat.
Qed.

End BlockTargets.

(* ================================================================= *)
(** * The latency text *)

Section Latency.

Import GoStrings Aggregator.
Local Open Scope list_scope.
Local Open Scope string_scope.

Lemma length_append (s t : string) :
  String.length (s ++ t) = (String.length s + String.length t)%nat.
Proof.
  induction s as [|c s IH]; [reflexivity|]. cbn [append String.length]. rewrite IH.
  reflexivity.
Qed.

Lemma uitoa_aux_append (fuel : nat) : forall (n : Z) (acc s : string),
  uitoa_aux fuel n acc ++ s = uitoa_aux fuel n (acc ++ s).
Proof.
  induction fuel as [|fuel IH]; intros n acc s; cbn [uitoa_aux]; [reflexivity|].
  destruct (n <=? 9)%Z; [reflexivity|]. rewrite IH. reflexivity.
Qed.

(** The digits [uitoa] writes, read by the loop of [dtoi]. *)
Lemma uitoa_aux_read (fuel : nat) : forall (n : Z) (acc : string),
  (0 <= n < 16777215)%Z -> (n < 10 ^ Z.of_nat (S fuel))%Z ->
  exists k, (1 <= k)%nat
    /\ String.length (uitoa_aux (S fuel) n acc) = (k + String.length acc)%nat
    /\ dtoi_loop (uitoa_aux (S fuel) n acc) 0 O = dtoi_loop acc n k.
Proof.
  assert (Hone : forall (d : Z) (acc : string) (m : Z) (i : nat),
            (0 <= d <= 9)%Z -> (m * 10 + d < 16777215)%Z ->
            dtoi_loop (String (digit d) acc) m i = dtoi_loop acc (m * 10 + d) (S i)).
  { intros d acc m i Hd Hm. destruct (digit_read d Hd) as (H1 & H2 & _).
    cbn [dtoi_loop]. rewrite H1. unfold GoNet.digit_val in H2. rewrite H2.
    destruct (Z.leb_spec 16777215 (m * 10 + d)); [lia|reflexivity]. }
  induction fuel as [|fuel IH]; intros n acc Hn Hf.
  - cbn [uitoa_aux]. change (10 ^ Z.of_nat 1)%Z with 10%Z in Hf.
    destruct (Z.leb_spec n 9) as [_|Hgt]; [|lia].
    exists 1%nat. split; [lia|]. split; [reflexivity|].
    rewrite Z.mod_small by lia. rewrite Hone by lia. reflexivity.
  - cbn [uitoa_aux]. fold (uitoa_aux (S fuel)).
    pose proof (Z.div_mod n 10 ltac:(lia)) as Hdm.
    pose proof (Z.mod_pos_bound n 10 ltac:(lia)) as Hmod.
    destruct (Z.leb_spec n 9) as [Hle|Hgt].
    + exists 1%nat. split; [lia|]. split; [reflexivity|].
      rewrite Z.mod_small by lia. rewrite Hone by lia. reflexivity.
    + assert (Hq : (0 <= n / 10 < 16777215)%Z) by lia.
      assert (Hqf : (n / 10 < 10 ^ Z.of_nat (S fuel))%Z).
      { rewrite (Nat2Z.inj_succ (S fuel)), Z.pow_succ_r in Hf by lia. lia. }
      destruct (IH (n / 10)%Z (String (digit (n mod 10)) acc) Hq Hqf)
        as (k & Hk & Hlen & Hread).
      exists (S k). split; [lia|]. split.
      * cbn [uitoa_aux] in Hlen |- *. rewrite Hlen. cbn [String.length]. lia.
      * cbn [uitoa_aux] in Hread |- *. rewrite Hread, Hone by lia.
        f_equal. lia.
Qed.

(** The fuel of [uitoa] covers the digits of its argument. *)
Lemma uitoa_fuel (n : Z) : (0 <= n)%Z -> (n < 10 ^ Z.of_nat (S (Z.to_nat (Z.log2 n))))%Z.
Proof.
  intro Hn. rewrite Nat2Z.inj_succ, Z2Nat.id by apply Z.log2_nonneg.
  destruct (Z.eq_dec n 0) as [->|Hne]; [reflexivity|].
  pose proof (Z.log2_spec n ltac:(lia)) as [_ Hlt].
  eapply Z.lt_le_trans; [exact Hlt|].
  apply Z.pow_le_mono_l. pose proof (Z.log2_nonneg n). lia.
Qed.

(** X24. The latency text of an answered probe is the number of whole
    milliseconds of the round trip in decimal digits, followed by [" ms"]:
    read with the decimal reader of package [net], the text gives this
    number back, and the reading ends three characters before the end. *)
Theorem latency_text_reads_back (d : Z) :
  (0 <= d)%Z -> (d / 1000000 < 16777215)%Z ->
  dtoi (ping_latency d)
  = ((d / 1000000)%Z, (String.length (ping_latency d) - 3)%nat, true)
  /\ (4 <= String.length (ping_latency d))%nat.
Proof.
  intros Hd Hms. unfold ping_latency, uitoa.
  set (ms := (d / 1000000)%Z) in *.
  assert (Hms0 : (0 <= ms)%Z) by (apply Z.div_pos; lia).
  rewrite uitoa_aux_append. cbn [append].
  destruct (uitoa_aux_read (Z.to_nat (Z.log2 ms)) ms " ms" ltac:(lia)
              (uitoa_fuel ms Hms0)) as (k & Hk & Hlen & Hread).
  unfold dtoi. rewrite Hread, Hlen. cbn [dtoi_loop String.length].
  change (isDigit " ") with false. cbn iota.
  destruct k as [|k]; [lia|]. cbn [Nat.eqb].
  split; [|lia]. do 2 f_equal. lia.
Qed.

End Latency.

(* ================================================================= *)
(** * From the expander to the probe *)

Section TargetFamilies.

Import GoStrings GoNet Expander.
Local Open Scope list_scope.
Local Open Scope string_scope.

Lemma Contains_colon_cons (c : ascii) (r : string) :
  GoStrings.Contains (String c r) ":" = is_colon c || GoStrings.Contains r ":".
Proof.
  cbn [GoStrings.Contains String.prefix]. unfold is_colon.
  destruct (ascii_dec ":" c) as [<-|Hne].
  - destruct r; reflexivity.
  - assert (E : Ascii.eqb c ":" = false) by (apply Ascii.eqb_neq; congruence).
    rewrite E. reflexivity.
Qed.

Lemma Contains_colon_app (s t : string) :
  GoStrings.Contains (s ++ t) ":"
  = GoStrings.Contains s ":" || GoStrings.Contains t ":".
Proof.
  induction s as [|c s IH]; [reflexivity|].
  cbn [append]. rewrite !Contains_colon_cons, IH. apply orb_assoc.
Qed.

Lemma byte_text_no_colon (x : Z) :
  is_byte x -> GoStrings.Contains (byte_text x) ":" = false.
Proof.
  intro Hx.
  destruct (byte_text_cases x Hx)
    as [(d0 & -> & H0 & _)|[(d1 & d0 & -> & H1 & H0 & _)
                            |(d2 & d1 & d0 & -> & H2 & H1 & H0 & _)]];
    rewrite !Contains_colon_cons;
    repeat match goal with
      | |- context [is_colon (digit ?d)] =>
          let H := fresh in
          destruct (digit_read d ltac:(lia)) as (_ & _ & _ & H & _);
          rewrite H; clear H
      end;
    reflexivity.
Qed.

(** The text of an IPv4 address holds no colon. *)
Lemma dotted_no_colon (w : Z) :
  GoStrings.Contains (dotted (be_bytes 4 w)) ":" = false.
Proof.
  pose proof (be_bytes_length 4 w) as Hl. pose proof (be_bytes_ok 4 w) as Hok.
  destruct (be_bytes 4 w) as [|a [|b [|c [|d [|e l]]]]]; try discriminate Hl.
  unfold bytes_ok in Hok.
  inversion Hok as [|? ? Ha Hok1]; subst. inversion Hok1 as [|? ? Hb Hok2]; subst.
  inversion Hok2 as [|? ? Hc Hok3]; subst. inversion Hok3 as [|? ? Hd _]; subst.
  unfold dotted. rewrite !uitoa_byte by assumption.
  rewrite !Contains_colon_app, !byte_text_no_colon by assumption. reflexivity.
Qed.

Lemma print6_S (fuel : nat) (g : list Z) (i zs ze : nat) :
  print6 (S fuel) g i zs ze
  = if Nat.leb 8 i then ""
    else if Nat.eqb i zs
         then "::" ++ (if Nat.leb 8 ze then ""
                       else appendHex (nth ze g 0) ++ print6 fuel g (S ze) zs ze)
         else (if Nat.ltb 0 i then ":" else "")
              ++ appendHex (nth i g 0) ++ print6 fuel g (S i) zs ze.
Proof. reflexivity. Qed.

(** The text of an IPv6 address holds a colon. *)
Lemma string6_colon (ip : list byte) : GoStrings.Contains (string6 ip) ":" = true.
Proof.
  unfold string6. destruct (longestZeros (fields16 ip) 0 255 255) as [zs ze].
  rewrite (print6_S 7). change (Nat.leb 8 0) with false. cbv iota.
  destruct (Nat.eqb 0 zs); [rewrite Contains_colon_app; reflexivity|].
  change (Nat.ltb 0 0) with false. cbv iota.
  rewrite (print6_S 6). change (Nat.leb 8 1) with false. cbv iota.
  rewrite !Contains_colon_app.
  destruct (Nat.eqb 1 zs).
  - rewrite Contains_colon_app. change (GoStrings.Contains "::" ":") with true.
    rewrite !orb_true_r. reflexivity.
  - change (Nat.ltb 0 1) with true. cbv iota. rewrite Contains_colon_app.
    change (GoStrings.Contains ":" ":") with true. rewrite !orb_true_r. reflexivity.
Qed.

Lemma IP_String_16 (w : Z) :
  0 <= w < 2 ^ 128 ->
  IP_String (be_bytes 16 w)
  = if mapped w then dotted (be_bytes 4 w) else string6 (be_bytes 16 w).
Proof.
  intro Hw. unfold IP_String. rewrite be_bytes_length. cbn [Nat.eqb negb andb].
  rewrite To4_v6 by assumption. destruct (mapped w); reflexivity.
Qed.

Lemma In_strip_ends (x : string) (l : list string) : In x (strip_ends l) -> In x l.
Proof.
  unfold strip_ends. intro H.
  rewrite <- (firstn_skipn 1 l). apply in_or_app. right.
  rewrite <- (firstn_skipn (length l - 2) (skipn 1 l)). apply in_or_app. left.
  exact H.
Qed.

(** What the loop of [expandCIDR] is run on. *)
Lemma cidr_block_loop (a : Addr) (p : Z) :
  0 <= p <= BitLen a ->
  Mask (fst (cidr_block a p)) (net_Mask (snd (cidr_block a p)))
  = be_bytes (addr_len a) (network a p)
  /\ snd (cidr_block a p)
     = mkIPNet (be_bytes (addr_len a) (network a p)) (mask_bytes p (addr_len a)).
Proof.
  intro Hp. unfold cidr_block. cbn [fst snd net_Mask].
  rewrite (Mask_network a p Hp), (CIDRMask_bytes a p Hp). split; reflexivity.
Qed.

Lemma count_positive (a : Addr) (p : Z) :
  0 <= p <= BitLen a -> 0 < block_count a p.
Proof.
  intro Hp. destruct (block_size_space a p Hp) as [Hd _].
  unfold block_count. destruct (meets_mapped a p) eqn:E; [|exact Hd].
  destruct a as [v|v z]; [discriminate|]. cbn [meets_mapped] in E.
  apply andb_true_iff in E. destruct E as [E _].
  apply andb_true_iff in E. destruct E as [Hm Hle].
  apply Z.leb_le in Hle. apply negb_true_iff in Hm.
  destruct (Z.eq_dec (network (AddrFrom16 v z) p) first_mapped) as [Heq|Hne]; [|lia].
  rewrite Heq in Hm. discriminate Hm.
Qed.

(** The addresses the loop of [expandCIDR] has appended when it ends. *)
Lemma expandCIDR_Ok_inv (fuel : nat) (cidr : string) (a : Addr) (p : Z)
  (ips : list string) :
  ParseCIDR cidr = Some (cidr_block a p) -> expandCIDR fuel cidr = Ok ips ->
  exists k,
    (1 <= k)%nat
    /\ (forall j, (j < k)%nat ->
        Contains (mkIPNet (be_bytes (addr_len a) (network a p))
                          (mask_bytes p (addr_len a)))
                 (be_bytes (addr_len a) (network a p + Z.of_nat j)) = true)
    /\ ips = (if Nat.ltb 2 k then strip_ends else fun l => l)
               (map (fun j => IP_String
                                (be_bytes (addr_len a) (network a p + Z.of_nat j)))
                    (seq 0 k)).
Proof.
  intros Hparse Hexp. pose proof (cidr_block_range _ _ _ Hparse) as Hp.
  destruct (cidr_block_loop a p Hp) as [Hstart Hnet].
  unfold expandCIDR in Hexp. rewrite Hparse in Hexp.
  destruct (cidr_block a p) as [ip ipnet] eqn:Ecb. cbn [fst snd] in Hstart, Hnet.
  rewrite Hstart, Hnet in Hexp.
  destruct (expand_loop fuel _ _ []) as [l|] eqn:El; [|discriminate Hexp].
  apply expand_loop_inv in El. destruct El as (k & _ & Hin & Hout & ->).
  cbn [app] in Hexp.
  assert (Hvis : map IP_String (visited (be_bytes (addr_len a) (network a p)) k)
                 = map (fun j => IP_String
                                   (be_bytes (addr_len a) (network a p + Z.of_nat j)))
                       (seq 0 k)).
  { unfold visited. rewrite map_map. apply map_ext. intro j.
    rewrite incrementIP_iter. reflexivity. }
  rewrite Hvis in Hexp. rewrite length_map, length_seq in Hexp.
  exists k. split; [|split].
  - destruct k as [|k]; [|lia]. exfalso.
    rewrite iter_O in Hout.
    destruct (finite_block a p) eqn:Hfin.
    + destruct (Contains_block a p Hp Hfin) as [Hc _].
      rewrite Ecb in Hc. cbn [snd] in Hc. rewrite Hnet in Hc.
      specialize (Hc 0 ltac:(pose proof (count_positive a p Hp); lia)).
      rewrite Z.add_0_r in Hc. rewrite Hc in Hout. discriminate Hout.
    + destruct a as [v|v z]; [|discriminate Hfin]. cbn [finite_block] in Hfin.
      apply Z.leb_gt in Hfin. cbn [BitLen addr_len] in *.
      pose proof (network_range (AddrFrom4 v) p Hp) as [Hn0 Hn1].
      cbn [addr_len] in Hn1. change (256 ^ Z.of_nat 4) with (2 ^ 32) in Hn1.
      rewrite Contains_v4 in Hout by lia.
      rewrite Z.eqb_refl in Hout. discriminate Hout.
  - intros j Hj. specialize (Hin j Hj). rewrite incrementIP_iter in Hin. exact Hin.
  - destruct (Nat.ltb 2 k); injection Hexp as <-; reflexivity.
Qed.

(** X26. The family [ping] selects for a target of a block is the family
    of the text [IP.String] has given it: every target of an IPv4 block is
    probed over IPv4, and every target of an IPv6 block over IPv6, except
    that the targets of an IPv6 block of IPv4-mapped addresses are written
    in dotted form and so are probed over IPv4. *)
Theorem expanded_targets_family (fuel : nat) (cidr : string) (a : Addr) (p : Z)
  (ips : list string) (t : string) :
  ParseCIDR cidr = Some (cidr_block a p) -> expandCIDR fuel cidr = Ok ips ->
  In t ips ->
  Prober.family_of t
  = match a with
    | AddrFrom4 _ => Prober.V4
    | AddrFrom16 _ _ => if mapped (network a p) then Prober.V4 else Prober.V6
    end.
Proof.
  intros Hparse Hexp Ht. pose proof (cidr_block_range _ _ _ Hparse) as Hp.
  destruct (expandCIDR_Ok_inv fuel cidr a p ips Hparse Hexp) as (k & _ & Hin & ->).
  assert (Ht' : In t (map (fun j => IP_String
                             (be_bytes (addr_len a) (network a p + Z.of_nat j)))
                          (seq 0 k)))
    by (destruct (Nat.ltb 2 k); [apply In_strip_ends|]; exact Ht).
  apply in_map_iff in Ht'. destruct Ht' as (j & <- & Hj). apply in_seq in Hj.
  specialize (Hin j ltac:(lia)). unfold Prober.family_of.
  pose proof (network_range a p Hp) as [Hn0 Hn1].
  destruct a as [v|v z]; cbn [addr_len BitLen] in *.
  - change (IP_String (be_bytes 4 (network (AddrFrom4 v) p + Z.of_nat j)))
      with (dotted (be_bytes 4 (network (AddrFrom4 v) p + Z.of_nat j))).
    rewrite dotted_no_colon. reflexivity.
  - change (256 ^ Z.of_nat 16) with (2 ^ 128) in Hn1.
    destruct (network_aligned (AddrFrom16 v z) p Hp) as (c & Hc & _).
    set (n := network (AddrFrom16 v z) p) in *.
    rewrite <- (be_bytes_mod 16 (n + Z.of_nat j)) in Hin |- *.
    change (256 ^ Z.of_nat 16) with (2 ^ 128) in Hin |- *.
    pose proof (Z.mod_pos_bound (n + Z.of_nat j) (2 ^ 128) ltac:(lia)) as Hw.
    set (w := (n + Z.of_nat j) mod 2 ^ 128) in *.
    rewrite Contains_v6 in Hin; try lia.
    2:{ rewrite Hc. unfold block_size. cbn [BitLen]. apply Z.mod_mul.
        apply Z.pow_nonzero; lia. }
    apply andb_true_iff in Hin. destruct Hin as [Hm _].
    apply eqb_prop in Hm. rewrite IP_String_16 by lia. rewrite <- Hm.
    destruct (mapped n).
    + rewrite dotted_no_colon. reflexivity.
    + rewrite string6_colon. reflexivity.
Qed.

(** X27. A block that is expanded contributes at least one target: the
    network address always lies in its own block, so the list the loop
    builds is not empty, and the two ends are dropped only from a list of
    more than two addresses. *)
Theorem expandCIDR_never_empty (fuel : nat) (cidr : string) (ips : list string) :
  expandCIDR fuel cidr = Ok ips -> (1 <= length ips)%nat.
Proof.
  intro Hexp.
  assert (Hparse : exists a p, ParseCIDR cidr = Some (cidr_block a p)).
  { unfold expandCIDR in Hexp.
    destruct (ParseCIDR cidr) as [[ip ipnet]|] eqn:E; [|discriminate Hexp].
    destruct (ParseCIDR_inv _ _ _ E) as (a & p & _ & ->). exists a, p. reflexivity. }
  destruct Hparse as (a & p & Hparse).
  destruct (expandCIDR_Ok_inv fuel cidr a p ips Hparse Hexp) as (k & Hk & _ & ->).
  destruct (Nat.ltb_spec 2 k) as [Hlt|Hge].
  - rewrite strip_ends_map_seq, length_map, length_seq. lia.
  - rewrite length_map, length_seq. exact Hk.
Qed.

End TargetFamilies.

(* ================================================================= *)
(** * What the limit does not bound *)

Section Bursts.

Import Aggregator Scheduler Schedule.
Local Open Scope nat_scope.

Variable maxThreads : nat.
Variable net : nat -> pong.
Variable outFile : string.
Variable sys : system.

Lemma nth_error_last (A : Type) (l : list A) (x : A) :
  nth_error (l ++ [x]) (length l) = Some x.
Proof. rewrite nth_error_app2, Nat.sub_diag by apply le_n. reflexivity. Qed.

Lemma replace_last (g : list (task * phase)) (x y : task * phase) :
  replace_at (length g) y (g ++ [x]) = g ++ [y].
Proof.
  unfold replace_at. rewrite firstn_app, firstn_all, Nat.sub_diag. cbn [firstn].
  rewrite app_nil_r. rewrite skipn_all2 by (rewrite length_app; cbn [length]; lia).
  reflexivity.
Qed.

Lemma burst_runs (p : list task) : forall (g : list (task * phase)) (c : list result)
  (w : nat) (o : list event),
  1 <= maxThreads -> Forall released g ->
  exists s',
    exec maxThreads net outFile sys (burst (length g) (length p))
      (mkState p None 0 g c w o false) = Some s'
    /\ pending s' = [] /\ holding s' = None /\ sem s' = 0 /\ exited s' = false
    /\ length (gs s') = length g + length p /\ Forall released (gs s').
Proof.
  induction p as [|[i addr] rest IH]; intros g c w o HN Hg.
  - eexists. split; [reflexivity|]. cbn [pending holding sem exited gs length].
    repeat split; try lia. exact Hg.
  - cbn [length burst app exec].
    unfold exec1 at 1. cbn [exited pending holding sem].
    destruct (Nat.ltb_spec 0 maxThreads) as [_|Hge]; [|lia].
    unfold exec1 at 1. cbn [exited holding pending sem gs chan wg out].
    unfold exec1 at 1. cbn [exited gs]. rewrite nth_error_last.
    assert (Hg' : Forall released (g ++ [((i, addr), Released)]))
      by (apply Forall_app; split; [exact Hg|repeat constructor]).
    assert (Hl : length (g ++ [((i, addr), Released)]) = S (length g))
      by (rewrite length_app; cbn [length]; lia).
    destruct (net i) as [d|err];
      cbn [pending holding sem gs chan wg out]; rewrite replace_last;
      unfold exec1 at 1; cbn [exited gs]; rewrite nth_error_last;
      cbn [pending holding sem gs chan wg out pred]; rewrite replace_last;
      rewrite <- Hl;
      match goal with
      | |- context [mkState rest None 0 _ ?c' w ?o' false] =>
          destruct (IH (g ++ [((i, addr), Released)]) c' w o' HN Hg')
            as (s' & Hs & Hp & Hh & Hsem & He & Hlen & Hall)
      end;
      exists s'; (split; [exact Hs|]); repeat split; try assumption; lia.
Qed.

(** X28. The limit bounds the probes in flight, not the goroutines alive:
    a goroutine gives its slot back before it calls [wg.Done()] and prints
    its progress line, so whatever the limit there is a run in which the
    goroutines of all targets are alive at once, each with its slot given
    back, while the semaphore is empty. *)
Theorem goroutines_outnumber_slots (ips : list string) :
  1 <= maxThreads ->
  exists s,
    Scheduler.reachable maxThreads net outFile sys ips s
    /\ length (gs s) = length ips
    /\ Forall released (gs s)
    /\ sem s = 0 /\ in_flight s = 0.
Proof.
  intro HN.
  destruct (burst_runs (number_from 0 ips) [] [] (length ips) [] HN (Forall_nil _))
    as (s & Hs & Hp & Hh & Hsem & He & Hlen & Hall).
  exists s.
  assert (Hr : Scheduler.reachable maxThreads net outFile sys ips s).
  { apply (exec_reachable maxThreads net outFile sys ips
             (burst 0 (length (number_from 0 ips))) (init ips));
      [apply reach_init|exact Hs]. }
  split; [exact Hr|]. split; [rewrite Hlen, number_from_length; reflexivity|].
  split; [exact Hall|]. split; [exact Hsem|].
  destruct (reachable_invariant maxThreads net outFile sys ips s Hr) as [Hinv _ _].
  unfold held in Hinv. rewrite Hh in Hinv. lia.
Qed.

End Bursts.

(* ================================================================= *)
(** * The theorems on concrete inputs *)

Section Instances.

Import GoStrings GoNet Expander Aggregator Prober Scheduler Schedule.
Local Open Scope string_scope.
Local Open Scope list_scope.

(** The hosts of [2001:db8::/126]. *)
Lemma expandCIDR_v6_hosts_witness :
  ParseCIDR "2001:db8::/126"
  = Some (cidr_block (AddrFrom16 (536939960 * 2 ^ 96) "") 126)
  /\ expandCIDR 5 "2001:db8::/126" = Ok ["2001:db8::1"; "2001:db8::2"].
Proof.
  assert (H : ParseCIDR "2001:db8::/126"
              = Some (cidr_block (AddrFrom16 (536939960 * 2 ^ 96) "") 126))
    by (vm_compute; reflexivity).
  split; [exact H|].
  destruct (expandCIDR_v6_hosts "2001:db8::/126" (536939960 * 2 ^ 96) "" 126 5 H
              ltac:(vm_compute; lia)) as [_ E].
  rewrite E. vm_compute. reflexivity.
Defined.

(** An echo request of the destination comes before its echo reply, and
    it is the request that decides. *)
Lemma ping_first_reply_decides_witness :
  Forall (fun s => peer s <> "127.0.0.1") [mkDatagram "10.0.0.9" 100000 (inl 0)]
  /\ fst (ping some_names "127.0.0.1" loopback)
     = failure "接收到未知的ICMP消息类型: " "echo".
Proof.
  assert (Hs : Forall (fun s => peer s <> "127.0.0.1")
                 [mkDatagram "10.0.0.9" 100000 (inl 0)])
    by (repeat constructor; discriminate).
  split; [exact Hs|].
  rewrite (ping_first_reply_decides some_names "127.0.0.1" "127.0.0.1" loopback
             [mkDatagram "10.0.0.9" 100000 (inl 0)]
             (mkDatagram "127.0.0.1" 200000 (inl 8))
             [mkDatagram "127.0.0.1" 300000 (inl 0)]
             eq_refl eq_refl eq_refl eq_refl eq_refl Hs eq_refl).
  reflexivity.
Defined.

(** A probe answered after 5 ms behind a datagram of another host. *)
Lemma ping_success_needs_echo_reply_witness :
  ping some_names "10.0.0.1"
    (answered V4 "10.0.0.1" [mkDatagram "10.0.0.9" 100000 (inl 3)] 5000000)
  = (("5 ms", 5000000, None),
     [ListenPacket "ip4:icmp" "0.0.0.0" true; ResolveIPAddr "ip4" "10.0.0.1" true;
      WriteTo (ICMPv4 8) "10.0.0.1" true; SetReadDeadline; ReadFrom true;
      ReadFrom true; Close])
  /\ exists dst strays d rest,
       listen_err (answered V4 "10.0.0.1" [mkDatagram "10.0.0.9" 100000 (inl 3)]
                     5000000) = None
       /\ marshal_err (answered V4 "10.0.0.1" [mkDatagram "10.0.0.9" 100000 (inl 3)]
                         5000000) = None
       /\ resolved (answered V4 "10.0.0.1" [mkDatagram "10.0.0.9" 100000 (inl 3)]
                      5000000) = inl dst
       /\ write_err (answered V4 "10.0.0.1" [mkDatagram "10.0.0.9" 100000 (inl 3)]
                       5000000) = None
       /\ arrivals (answered V4 "10.0.0.1" [mkDatagram "10.0.0.9" 100000 (inl 3)]
                      5000000) = strays ++ d :: rest
       /\ Forall (fun s => peer s <> dst) strays /\ peer d = dst
       /\ parsed d = inl (match family_of "10.0.0.1" with V4 => 0 | V6 => 129 end)
       /\ 5000000 = since d /\ "5 ms" = ping_latency 5000000.
Proof.
  assert (H : ping some_names "10.0.0.1"
                (answered V4 "10.0.0.1" [mkDatagram "10.0.0.9" 100000 (inl 3)] 5000000)
              = (("5 ms", 5000000, None),
                 [ListenPacket "ip4:icmp" "0.0.0.0" true;
                  ResolveIPAddr "ip4" "10.0.0.1" true;
                  WriteTo (ICMPv4 8) "10.0.0.1" true; SetReadDeadline;
                  ReadFrom true; ReadFrom true; Close]))
    by (vm_compute; reflexivity).
  split; [exact H|].
  exact (ping_success_needs_echo_reply some_names _ _ _ _ _ H).
Defined.

(** Only another host is heard: the probe fails at the deadline. *)
Lemma ping_without_reply_fails_witness :
  Forall (fun s => peer s <> "10.0.0.1") (arrivals unanswered)
  /\ fst (ping some_names "10.0.0.1" unanswered)
     = failure "接收ICMP回复失败: " "i/o timeout".
Proof.
  assert (Hs : Forall (fun s => peer s <> "10.0.0.1") (arrivals unanswered))
    by (repeat constructor; discriminate).
  split; [exact Hs|].
  rewrite (ping_without_reply_fails some_names "10.0.0.1" "10.0.0.1" unanswered
             eq_refl eq_refl eq_refl eq_refl Hs).
  reflexivity.
Defined.

(** The first [k] steps of the run [overlapping]. *)
Lemma overlapping_prefix (k : nat) (s : state) :
  exec 2 mixed_net "ip.csv" quiet_system (firstn k overlapping) (init three_targets)
  = Some s ->
  reachable 2 mixed_net "ip.csv" quiet_system three_targets s.
Proof.
  apply (exec_reachable 2 mixed_net "ip.csv" quiet_system three_targets
           (firstn k overlapping) (init three_targets)).
  apply reach_init.
Defined.

Lemma results_complete_witness :
  exists s,
    exec 2 mixed_net "ip.csv" quiet_system overlapping (init three_targets) = Some s
    /\ exited s = true
    /\ Permutation (chan s) (successes mixed_net three_targets).
Proof.
  eexists. split; [vm_compute; reflexivity|]. split; [reflexivity|].
  apply (results_complete 2 mixed_net "ip.csv" quiet_system three_targets);
    [|reflexivity].
  apply (overlapping_prefix 16). vm_compute. reflexivity.
Defined.

Lemma result_channel_has_room_witness :
  exists s,
    exec 2 mixed_net "ip.csv" quiet_system (firstn 10 overlapping) (init three_targets)
    = Some s
    /\ (length (chan s) <= length three_targets)%nat
    /\ forall i addr d before after,
         gs s = before ++ ((i, addr), Pinging) :: after -> mixed_net i = Echo d ->
         (length (chan s) < length three_targets)%nat.
Proof.
  eexists. split; [vm_compute; reflexivity|].
  apply (result_channel_has_room 2 mixed_net "ip.csv" quiet_system three_targets).
  apply (overlapping_prefix 10). vm_compute. reflexivity.
Defined.


Lemma deferred_never_blocks_witness :
  exists s,
    exec 2 mixed_net "ip.csv" quiet_system (firstn 6 overlapping) (init three_targets)
    = Some s
    /\ (forall before t after, gs s = before ++ (t, Deferred) :: after ->
        (0 < sem s)%nat)
    /\ (forall before t after, gs s = before ++ (t, Released) :: after ->
        (0 < wg s)%nat).
Proof.
  eexists. split; [vm_compute; reflexivity|].
  apply (deferred_never_blocks 2 mixed_net "ip.csv" quiet_system three_targets).
  apply (overlapping_prefix 6). vm_compute. reflexivity.
Defined.

Lemma dispatch_in_order_witness :
  exists s,
    exec 2 mixed_net "ip.csv" quiet_system (firstn 3 overlapping) (init three_targets)
    = Some s
    /\ in_order three_targets s.
Proof.
  eexists. split; [vm_compute; reflexivity|].
  apply (dispatch_in_order 2 mixed_net "ip.csv" quiet_system three_targets).
  apply (overlapping_prefix 3). vm_compute. reflexivity.
Defined.

Lemma zero_limit_deadlock_witness :
  O = O /\ three_targets <> []
  /\ init three_targets = init three_targets
  /\ forall s', ~ step 0 mixed_net "ip.csv" quiet_system (init three_targets) s'.
Proof.
  assert (Hne : three_targets <> []) by discriminate.
  split; [reflexivity|]. split; [exact Hne|].
  apply (zero_limit_deadlock 0 mixed_net "ip.csv" quiet_system three_targets
           (init three_targets) eq_refl Hne).
  apply reach_init.
Defined.

Lemma csv_lists_answered_probes_witness :
  exists s,
    exec 2 mixed_net "ip.csv" quiet_system overlapping (init three_targets) = Some s
    /\ rows (out s) = [header; ["10.0.0.3"; "10 ms"]; ["10.0.0.1"; "30 ms"]]
    /\ create_err quiet_system = None
    /\ successes mixed_net three_targets <> []
    /\ exists results,
         rows (out s) = header :: map (fun res => [ip res; latency res]) results
         /\ Permutation results (successes mixed_net three_targets)
         /\ StronglySorted by_duration results.
Proof.
  assert (Hne : successes mixed_net three_targets <> [])
    by (vm_compute; discriminate).
  eexists. split; [vm_compute; reflexivity|].
  split; [vm_compute; reflexivity|]. split; [reflexivity|]. split; [exact Hne|].
  apply (csv_lists_answered_probes 2 mixed_net "ip.csv" quiet_system three_targets);
    [|reflexivity|reflexivity|exact Hne].
  apply (overlapping_prefix 16). vm_compute. reflexivity.
Defined.

Lemma every_run_ends_witness :
  (1 <= 2)%nat
  /\ run_of 2 mixed_net "ip.csv" quiet_system three_targets 1
       (mkState (number_from 1 ["10.0.0.2"; "10.0.0.3"]) (Some (O, "10.0.0.1")) 1 []
          [] 3 [] false)
  /\ (1 + work_left (mkState (number_from 1 ["10.0.0.2"; "10.0.0.3"])
                       (Some (O, "10.0.0.1")) 1 [] [] 3 [] false)
      = 5 * length three_targets + 1)%nat.
Proof.
  assert (HN : (1 <= 2)%nat) by (repeat constructor).
  assert (Hrun : run_of 2 mixed_net "ip.csv" quiet_system three_targets 1
                   (mkState (number_from 1 ["10.0.0.2"; "10.0.0.3"])
                      (Some (O, "10.0.0.1")) 1 [] [] 3 [] false)).
  { apply (run_step 2 mixed_net "ip.csv" quiet_system three_targets 0
             (init three_targets)); [apply run_init|].
    apply (step_acquire 2 mixed_net "ip.csv" quiet_system (O, "10.0.0.1")
             (number_from 1 ["10.0.0.2"; "10.0.0.3"]) (init three_targets));
      try reflexivity.
    repeat constructor. }
  split; [exact HN|]. split; [exact Hrun|].
  exact (proj1 (every_run_ends 2 mixed_net "ip.csv" quiet_system three_targets 1 _
                  HN Hrun)).
Defined.

(** A block, a literal address and a line that is rejected. *)
Lemma readIPs_concatenates_witness :
  readIPs 5 (Lines ["10.0.0.0/30"; "10.0.0.0/abc"] None)
  = (Ok ["10.0.0.1"; "10.0.0.2"],
     [parse_msg "10.0.0.0/abc" (ParseCIDR_error "10.0.0.0/abc")])
  /\ readIPs 5 (Lines [" 192.168.1.1 "] None) = (Ok ["192.168.1.1"], [])
  /\ readIPs 5 (Lines (["10.0.0.0/30"; "10.0.0.0/abc"] ++ [" 192.168.1.1 "]) None)
     = (Ok (["10.0.0.1"; "10.0.0.2"] ++ ["192.168.1.1"]),
        [parse_msg "10.0.0.0/abc" (ParseCIDR_error "10.0.0.0/abc")] ++ []).
Proof.
  assert (H1 : readIPs 5 (Lines ["10.0.0.0/30"; "10.0.0.0/abc"] None)
               = (Ok ["10.0.0.1"; "10.0.0.2"],
                  [parse_msg "10.0.0.0/abc" (ParseCIDR_error "10.0.0.0/abc")]))
    by (vm_compute; reflexivity).
  assert (H2 : readIPs 5 (Lines [" 192.168.1.1 "] None) = (Ok ["192.168.1.1"], []))
    by (vm_compute; reflexivity).
  split; [exact H1|]. split; [exact H2|].
  exact (readIPs_concatenates 5 _ _ _ _ _ _ H1 H2).
Defined.

Lemma readIPs_reports_rejected_lines_witness :
  readIPs 5 (Lines ["10.0.0.0/abc"; "10.0.0.1"; "10.0.0.0/33"; "10.0.0.0/31"]
               (Some "read error"))
  = (Error "read error",
     [parse_msg "10.0.0.0/abc" (ParseCIDR_error "10.0.0.0/abc");
      parse_msg "10.0.0.0/33" (ParseCIDR_error "10.0.0.0/33")])
  /\ Error "read error" <> (NoFuel : outcome (list string))
  /\ [parse_msg "10.0.0.0/abc" (ParseCIDR_error "10.0.0.0/abc");
      parse_msg "10.0.0.0/33" (ParseCIDR_error "10.0.0.0/33")]
     = map (fun l => parse_msg l (ParseCIDR_error l))
         (filter rejected
            (map TrimSpace ["10.0.0.0/abc"; "10.0.0.1"; "10.0.0.0/33"; "10.0.0.0/31"])).
Proof.
  assert (H : readIPs 5 (Lines ["10.0.0.0/abc"; "10.0.0.1"; "10.0.0.0/33";
                                "10.0.0.0/31"] (Some "read error"))
              = (Error "read error",
                 [parse_msg "10.0.0.0/abc" (ParseCIDR_error "10.0.0.0/abc");
                  parse_msg "10.0.0.0/33" (ParseCIDR_error "10.0.0.0/33")]))
    by (vm_compute; reflexivity).
  assert (Hr : Error "read error" <> (NoFuel : outcome (list string)))
    by discriminate.
  split; [exact H|]. split; [exact Hr|].
  exact (proj1 (readIPs_reports_rejected_lines 5 _ _ _ _ H Hr)).
Defined.

(** Nothing checks that a line without a slash is an address. *)
Lemma readIPs_plain_file_witness :
  Forall (fun l => GoStrings.Contains (TrimSpace l) "/" = false) ["10.0.0.1 "; "localhost"; ""]
  /\ readIPs 0 (Lines ["10.0.0.1 "; "localhost"; ""] None)
     = (Ok ["10.0.0.1"; "localhost"; ""], []).
Proof.
  assert (H : Forall (fun l => GoStrings.Contains (TrimSpace l) "/" = false)
                ["10.0.0.1 "; "localhost"; ""])
    by (repeat constructor).
  split; [exact H|].
  exact (readIPs_plain_file 0 _ H).
Defined.

Lemma expandCIDR_v4_targets_distinct_witness :
  ParseCIDR "10.1.2.3/30" = Some (cidr_block (AddrFrom4 167838211) 30)
  /\ exists ips,
       expandCIDR 5 "10.1.2.3/30" = Ok ips
       /\ NoDup ips
       /\ forall t, In t ips ->
            exists w, ParseAddr t = Some (AddrFrom4 w)
                      /\ (network (AddrFrom4 167838211) 30 <= w
                          < network (AddrFrom4 167838211) 30 + 2 ^ (32 - 30))%Z.
Proof.
  assert (H : ParseCIDR "10.1.2.3/30" = Some (cidr_block (AddrFrom4 167838211) 30))
    by (vm_compute; reflexivity).
  split; [exact H|].
  apply (expandCIDR_v4_targets_distinct "10.1.2.3/30" 167838211 30 5 H);
    [lia|vm_compute; lia].
Defined.

Lemma expandCIDR_ignores_host_bits_witness :
  ParseCIDR "10.1.2.3/30" = Some (cidr_block (AddrFrom4 167838211) 30)
  /\ ParseCIDR "10.1.2.0/30" = Some (cidr_block (AddrFrom4 167838208) 30)
  /\ network (AddrFrom4 167838211) 30 = network (AddrFrom4 167838208) 30
  /\ expandCIDR 5 "10.1.2.3/30" = expandCIDR 5 "10.1.2.0/30".
Proof.
  assert (H1 : ParseCIDR "10.1.2.3/30" = Some (cidr_block (AddrFrom4 167838211) 30))
    by (vm_compute; reflexivity).
  assert (H2 : ParseCIDR "10.1.2.0/30" = Some (cidr_block (AddrFrom4 167838208) 30))
    by (vm_compute; reflexivity).
  assert (Hn : network (AddrFrom4 167838211) 30 = network (AddrFrom4 167838208) 30)
    by (vm_compute; reflexivity).
  split; [exact H1|]. split; [exact H2|]. split; [exact Hn|].
  exact (expandCIDR_ignores_host_bits _ _ _ _ 30 5 H1 H2 eq_refl Hn).
Defined.

Lemma incrementIP_wraps_witness :
  bytes_ok [10; 255]
  /\ Nat.iter (Z.to_nat (256 ^ Z.of_nat 2)) incrementIP [10; 255] = [10; 255]
  /\ incrementIP [255; 255] = [0; 0].
Proof.
  assert (H : bytes_ok [10; 255]) by (repeat constructor; unfold is_byte; lia).
  split; [exact H|]. split.
  - exact (proj1 (incrementIP_wraps [10; 255] H)).
  - exact (proj2 (proj2 (incrementIP_wraps [10; 255] H))).
Defined.

Lemma latency_text_reads_back_witness :
  (0 <= 5000000)%Z /\ (5000000 / 1000000 < 16777215)%Z
  /\ dtoi (ping_latency 5000000) = (5%Z, 1%nat, true).
Proof.
  assert (H1 : (0 <= 5000000)%Z) by lia.
  assert (H2 : (5000000 / 1000000 < 16777215)%Z) by (vm_compute; reflexivity).
  split; [exact H1|]. split; [exact H2|].
  exact (proj1 (latency_text_reads_back 5000000 H1 H2)).
Defined.


(** The targets of a block of IPv4-mapped addresses are probed over IPv4. *)
Lemma expanded_targets_family_witness :
  ParseCIDR "::ffff:10.0.0.0/127"
  = Some (cidr_block (AddrFrom16 (65535 * 2 ^ 32 + 167772160) "") 127)
  /\ expandCIDR 5 "::ffff:10.0.0.0/127" = Ok ["10.0.0.0"; "10.0.0.1"]
  /\ In "10.0.0.1" ["10.0.0.0"; "10.0.0.1"]
  /\ family_of "10.0.0.1"
     = (if mapped (network (AddrFrom16 (65535 * 2 ^ 32 + 167772160) "") 127)
        then V4 else V6).
Proof.
  assert (H1 : ParseCIDR "::ffff:10.0.0.0/127"
               = Some (cidr_block (AddrFrom16 (65535 * 2 ^ 32 + 167772160) "") 127))
    by (vm_compute; reflexivity).
  assert (H2 : expandCIDR 5 "::ffff:10.0.0.0/127" = Ok ["10.0.0.0"; "10.0.0.1"])
    by (vm_compute; reflexivity).
  assert (H3 : In "10.0.0.1" ["10.0.0.0"; "10.0.0.1"]) by (right; left; reflexivity).
  split; [exact H1|]. split; [exact H2|]. split; [exact H3|].
  exact (expanded_targets_family 5 _ _ _ _ _ H1 H2 H3).
Defined.

Lemma expandCIDR_never_empty_witness :
  expandCIDR 5 "10.0.0.7/32" = Ok ["10.0.0.7"]
  /\ (1 <= length ["10.0.0.7"])%nat.
Proof.
  assert (H : expandCIDR 5 "10.0.0.7/32" = Ok ["10.0.0.7"]) by (vm_compute; reflexivity).
  split; [exact H|].
  exact (expandCIDR_never_empty 5 _ _ H).
Defined.

Lemma goroutines_outnumber_slots_witness :
  (1 <= 1)%nat
  /\ exists s,
       reachable 1 mixed_net "ip.csv" quiet_system three_targets s
       /\ length (gs s) = length three_targets
       /\ Forall released (gs s)
       /\ sem s = O /\ in_flight s = O.
Proof.
  split; [apply le_n|].
  apply (goroutines_outnumber_slots 1 mixed_net "ip.csv" quiet_system three_targets).
  apply le_n.
Defined.

End Instances.
